(** * removebg.py: resize/crop PNGs to a square and make white pixels transparent

  A shallow embedding of [src/removebg.py] ([process_image] and [main]).

  - Python [float]s are IEEE-754 binary64 numbers.  They are modelled by
    [spec_float] with the operations of the standard library's [SpecFloat]
    at precision 53 and maximal exponent 1024 (round to nearest, ties to
    even), so products and quotients round exactly as in the interpreter.
  - Python [int]s are [Z].
  - Exceptions are an explicit error type; [try ... except Exception] is a
    match on the outcome.
  - The imaging library's resampling filter (Lanczos) and its Gaussian blur
    are parameters of the development: only their dimension contract is
    assumed.  [crop], [getdata], [putdata] and [Image.new] are modelled.
  - The file system of [main] is a finite map from paths to nodes. *)

From Stdlib Require Import ZArith Lia Bool Ascii String SpecFloat.
From stdpp Require Import base option list gmap strings.

Local Open Scope Z_scope.

(** ** Exceptions and outcomes *)

Inductive exn : Type :=
| ValueError
| OverflowError
| ZeroDivisionError
| TypeError
| OSError
| FileExistsError
| MemoryError.

Inductive outcome (A : Type) : Type :=
| Ok (a : A)
| Raise (e : exn).
Arguments Ok {A} a.
Arguments Raise {A} e.

Definition obind {A B : Type} (m : outcome A) (k : A -> outcome B) : outcome B :=
  match m with
  | Ok a => k a
  | Raise e => Raise e
  end.

Notation "'do' x <- m ; k" := (obind m (fun x => k))
  (at level 10, x name, m at level 100, k at level 200).
Notation "'do' ' p <- m ; k" := (obind m (fun x => match x with p => k end))
  (at level 10, p pattern, m at level 100, k at level 200).

(** [try: m except Exception: d] *)
Definition try_except {A : Type} (m : outcome A) (d : A) : A :=
  match m with
  | Ok a => a
  | Raise _ => d
  end.

(** ** Python floats *)

Module PyFloat.

Definition prec : Z := 53.
Definition emax : Z := 1024.

Abbreviation float := spec_float.

(** Rounding of the rational [N / D] ([0 <= N], [0 < D]) to the nearest
    integer, ties to the even one. *)
Definition round_half_even (N D : Z) : Z :=
  let q := N / D in
  match (2 * (N mod D)) ?= D with
  | Lt => q
  | Gt => q + 1
  | Eq => if Z.even q then q else q + 1
  end.

(** [float(z)] for a Python int [z]: the nearest float, [OverflowError]
    when it is out of range. *)
Definition of_int (z : Z) : outcome float :=
  match binary_normalize prec emax z 0 false with
  | S754_infinity _ => Raise OverflowError
  | f => Ok f
  end.

(** Float literals of the source; all of them are small integers. *)
Definition lit (z : Z) : float := binary_normalize prec emax z 0 false.

Definition zero : float := S754_zero false.  (* 0.0 *)
Definition one : float := lit 1.             (* 1.0 *)

Definition mul (x y : float) : float := SFmul prec emax x y.

Definition is_zero (x : float) : bool :=
  match x with S754_zero _ => true | _ => false end.

(** [x / y]: Python raises on a zero divisor, whatever [x] is. *)
Definition div (x y : float) : outcome float :=
  if is_zero y then Raise ZeroDivisionError else Ok (SFdiv prec emax x y).

Definition ltb (x y : float) : bool := SFltb x y.
Definition leb (x y : float) : bool := SFleb x y.

(** The builtins [min(a, b)] and [max(a, b)]: the first argument is kept
    unless the second compares strictly smaller (greater). *)
Definition py_min (a b : float) : float := if ltb b a then b else a.
Definition py_max (a b : float) : float := if ltb a b then b else a.

(** [int(round(x))]: round half to even; NaN and the infinities raise. *)
Definition py_round (x : float) : outcome Z :=
  match x with
  | S754_zero _ => Ok 0
  | S754_finite s m e =>
      Ok (cond_Zopp s
            (if 0 <=? e then Z.pos m * 2 ^ e
             else round_half_even (Z.pos m) (2 ^ (- e))))
  | S754_infinity _ => Raise OverflowError
  | S754_nan => Raise ValueError
  end.

(** The value of a finite float as a fraction: numerator and (positive)
    denominator. *)
Definition to_frac (x : float) : option (Z * Z) :=
  match x with
  | S754_zero _ => Some (0, 1)
  | S754_finite s m e =>
      Some (if 0 <=? e then (cond_Zopp s (Z.pos m * 2 ^ e), 1)
            else (cond_Zopp s (Z.pos m), 2 ^ (- e)))
  | _ => None
  end.

Definition valid (x : float) : bool := valid_binary prec emax x.

End PyFloat.

Import PyFloat.

(** ** Python values passed for [tolerance] and [smoothing] *)

Inductive pyobj : Type :=
| PyFloat_ (f : float)
| PyInt (z : Z)
| PyStr (s : string)
| PyNone.

(** ** Images *)

(** An RGBA pixel, as the tuples of [getdata()]. *)
Definition pixel : Type := (Z * Z * Z * Z)%type.

Definition channel_ok (c : Z) : Prop := 0 <= c <= 255.

Definition pixel_ok (p : pixel) : Prop :=
  let '(r, g, b, a) := p in
  channel_ok r /\ channel_ok g /\ channel_ok b /\ channel_ok a.

(** An image: its size and its pixels in row-major order. *)
Record image (A : Type) : Type := Image {
  width : Z;
  height : Z;
  getdata : list A
}.
Arguments Image {A} width height getdata.
Arguments width {A} i.
Arguments height {A} i.
Arguments getdata {A} i.

Definition image_ok {A : Type} (img : image A) : Prop :=
  0 <= width img /\ 0 <= height img /\
  Z.of_nat (length (getdata img)) = width img * height img.

(** Image dimensions are C [int]s in the imaging library. *)
Definition dim_max : Z := 2 ^ 31.

Definition transparent_black : pixel := (0, 0, 0, 0).

(** [Image.new('L', size)]: a single-channel image filled with 0. *)
Definition new_L (w h : Z) : image Z :=
  Image w h (replicate (Z.to_nat (w * h)) 0).

Definition getpixel {A : Type} (dflt : A) (img : image A) (x y : Z) : A :=
  if (0 <=? x) && (x <? width img) && (0 <=? y) && (y <? height img)
  then nth (Z.to_nat (y * width img + x)) (getdata img) dflt
  else dflt.

(** [img.crop((left, top, right, bottom))]: the result always has the size
    of the box; what lies outside the source is transparent black. *)
Definition crop (img : image pixel) (left top right bottom : Z)
  : outcome (image pixel) :=
  if (right <? left) || (bottom <? top) then Raise ValueError
  else
    Ok (Image (right - left) (bottom - top)
        (flat_map
           (fun y => map (fun x => getpixel transparent_black img (left + x) (top + y))
                       (seqZ 0 (right - left)))
           (seqZ 0 (bottom - top)))).

(** [img.putdata(data)]: overwrites the first [len(data)] pixels; more
    entries than pixels is an error. *)
Definition putdata {A : Type} (img : image A) (data : list A) : outcome (image A) :=
  if width img * height img <? Z.of_nat (length data) then Raise TypeError
  else Ok (Image (width img) (height img)
           (data ++ drop (length data) (getdata img))).

(** Values stored in an 'L' image are clipped to a byte. *)
Definition clip8 (v : Z) : Z := Z.max 0 (Z.min 255 v).

(** [alpha_mask.putdata(mask_data)] on an 'L' image. *)
Definition putdata_L (img : image Z) (data : list Z) : outcome (image Z) :=
  putdata img (map clip8 data).

(** ** process_image *)

(** Lines 59-65: the mask entry of one pixel. *)
Definition mask_value (threshold : Z) (item : pixel) : Z :=
  let '(r, g, b, a) := item in
  if (r >=? threshold) && (g >=? threshold) && (b >=? threshold)
  then 0 else 255.

(** Lines 84-86: the mask value becomes the alpha of the pixel. *)
Definition recombine (item : pixel) (m : Z) : pixel :=
  let '(r, g, b, a) := item in (r, g, b, m).

(** Lines 24-26: the size the image is resampled to. *)
Definition scaled_size (w h size : Z) : outcome (Z * Z) :=
  do fmin <- of_int (Z.min w h);
  do fsize <- of_int size;
  do scale <- div fsize fmin;
  do fw <- of_int w;
  do rw <- py_round (mul fw scale);
  do fh <- of_int h;
  do rh <- py_round (mul fh scale);
  Ok (Z.max 1 rw, Z.max 1 rh).

(** Lines 31-34: the crop box. *)
Definition crop_box (imw imh size : Z) : Z * Z * Z * Z :=
  let left := Z.max 0 ((imw - size) / 2) in
  let top := Z.max 0 ((imh - size) / 2) in
  (left, top, left + size, top + size).

(** ** The file system *)

(** An absolute path, as its components. *)
Definition path : Type := list string.

(** A file holds a decodable image or something [Image.open] rejects. *)
Inductive node : Type :=
| Dir
| File (content : option (image pixel)).

Definition isdir (fs : gmap path node) (p : path) : bool :=
  match fs !! p with
  | Some Dir => true
  | _ => false
  end.

Definition dirname (p : path) : path := take (length p - 1)%nat p.

Definition basename (p : path) : path :=
  match last p with
  | Some b => [b]
  | None => []
  end.

(** [Image.open(p).convert('RGBA')] *)
Definition image_open (fs : gmap path node) (p : path) : outcome (image pixel) :=
  match fs !! p with
  | Some (File (Some img)) => Ok img
  | _ => Raise OSError
  end.

(** [img.save(p, 'PNG')]: the destination is opened for writing, then the
    encoder runs.  The encoder rejects an image without pixels
    ([ValueError]); by then a file that was there has been emptied, and one
    that was created for the occasion is removed again.  A run leaves a file
    system and an outcome. *)
Definition image_save (fs : gmap path node) (p : path) (img : image pixel)
  : gmap path node * outcome unit :=
  match fs !! p with
  | Some Dir => (fs, Raise OSError)
  | old =>
      if isdir fs (dirname p) then
        if (width img <=? 0) || (height img <=? 0) then
          (match old with
           | Some _ => <[p := File None]> fs
           | None => fs
           end, Raise ValueError)
        else (<[p := File (Some img)]> fs, Ok tt)
      else (fs, Raise OSError)
  end.

(** [os.makedirs(p, exist_ok=True)]: [done_] is the part of the path already
    walked. *)
Fixpoint makedirs_from (fs : gmap path node) (done_ : path) (rest : list string)
  : outcome (gmap path node) :=
  match rest with
  | [] => Ok fs
  | c :: rest' =>
      let p := done_ ++ [c] in
      match fs !! p with
      | Some Dir => makedirs_from fs p rest'
      | None => makedirs_from (<[p := Dir]> fs) p rest'
      | Some (File _) =>
          Raise (match rest' with [] => FileExistsError | _ => OSError end)
      end
  end.

Definition makedirs (fs : gmap path node) (p : path) : outcome (gmap path node) :=
  makedirs_from fs [] p.

(** [os.listdir(d)]: the names of the entries of [d]. *)
Definition listdir (fs : gmap path node) (d : path) : list string :=
  omap (fun '(p, _) => if bool_decide (dirname p = d) then last p else None)
       (map_to_list fs).

(** The files [os.walk(d)] reports, with their root joined. *)
Definition walk_files (fs : gmap path node) (d : path) : list path :=
  omap (fun '(p, n) =>
          match n with
          | File _ => if bool_decide (d `prefix_of` p) then Some p else None
          | Dir => None
          end)
       (map_to_list fs).

Definition lower_ascii (a : ascii) : ascii :=
  let n := nat_of_ascii a in
  if (65 <=? n)%nat && (n <=? 90)%nat then ascii_of_nat (n + 32) else a.

Fixpoint lower (s : string) : string :=
  match s with
  | EmptyString => EmptyString
  | String a s' => String (lower_ascii a) (lower s')
  end.

Definition endswith (s suffix : string) : bool :=
  let n := String.length s in
  let k := String.length suffix in
  (k <=? n)%nat && String.eqb (substring (n - k) k s) suffix.

(** [f.lower().endswith('.png')] *)
Definition is_png (f : string) : bool := endswith (lower f) ".png".

Section ProcessImage.

(** [float(s)] for a string [s] (the C library's conversion). *)
Variable float_of_str : string -> outcome float.
(** [img.resize((w, h), Image.LANCZOS)]: the resampled image, or the error
    the library raises when it cannot build one of that size
    ([MemoryError], [OverflowError], [ValueError]). *)
Variable resize : image pixel -> Z -> Z -> outcome (image pixel).
(** [mask.filter(ImageFilter.GaussianBlur(radius))]. *)
Variable gaussian_blur : float -> image Z -> image Z.

(** [float(v)] *)
Definition to_float (v : pyobj) : outcome float :=
  match v with
  | PyFloat_ f => Ok f
  | PyInt z => of_int z
  | PyStr s => float_of_str s
  | PyNone => Raise TypeError
  end.

(** Lines 49-55. *)
Definition normalize_tolerance (tolerance : pyobj) : outcome float :=
  let _tol := try_except (to_float tolerance) zero in
  if ltb one _tol then
    do q <- div _tol (lit 255);
    Ok (py_max zero (py_min one q))
  else Ok _tol.

(** Line 58. *)
Definition threshold_of (_tol : float) : outcome Z :=
  py_round (mul (lit 255) _tol).

(** Lines 70-74. *)
Definition normalize_smoothing (smoothing : pyobj) : float :=
  let s := try_except (to_float smoothing) zero in
  py_max zero (py_min one s).

(** Lines 76-77. *)
Definition blur_radius (s : float) : float := mul s (lit 5).

(** Lines 75-78. *)
Definition smooth (s : float) (alpha_mask : image Z) : image Z :=
  if ltb zero s then gaussian_blur (blur_radius s) alpha_mask
  else alpha_mask.

(** Lines 21-28: resample so that the smallest side is [size]. *)
Definition resample (img : image pixel) (size : Z) : outcome (image pixel) :=
  let w := width img in
  let h := height img in
  do '(new_w, new_h) <- scaled_size w h size;
  if bool_decide ((new_w, new_h) = (w, h)) then Ok img
  else resize img new_w new_h.

(** Lines 21-35: resample and centre-crop. *)
Definition resize_and_crop (img : image pixel) (size : Z) : outcome (image pixel) :=
  do img <- resample img size;
  let '(x0, y0, x1, y1) := crop_box (width img) (height img) size in
  crop img x0 y0 x1 y1.

(** Lines 49-58: the whiteness threshold of a [tolerance] argument. *)
Definition tolerance_threshold (tolerance : pyobj) : outcome Z :=
  do _tol <- normalize_tolerance tolerance;
  threshold_of _tol.

(** Lines 42-67: the alpha mask before smoothing. *)
Definition build_mask (img : image pixel) (tolerance : pyobj) : outcome (image Z) :=
  let datas := getdata img in
  let alpha_mask := new_L (width img) (height img) in
  do threshold <- tolerance_threshold tolerance;
  let mask_data := map (mask_value threshold) datas in
  putdata_L alpha_mask mask_data.

(** Lines 21-89 of [process_image], on the decoded RGBA source. *)
Definition process_pixels (src : image pixel) (size : Z)
    (tolerance smoothing : pyobj) : outcome (image pixel) :=
  do img <- resize_and_crop src size;
  let datas := getdata img in
  do alpha_mask <- build_mask img tolerance;
  let alpha_mask := smooth (normalize_smoothing smoothing) alpha_mask in
  let mask_pixels := getdata alpha_mask in
  let r_final := zip_with recombine datas mask_pixels in
  do img <- putdata img r_final;
  let new_data := [] in
  putdata img new_data.

(** [process_image(in_path, out_path, size, tolerance, smoothing)]: the file
    system it leaves and how it ends. *)
Definition process_image (fs : gmap path node) (in_path out_path : path)
    (size : Z) (tolerance smoothing : pyobj) : gmap path node * outcome unit :=
  match (do src <- image_open fs in_path;
         process_pixels src size tolerance smoothing) with
  | Ok img => image_save fs out_path img
  | Raise e => (fs, Raise e)
  end.

(** ** main *)

Record args : Type := Args {
  input : path;
  output : path;
  size : Z;
  tolerance : float;
  recursive : bool;
  smoothing : float
}.

(** The lines [main] prints. *)
Inductive line : Type :=
| NoInputDir (in_dir : path)
| NoPngFound (in_dir : path)
| Processed (src dest_path : path)
| Failed (src : path) (e : exn).

(** What a run leaves behind: the file system, the printed lines and the
    exit code; [uncaught] is the exception that ended the run, if any. *)
Record run : Type := Run {
  final_fs : gmap path node;
  stdout : list line;
  uncaught : option exn;
  exit_code : Z
}.

(** Lines 116-126. *)
Definition gather_pngs (a : args) (fs : gmap path node) : list path :=
  let in_dir := input a in
  if recursive a then
    List.filter (fun p => match last p with
                          | Some f => is_png f
                          | None => false
                          end) (walk_files fs in_dir)
  else
    map (fun f => in_dir ++ [f]) (List.filter is_png (listdir fs in_dir)).

(** Lines 133-140. *)
Definition dest_path_of (a : args) (src : path) : path :=
  let rel_name := drop (length (input a)) src in
  let dest_rel := if recursive a then rel_name else basename rel_name in
  output a ++ dest_rel.

(** Lines 132-149: the batch loop. *)
Fixpoint batch (a : args) (pngs : list path) (fs : gmap path node)
    (out : list line) : run :=
  match pngs with
  | [] => Run fs out None 0
  | src :: pngs' =>
      let dest_path := dest_path_of a src in
      let dest_dir := dirname dest_path in
      match (if negb (isdir fs dest_dir) then makedirs fs dest_dir else Ok fs) with
      | Raise e => Run fs out (Some e) 1
      | Ok fs =>
          let '(fs', r) := process_image fs src dest_path (size a)
                             (PyFloat_ (tolerance a)) (PyFloat_ (smoothing a)) in
          match r with
          | Ok _ => batch a pngs' fs' (out ++ [Processed src dest_path])
          | Raise e => batch a pngs' fs' (out ++ [Failed src e])
          end
      end
  end.

Definition main (a : args) (fs : gmap path node) : run :=
  let in_dir := input a in
  let out_dir := output a in
  if negb (isdir fs in_dir) then Run fs [NoInputDir in_dir] None 1
  else
    match makedirs fs out_dir with
    | Raise e => Run fs [] (Some e) 1
    | Ok fs =>
        let pngs := gather_pngs a fs in
        match pngs with
        | [] => Run fs [NoPngFound in_dir] None 0
        | _ => batch a pngs fs []
        end
    end.

End ProcessImage.

(** ** Instances of the imaging primitives, for closed examples *)

(** No string converts. *)
Definition float_of_str_none : string -> outcome float :=
  fun _ => Raise ValueError.

Definition map_image {A B : Type} (f : A -> B) (img : image A) : image B :=
  Image (width img) (height img) (map f (getdata img)).

(** Nearest-neighbour resampling. *)
Definition nearest (img : image pixel) (w h : Z) : image pixel :=
  Image w h
    (flat_map
       (fun y => map (fun x => getpixel transparent_black img
                                 (x * width img / w) (y * height img / h))
                   (seqZ 0 w))
       (seqZ 0 h)).

(** A resampler that never fails. *)
Definition resize_nearest (img : image pixel) (w h : Z) : outcome (image pixel) :=
  Ok (nearest img w h).

(** One that cannot build images of more than 2^20 pixels. *)
Definition resize_small (img : image pixel) (w h : Z) : outcome (image pixel) :=
  if 2 ^ 20 <? w * h then Raise MemoryError else Ok (nearest img w h).

(** Resampling on premultiplied alpha: colours are weighted by alpha before
    the filter and divided by it afterwards, as the imaging library does for
    RGBA images with every filter but NEAREST. *)
Definition premultiply (p : pixel) : pixel :=
  let '(r, g, b, a) := p in (r * a / 255, g * a / 255, b * a / 255, a).

Definition unpremultiply (p : pixel) : pixel :=
  let '(r, g, b, a) := p in
  if (a =? 0) || (a =? 255) then p
  else (clip8 (255 * r / a), clip8 (255 * g / a), clip8 (255 * b / a), a).

Definition resize_premultiplied (img : image pixel) (w h : Z)
  : outcome (image pixel) :=
  Ok (map_image unpremultiply (nearest (map_image premultiply img) w h)).

(** A three-tap horizontal box blur, whatever the radius. *)
Definition blur_box (radius : float) (m : image Z) : image Z :=
  Image (width m) (height m)
    (flat_map
       (fun y => map (fun x =>
                        (getpixel 0 m (Z.max 0 (x - 1)) y
                         + getpixel 0 m x y
                         + getpixel 0 m (Z.min (width m - 1) (x + 1)) y) / 3)
                   (seqZ 0 (width m)))
       (seqZ 0 (height m))).

(** ** Notions used in the proofs *)

(** Where [N / D] lies between its floor and the next integer. *)
Definition loc_of (N D : Z) : location :=
  if N mod D =? 0 then loc_Exact else loc_Inexact (2 * (N mod D) ?= D).

(** A shift record stands for the fraction [N / D]. *)
Definition represents (N D : Z) (mrs : shr_record) : Prop :=
  shr_m mrs = N / D /\ loc_of_shr_record mrs = loc_of N D.

(** The second normalisation of [binary_round_aux] and its overflow test,
    applied to the rounded mantissa [m1] at exponent [e1]. *)
Definition round_finish (s : bool) (m1 e1 : Z) : float :=
  let n2 := Z.max 0 (fexp prec emax (Zdigits2 m1 + e1) - e1) in
  match m1 / 2 ^ n2 with
  | 0 => S754_zero s
  | Z.pos m =>
      if e1 + n2 <=? emax - prec then S754_finite s m (e1 + n2)
      else S754_infinity s
  | Z.neg _ => S754_nan
  end.

(** Every finite float, times [2 ^ scale_exp], is an integer. *)
Definition scale_exp : Z := 1200.

Definition fmt_lo : Z := scale_exp - 1074.

(** The fraction [N / D] rounded to the nearest multiple of the unit in the
    last place of its binade (or of the subnormal unit [2 ^ fmt_lo]). *)
Definition round_fmt (N D : Z) : Z :=
  let fe := Z.max (Zdigits2 (N / D) - 53) fmt_lo in
  round_half_even N (D * 2 ^ fe) * 2 ^ fe.

Definition scaled (x : float) : Z :=
  match x with
  | S754_finite s m e => cond_Zopp s (Z.pos m * 2 ^ (e + scale_exp))
  | _ => 0
  end.

(** Zero, or finite within the exponent range of the format. *)
Definition finite_ok (x : float) : Prop :=
  match x with
  | S754_zero _ => True
  | S754_finite _ _ e => -1074 <= e <= 971
  | _ => False
  end.

Definition sign_is (s : bool) (x : float) : Prop :=
  match x with
  | S754_zero s' | S754_finite s' _ _ | S754_infinity s' => s' = s
  | S754_nan => False
  end.

Definition overflow_bound : Z := 2 ^ (1024 + scale_exp).

Definition round_int (V : Z) : Z :=
  if V <? 0 then - round_half_even (- V) (2 ^ scale_exp)
  else round_half_even V (2 ^ scale_exp).

Definition round_fmt_signed (N D : Z) : Z :=
  if N <? 0 then - round_fmt (- N) D else round_fmt N D.

(** A legacy tolerance after normalisation. *)
Definition legacy_value (t : float) : Z :=
  match t with
  | S754_finite _ _ _ =>
      Z.max 0 (Z.min (2 ^ scale_exp) (round_fmt (Z.abs (scaled t)) 255))
  | _ => 2 ^ scale_exp
  end.

Definition alpha (p : pixel) : Z := let '(_, _, _, a) := p in a.

(** The clamped smoothing factor, scaled: NaN compares neither smaller nor
    greater, so [min(1.0, nan)] is 1.0. *)
Definition clamp_value (s : float) : Z :=
  match s with
  | S754_nan => 2 ^ scale_exp
  | S754_infinity false => 2 ^ scale_exp
  | S754_infinity true => 0
  | _ => Z.max 0 (Z.min (2 ^ scale_exp) (scaled s))
  end.

Definition same_rgb (p q : pixel) : Prop :=
  let '(r1, g1, b1, _) := p in
  let '(r2, g2, b2, _) := q in
  r1 = r2 /\ g1 = g2 /\ b1 = b2.

Definition same_rgb_image (i1 i2 : image pixel) : Prop :=
  width i1 = width i2 /\ height i1 = height i2 /\
  Forall2 same_rgb (getdata i1) (getdata i2).

(** Lines 49-52 and 70-73: the float an argument counts as, [float(v)], and
    0.0 when that raises. *)
Definition float_or_zero (float_of_str : string -> outcome float) (v : pyobj)
  : float :=
  try_except (to_float float_of_str v) zero.

(** What two runs share of the world outside the program: the answers of
    the C library's [float] and of the imaging library depend on their
    arguments only.  A resampling that succeeds in one run may still fail in
    the other, for want of memory. *)
Definition same_library
    (float_of_str1 float_of_str2 : string -> outcome float)
    (resize1 resize2 : image pixel -> Z -> Z -> outcome (image pixel))
    (blur1 blur2 : float -> image Z -> image Z) : Prop :=
  (forall s, float_of_str1 s = float_of_str2 s) /\
  (forall i w h r1 r2, resize1 i w h = Ok r1 -> resize2 i w h = Ok r2 -> r1 = r2) /\
  (forall r m, blur1 r m = blur2 r m).

(** The most negative tolerance whose product with 255 is finite,
    [-4521260802379791 * 2^964]: [255 * tolerance_floor] rounds to
    [-(2^53 - 2) * 2^971], and for the next float below it the product
    rounds to [-2^1024], which is minus infinity. *)
Definition tolerance_floor : float := S754_finite true 4521260802379791 964.


(** Every ancestor of [p], and [p] itself, is a directory. *)
Definition dirs_on_path (fs : gmap path node) (p : path) : Prop :=
  forall k, (0 < k <= length p)%nat -> fs !! take k p = Some Dir.

(** Nothing stands in the way of the destination directories of [pngs]: no
    regular file is on the path of one of them, and neither is the
    destination of one of the files. *)
Definition destinations_free (a : args) (pngs : list path) (fs : gmap path node)
  : Prop :=
  forall src, In src pngs ->
    (forall k c, (0 < k)%nat ->
       fs !! take k (dirname (dest_path_of a src)) <> Some (File c)) /\
    (forall src', In src' pngs ->
       ~ dest_path_of a src' `prefix_of` dirname (dest_path_of a src)).

Definition white : pixel := (255, 255, 255, 255).
Definition red : pixel := (255, 0, 0, 255).

(** 0.5 *)
Definition half : float := S754_finite false 4503599627370496 (-53).

(** A 2x1 and a 1x1 picture. *)
Definition wide_img : image pixel := Image 2 1 [white; red].
Definition dot_img : image pixel := Image 1 1 [red].

(** What [wide_img] becomes at size 2, tolerance 1.0, no smoothing. *)
Definition wide_out : image pixel :=
  Image 2 2 [(255, 255, 255, 0); red; (255, 255, 255, 0); red].

(** An input directory with two pictures and a file that is not one. *)
Definition batch_fs : gmap path node :=
  <[ ["in"; "a.png"] := File (Some wide_img) ]>
  (<[ ["in"; "b.PNG"] := File (Some dot_img) ]>
  (<[ ["in"; "c.png"] := File None ]>
  (<[ ["in"] := Dir ]>
  (<[ [] := Dir ]> ∅)))).

Definition batch_args : args := Args ["in"] ["out"] 2 one false zero.




(** A printed line that does not report a processed file. *)
Definition not_processed (l : line) : Prop :=
  match l with Processed _ _ => False | _ => True end.

(** Arguments with a NaN tolerance, and with the input directory as output. *)
Definition nan_args : args := Args ["in"] ["out"] 2 S754_nan false zero.

(** [fs] with the output directory of the examples. *)
Definition with_out (fs : gmap path node) : gmap path node := <[ ["out"] := Dir ]> fs.


(** * Proofs *)

(** ** Rounding to the nearest integer, ties to even *)

Lemma round_half_even_cases (N D : Z) :
  0 < D ->
  let q := N / D in
  let r := N mod D in
  (2 * r < D /\ round_half_even N D = q) \/
  (2 * r > D /\ round_half_even N D = q + 1) \/
  (2 * r = D /\ Z.even (round_half_even N D) = true /\
   (round_half_even N D = q \/ round_half_even N D = q + 1)).
Proof.
  intros HD q r. unfold round_half_even. fold q r.
  destruct (Z.compare_spec (2 * r) D) as [H|H|H].
  - right; right. split; [exact H|].
    destruct (Z.even q) eqn:E.
    + split; [exact E | left; reflexivity].
    + split; [| right; reflexivity].
      rewrite Z.even_add, E. reflexivity.
  - left. split; [exact H | reflexivity].
  - right; left. split; [lia | reflexivity].
Qed.

Lemma round_half_even_near (N D : Z) :
  0 < D -> Z.abs (2 * (round_half_even N D * D - N)) <= D.
Proof.
  intros HD.
  pose proof (Z.div_mod N D ltac:(lia)) as E.
  pose proof (Z.mod_pos_bound N D HD) as B.
  destruct (round_half_even_cases N D HD) as [[H ->]|[[H ->]|[H [_ [-> | ->]]]]]; nia.
Qed.

Lemma round_half_even_exact (k D : Z) :
  0 < D -> round_half_even (k * D) D = k.
Proof.
  intros HD. unfold round_half_even.
  rewrite Z.mod_mul by lia. rewrite Z.div_mul by lia.
  simpl. destruct D; first [lia | reflexivity].
Qed.

Lemma round_half_even_mono (N1 N2 D : Z) :
  0 < D -> N1 <= N2 -> round_half_even N1 D <= round_half_even N2 D.
Proof.
  intros HD HN.
  pose proof (Z.div_mod N1 D ltac:(lia)) as E1.
  pose proof (Z.mod_pos_bound N1 D HD) as B1.
  pose proof (Z.div_mod N2 D ltac:(lia)) as E2.
  pose proof (Z.mod_pos_bound N2 D HD) as B2.
  pose proof (Z.div_le_mono N1 N2 D HD HN) as Hq.
  destruct (Z.eq_dec (N1 / D) (N2 / D)) as [Heq|Hne].
  - (* same floor: the remainders are ordered *)
    assert (N1 mod D <= N2 mod D) by nia.
    unfold round_half_even. rewrite <- Heq.
    destruct (Z.compare_spec (2 * (N1 mod D)) D), (Z.compare_spec (2 * (N2 mod D)) D);
      try lia; destruct (Z.even (N1 / D)); lia.
  - assert (N1 / D + 1 <= N2 / D) by lia.
    destruct (round_half_even_cases N1 D HD) as [[_ ->]|[[_ ->]|[_ [_ [-> | ->]]]]];
    destruct (round_half_even_cases N2 D HD) as [[_ ->]|[[_ ->]|[_ [_ [-> | ->]]]]]; lia.
Qed.

Lemma round_half_even_scale (N D c : Z) :
  0 < D -> 0 < c -> round_half_even (N * c) (D * c) = round_half_even N D.
Proof.
  intros HD Hc. unfold round_half_even.
  rewrite Z.div_mul_cancel_r by lia.
  rewrite Zmult_mod_distr_r.
  replace (2 * (N mod D * c)) with (2 * (N mod D) * c) by ring.
  rewrite <- (Zmult_compare_compat_r (2 * (N mod D)) D c) by lia.
  reflexivity.
Qed.

Lemma round_half_even_nonneg (N D : Z) :
  0 < D -> 0 <= N -> 0 <= round_half_even N D.
Proof.
  intros HD HN.
  rewrite <- (round_half_even_exact 0 D HD).
  apply round_half_even_mono; lia.
Qed.

(** ** The shift-and-round of [SpecFloat] *)

Lemma represents_of_loc (N D : Z) :
  represents N D (shr_record_of_loc (N / D) (loc_of N D)).
Proof.
  unfold represents. destruct (loc_of N D) as [|[]]; simpl; auto.
Qed.

Ltac loc_solve H :=
  destruct H as [(-> & -> & ?)|[(-> & -> & ? & ?)|[(-> & -> & ? & ?)|(-> & -> & ? & ?)]]];
  cbn [shr_1 orb loc_of_shr_record shr_m]; (split; [reflexivity|]);
  repeat match goal with
         | |- context [Z.eqb ?a 0] => destruct (Z.eqb_spec a 0); try lia
         | |- context [Z.compare ?a ?b] => destruct (Z.compare_spec a b); try lia
         end; reflexivity.

Lemma represents_shr_1 (N D : Z) (mrs : shr_record) :
  0 <= N -> 0 < D -> represents N D mrs -> represents N (2 * D) (shr_1 mrs).
Proof.
  intros HN HD [Hm Hl].
  pose proof (Z.div_mod N D ltac:(lia)) as E.
  pose proof (Z.mod_pos_bound N D HD) as B.
  pose proof (Z.div_pos N D HN HD) as Hq.
  destruct mrs as [m r s]. simpl in Hm. subst m.
  remember (N / D) as q eqn:Eq0. remember (N mod D) as rho eqn:Er0.
  (* what the two sticky bits say about the remainder *)
  assert (Hrs : (r = false /\ s = false /\ rho = 0) \/
                (r = false /\ s = true /\ 0 < rho /\ 2 * rho < D) \/
                (r = true /\ s = false /\ 0 < rho /\ 2 * rho = D) \/
                (r = true /\ s = true /\ 0 < rho /\ 2 * rho > D)).
  { unfold loc_of in Hl. rewrite <- Er0 in Hl.
    destruct (Z.eqb_spec rho 0) as [H0|H0].
    - destruct r, s; simpl in Hl; try discriminate. left; auto.
    - destruct (Z.compare_spec (2 * rho) D); destruct r, s; simpl in Hl;
        try discriminate; right; [right; left|left|right; right]; repeat split; lia. }
  assert (Hstep : forall q' b, (b = 0 \/ b = 1) -> q = 2 * q' + b ->
            N / (2 * D) = q' /\ N mod (2 * D) = b * D + rho).
  { intros q' b Hb Hq'.
    assert (Hu : N = (2 * D) * q' + (b * D + rho)) by nia.
    split; [symmetry; apply (Z.div_unique N (2 * D) q' (b * D + rho)) |
            symmetry; apply (Z.mod_unique N (2 * D) q' (b * D + rho))];
      try exact Hu; left; nia. }
  clear Eq0 Er0 Hl.
  unfold represents, loc_of.
  destruct q as [|[p|p|]|p]; try lia.
  - destruct (Hstep 0 0 ltac:(lia) ltac:(lia)) as [-> ->]. loc_solve Hrs.
  - destruct (Hstep (Z.pos p) 1 ltac:(lia) ltac:(lia)) as [-> ->]. loc_solve Hrs.
  - destruct (Hstep (Z.pos p) 0 ltac:(lia) ltac:(lia)) as [-> ->]. loc_solve Hrs.
  - destruct (Hstep 0 1 ltac:(lia) ltac:(lia)) as [-> ->]. loc_solve Hrs.
Qed.

Lemma iter_pos_nat {A : Type} (f : A -> A) (p : positive) (x : A) :
  SpecFloat.iter_pos f p x = Nat.iter (Pos.to_nat p) f x.
Proof.
  revert x. induction p as [p IH|p IH|]; intros x; cbn [SpecFloat.iter_pos].
  - rewrite !IH. rewrite Pos2Nat.inj_xI.
    replace (S (2 * Pos.to_nat p))%nat with (Pos.to_nat p + (Pos.to_nat p + 1))%nat by lia.
    rewrite !Nat.iter_add. reflexivity.
  - rewrite !IH. rewrite Pos2Nat.inj_xO.
    replace (2 * Pos.to_nat p)%nat with (Pos.to_nat p + Pos.to_nat p)%nat by lia.
    rewrite Nat.iter_add. reflexivity.
  - reflexivity.
Qed.

Lemma represents_iter (N D : Z) (mrs : shr_record) (n : nat) :
  0 <= N -> 0 < D -> represents N D mrs ->
  represents N (D * 2 ^ Z.of_nat n) (Nat.iter n shr_1 mrs).
Proof.
  intros HN HD H. induction n as [|n IH].
  - simpl. rewrite Z.mul_1_r. exact H.
  - rewrite Nat2Z.inj_succ, Z.pow_succ_r by lia. simpl Nat.iter.
    replace (D * (2 * 2 ^ Z.of_nat n)) with (2 * (D * 2 ^ Z.of_nat n)) by ring.
    apply represents_shr_1; [exact HN | | exact IH].
    apply Z.mul_pos_pos; [exact HD | apply Z.pow_pos_nonneg; lia].
Qed.

Lemma represents_shr (N D : Z) (mrs : shr_record) (e n : Z) :
  0 <= N -> 0 < D -> represents N D mrs ->
  represents N (D * 2 ^ Z.max 0 n) (fst (shr mrs e n)) /\
  snd (shr mrs e n) = e + Z.max 0 n.
Proof.
  intros HN HD H. destruct n as [|p|p]; simpl shr; simpl fst; simpl snd.
  - rewrite Z.max_l by lia. simpl. rewrite Z.mul_1_r. split; [exact H | lia].
  - rewrite Z.max_r by lia. rewrite iter_pos_nat. split; [| reflexivity].
    rewrite <- (positive_nat_Z p). apply represents_iter; assumption.
  - rewrite Z.max_l by lia. simpl. rewrite Z.mul_1_r. split; [exact H | lia].
Qed.

Lemma round_nearest_even_represents (N D : Z) (mrs : shr_record) :
  0 < D -> represents N D mrs ->
  round_nearest_even (shr_m mrs) (loc_of_shr_record mrs) = round_half_even N D.
Proof.
  intros HD [-> ->]. unfold loc_of, round_half_even.
  destruct (Z.eqb_spec (N mod D) 0) as [H0|H0].
  - rewrite H0. simpl. destruct D; first [lia | reflexivity].
  - simpl. destruct (2 * (N mod D) ?= D); reflexivity.
Qed.

Lemma binary_round_aux_spec (s : bool) (N D ex : Z) :
  0 <= N -> 0 < D ->
  binary_round_aux prec emax s (N / D) ex (loc_of N D) =
  let n1 := Z.max 0 (fexp prec emax (Zdigits2 (N / D) + ex) - ex) in
  round_finish s (round_half_even N (D * 2 ^ n1)) (ex + n1).
Proof.
  intros HN HD. cbv zeta. unfold binary_round_aux, shr_fexp.
  set (n1 := fexp prec emax (Zdigits2 (N / D) + ex) - ex).
  destruct (represents_shr N D _ ex n1 HN HD (represents_of_loc N D)) as [Hr He].
  destruct (shr (shr_record_of_loc (N / D) (loc_of N D)) ex n1) as [mrs' e'].
  simpl in Hr, He. subst e'.
  assert (HD' : 0 < D * 2 ^ Z.max 0 n1).
  { apply Z.mul_pos_pos; [exact HD | apply Z.pow_pos_nonneg; lia]. }
  rewrite (round_nearest_even_represents N _ mrs' HD' Hr).
  set (m1 := round_half_even N (D * 2 ^ Z.max 0 n1)).
  assert (Hm1 : 0 <= m1) by (apply round_half_even_nonneg; assumption).
  set (e1 := ex + Z.max 0 n1).
  set (n2 := fexp prec emax (Zdigits2 m1 + e1) - e1).
  assert (Hrep : represents m1 1 (shr_record_of_loc m1 loc_Exact)).
  { unfold represents, loc_of. rewrite Z.div_1_r, Z.mod_1_r. simpl. auto. }
  destruct (represents_shr m1 1 _ e1 n2 Hm1 ltac:(lia) Hrep) as [[Hm2 _] He2].
  destruct (shr (shr_record_of_loc m1 loc_Exact) e1 n2) as [mrs'' e''].
  simpl in Hm2, He2. subst e''. rewrite Hm2, Z.mul_1_l.
  unfold round_finish. fold n2. reflexivity.
Qed.

(** ** Number of binary digits *)

Lemma digits2_pos_size (p : positive) : digits2_pos p = Pos.size p.
Proof. induction p as [p IH|p IH|]; simpl; congruence. Qed.

Lemma Zdigits2_log2 (m : Z) : 0 < m -> Zdigits2 m = Z.log2 m + 1.
Proof.
  destruct m as [|p|p]; try lia. intros _. simpl Zdigits2.
  rewrite digits2_pos_size.
  destruct p as [p|p|]; simpl; try reflexivity; lia.
Qed.

Lemma Zdigits2_bounds (m : Z) :
  0 < m -> 2 ^ (Zdigits2 m - 1) <= m < 2 ^ Zdigits2 m.
Proof.
  intros Hm. rewrite (Zdigits2_log2 m Hm).
  replace (Z.log2 m + 1 - 1) with (Z.log2 m) by lia.
  pose proof (Z.log2_spec m Hm). lia.
Qed.

Lemma Zdigits2_nonneg (m : Z) : 0 <= Zdigits2 m.
Proof. destruct m; simpl; lia. Qed.

Lemma Zdigits2_unique (m d : Z) :
  2 ^ (d - 1) <= m < 2 ^ d -> 0 < m -> Zdigits2 m = d.
Proof.
  intros H Hm. rewrite (Zdigits2_log2 m Hm).
  assert (0 < d).
  { destruct (Z.lt_ge_cases 0 d) as [|Hd]; [assumption|].
    assert (2 ^ d <= 2 ^ 0) by (apply Z.pow_le_mono_r; lia).
    change (2 ^ 0) with 1 in *. lia. }
  rewrite (Z.log2_unique m (d - 1));
    [lia | lia | replace (Z.succ (d - 1)) with d by lia; exact H].
Qed.

Lemma Zdigits2_le (a b : Z) : 0 <= a <= b -> Zdigits2 a <= Zdigits2 b.
Proof.
  intros [Ha Hab]. destruct (Z.eq_dec a 0) as [->|Hne].
  - apply Zdigits2_nonneg.
  - rewrite !Zdigits2_log2 by lia.
    pose proof (Z.log2_le_mono a b Hab). lia.
Qed.

Lemma Zdigits2_lt_pow (m j : Z) : 0 <= j -> 0 <= m < 2 ^ j -> Zdigits2 m <= j.
Proof.
  intros Hj [Hm Hlt]. destruct (Z.eq_dec m 0) as [->|Hne]; [simpl; lia|].
  pose proof (Zdigits2_bounds m ltac:(lia)) as [Hlo _].
  destruct (Z.le_gt_cases (Zdigits2 m) j) as [|Hgt]; [assumption|].
  assert (2 ^ j <= 2 ^ (Zdigits2 m - 1)) by (apply Z.pow_le_mono_r; lia).
  lia.
Qed.

Lemma Zdigits2_ge_pow (m j : Z) : 0 <= j -> 2 ^ j <= m -> j + 1 <= Zdigits2 m.
Proof.
  intros Hj Hle.
  assert (0 < m) by (pose proof (Z.pow_pos_nonneg 2 j ltac:(lia) Hj); lia).
  pose proof (Zdigits2_bounds m ltac:(lia)) as [_ Hhi].
  destruct (Z.le_gt_cases (j + 1) (Zdigits2 m)) as [|Hgt]; [assumption|].
  assert (2 ^ Zdigits2 m <= 2 ^ j).
  { apply Z.pow_le_mono_r; [lia|]. pose proof (Zdigits2_nonneg m). lia. }
  lia.
Qed.

(** ** Rounding to the binary64 format, on values scaled by [2 ^ scale_exp] *)

Lemma fmt_lo_pos : 0 <= fmt_lo.
Proof. unfold fmt_lo, scale_exp. lia. Qed.

Lemma round_fmt_mono (N1 N2 D : Z) :
  0 < D -> 0 <= N1 <= N2 -> round_fmt N1 D <= round_fmt N2 D.
Proof.
  intros HD [HN1 HN].
  pose proof fmt_lo_pos as Hlo.
  unfold round_fmt.
  set (d1 := Zdigits2 (N1 / D)). set (d2 := Zdigits2 (N2 / D)).
  assert (Hq1 : 0 <= N1 / D) by (apply Z.div_pos; lia).
  assert (Hq : N1 / D <= N2 / D) by (apply Z.div_le_mono; lia).
  assert (Hd : d1 <= d2) by (apply Zdigits2_le; lia).
  set (fe1 := Z.max (d1 - 53) fmt_lo). set (fe2 := Z.max (d2 - 53) fmt_lo).
  assert (Hfe1 : 0 <= fe1) by lia.
  assert (Hfe2 : 0 <= fe2) by lia.
  assert (Hp1 : 0 < 2 ^ fe1) by (apply Z.pow_pos_nonneg; lia).
  assert (Hp2 : 0 < 2 ^ fe2) by (apply Z.pow_pos_nonneg; lia).
  destruct (Z.eq_dec fe1 fe2) as [Heq|Hne].
  - rewrite <- Heq. apply Z.mul_le_mono_nonneg_r; [lia|].
    apply round_half_even_mono; [nia | exact HN].
  - assert (Hlt : fe1 < fe2) by lia.
    assert (Hfe2' : fe2 = d2 - 53) by lia.
    assert (Hd12 : d1 < d2) by lia.
    assert (Hq2pos : 0 < N2 / D).
    { destruct (Z.eq_dec (N2 / D) 0) as [E0|]; [|lia].
      unfold d2 in Hd12. rewrite E0 in Hd12. simpl in Hd12.
      pose proof (Zdigits2_nonneg (N1 / D)). fold d1 in H. lia. }
    pose proof (Zdigits2_bounds (N2 / D) Hq2pos) as [HB2 _]. fold d2 in HB2.
    (* the power of two between the two values *)
    set (B := 2 ^ (d2 - 1)).
    assert (HBpos : 0 < B) by (apply Z.pow_pos_nonneg; lia).
    assert (Hq1B : N1 / D < B).
    { destruct (Z.eq_dec (N1 / D) 0) as [E0|]; [lia|].
      pose proof (Zdigits2_bounds (N1 / D) ltac:(lia)) as [_ Hhi]. fold d1 in Hhi.
      assert (2 ^ d1 <= B) by (apply Z.pow_le_mono_r; lia). lia. }
    assert (HN1B : N1 <= B * D).
    { pose proof (Z.div_mod N1 D ltac:(lia)).
      pose proof (Z.mod_pos_bound N1 D HD). nia. }
    assert (HN2B : B * D <= N2).
    { pose proof (Z.div_mod N2 D ltac:(lia)).
      pose proof (Z.mod_pos_bound N2 D HD). nia. }
    assert (HB1 : B = 2 ^ (d2 - 1 - fe1) * 2 ^ fe1).
    { unfold B. rewrite <- Z.pow_add_r by lia. f_equal. lia. }
    assert (HB2' : B = 2 ^ 52 * 2 ^ fe2).
    { unfold B. rewrite <- Z.pow_add_r by lia. f_equal. lia. }
    transitivity B.
    + rewrite HB1. apply Z.mul_le_mono_nonneg_r; [lia|].
      rewrite <- (round_half_even_exact (2 ^ (d2 - 1 - fe1)) (D * 2 ^ fe1)) by nia.
      apply round_half_even_mono; [nia|].
      replace (2 ^ (d2 - 1 - fe1) * (D * 2 ^ fe1)) with (B * D) by (rewrite HB1; ring).
      exact HN1B.
    + rewrite HB2'. apply Z.mul_le_mono_nonneg_r; [lia|].
      rewrite <- (round_half_even_exact (2 ^ 52) (D * 2 ^ fe2)) by nia.
      apply round_half_even_mono; [nia|].
      replace (2 ^ 52 * (D * 2 ^ fe2)) with (B * D) by (rewrite HB2'; ring).
      exact HN2B.
Qed.

Lemma round_fmt_exact (m j D : Z) :
  0 < D -> 0 <= m < 2 ^ 53 -> fmt_lo <= j -> round_fmt (m * 2 ^ j * D) D = m * 2 ^ j.
Proof.
  intros HD [Hm Hm53] Hj. pose proof fmt_lo_pos as Hlo.
  unfold round_fmt. rewrite Z.div_mul by lia.
  set (fe := Z.max (Zdigits2 (m * 2 ^ j) - 53) fmt_lo).
  assert (Hfe : fmt_lo <= fe <= j).
  { split; [lia|]. apply Z.max_lub; [|exact Hj].
    assert (Zdigits2 (m * 2 ^ j) <= 53 + j); [|lia].
    apply Zdigits2_lt_pow; [lia|]. split; [apply Z.mul_nonneg_nonneg; lia|].
    rewrite Z.pow_add_r by lia.
    apply Z.mul_lt_mono_pos_r; [apply Z.pow_pos_nonneg; lia | exact Hm53]. }
  assert (Hp : 0 < 2 ^ fe) by (apply Z.pow_pos_nonneg; lia).
  replace (m * 2 ^ j * D) with (m * 2 ^ (j - fe) * (D * 2 ^ fe)).
  - rewrite round_half_even_exact by nia.
    rewrite <- Z.mul_assoc, <- Z.pow_add_r by lia. do 2 f_equal. lia.
  - replace j with ((j - fe) + fe) at 2 by lia.
    rewrite (Z.pow_add_r 2 (j - fe) fe) by lia. ring.
Qed.

Lemma round_fmt_scale (N D c : Z) :
  0 < D -> 0 < c -> round_fmt (N * c) (D * c) = round_fmt N D.
Proof.
  intros HD Hc. unfold round_fmt.
  rewrite Z.div_mul_cancel_r by lia.
  set (fe := Z.max _ _).
  replace (D * c * 2 ^ fe) with (D * 2 ^ fe * c) by ring.
  rewrite round_half_even_scale; [reflexivity | | exact Hc].
  apply Z.mul_pos_pos; [exact HD|]. apply Z.pow_pos_nonneg; [lia|].
  pose proof fmt_lo_pos. lia.
Qed.

(** ** Floats as scaled integers *)

Lemma fexp_eq (e : Z) : fexp prec emax e = Z.max (e - 53) (-1074).
Proof. reflexivity. Qed.

Lemma round_finish_cases (s : bool) (m1 e1 : Z) :
  0 <= m1 <= 2 ^ 53 -> -1074 <= e1 ->
  round_finish s m1 e1 =
  if m1 =? 0 then S754_zero s
  else if m1 =? 2 ^ 53 then
         if e1 + 1 <=? 971 then S754_finite s (Z.to_pos (2 ^ 52)) (e1 + 1)
         else S754_infinity s
       else if e1 <=? 971 then S754_finite s (Z.to_pos m1) e1
            else S754_infinity s.
Proof.
  intros [Hm Hm53] He. unfold round_finish.
  destruct (Z.eqb_spec m1 0) as [->|Hne].
  - rewrite Z.div_0_l; [reflexivity|].
    apply Z.pow_nonzero; lia.
  - destruct (Z.eqb_spec m1 (2 ^ 53)) as [->|Hne53].
    + replace (Zdigits2 (2 ^ 53)) with 54 by reflexivity.
      rewrite fexp_eq.
      replace (Z.max 0 (Z.max (54 + e1 - 53) (-1074) - e1)) with 1 by lia.
      change (2 ^ 53 / 2 ^ 1) with (Z.pos (Z.to_pos (2 ^ 52))).
      reflexivity.
    + assert (Hd : Zdigits2 m1 <= 53) by (apply Zdigits2_lt_pow; lia).
      rewrite fexp_eq.
      replace (Z.max 0 (Z.max (Zdigits2 m1 + e1 - 53) (-1074) - e1)) with 0 by lia.
      rewrite Z.add_0_r. change (2 ^ 0) with 1. rewrite Z.div_1_r.
      destruct m1 as [|p|p]; try lia. reflexivity.
Qed.

Lemma valid_finite (s : bool) (m : positive) (e : Z) :
  Z.max (Zdigits2 (Z.pos m) + e - 53) (-1074) = e /\ e <= 971 ->
  valid (S754_finite s m e) = true.
Proof.
  intros [Hc He]. unfold valid, valid_binary, bounded, canonical_mantissa.
  apply andb_true_intro. split.
  - apply Z.eqb_eq. rewrite fexp_eq. exact Hc.
  - apply Z.leb_le. exact He.
Qed.

Lemma valid_finite_inv (s : bool) (m : positive) (e : Z) :
  valid (S754_finite s m e) = true ->
  Z.max (Zdigits2 (Z.pos m) + e - 53) (-1074) = e /\ e <= 971.
Proof.
  unfold valid, valid_binary, bounded, canonical_mantissa.
  intros H. apply andb_prop in H. destruct H as [Hc He].
  apply Z.eqb_eq in Hc. apply Z.leb_le in He. rewrite fexp_eq in Hc.
  split; [exact Hc | exact He].
Qed.

(** [binary_round_aux] rounds the exact value to the format: the scaled
    result is [round_fmt] of the scaled exact fraction, and it is an
    infinity exactly when that reaches [2 ^ 1024]. *)
Lemma binary_round_aux_scaled (s : bool) (N D ex : Z) :
  0 <= N -> 0 < D -> 0 <= ex + scale_exp ->
  ex <= fexp prec emax (Zdigits2 (N / D) + ex) ->
  let R := round_fmt (N * 2 ^ (ex + scale_exp)) D in
  let r := binary_round_aux prec emax s (N / D) ex (loc_of N D) in
  (R < overflow_bound ->
   finite_ok r /\ sign_is s r /\ valid r = true /\ scaled r = cond_Zopp s R) /\
  (overflow_bound <= R -> r = S754_infinity s).
Proof.
  intros HN HD Hex Henough R r.
  pose proof fmt_lo_pos as Hlo.
  assert (Hq0 : 0 <= N / D) by (apply Z.div_pos; lia).
  pose proof (Z.div_mod N D ltac:(lia)) as Edm.
  pose proof (Z.mod_pos_bound N D HD) as Bdm.
  set (d := Zdigits2 (N / D)) in *.
  pose proof (Zdigits2_nonneg (N / D)) as Hd0. fold d in Hd0.
  set (e1 := fexp prec emax (d + ex)) in *.
  assert (He1 : e1 = Z.max (d + ex - 53) (-1074)) by reflexivity.
  set (n1 := e1 - ex).
  assert (Hn1 : 0 <= n1) by (unfold n1; lia).
  set (D1 := D * 2 ^ n1).
  assert (Hp1 : 0 < 2 ^ n1) by (apply Z.pow_pos_nonneg; lia).
  assert (HD1 : 0 < D1) by (unfold D1; nia).
  set (m1 := round_half_even N D1).
  (* the result of the algorithm *)
  assert (Hr : r = round_finish s m1 e1).
  { unfold r. rewrite binary_round_aux_spec by assumption. cbv zeta.
    fold d. fold e1. fold n1. rewrite Z.max_r by lia.
    fold D1. fold m1. f_equal. unfold n1. lia. }
  (* the rounded mantissa has at most 53 bits, or is 2^53 *)
  assert (Hm1 : 0 <= m1 <= 2 ^ 53).
  { split; [apply round_half_even_nonneg; assumption|].
    unfold m1. rewrite <- (round_half_even_exact (2 ^ 53) D1 HD1).
    apply round_half_even_mono; [exact HD1|].
    assert (Hlt : N / D < 2 ^ (53 + n1)).
    { destruct (Z.eq_dec (N / D) 0) as [E0|Hne0].
      - rewrite E0. apply Z.pow_pos_nonneg; lia.
      - pose proof (Zdigits2_bounds (N / D) ltac:(lia)) as [_ Hhi]. fold d in Hhi.
        assert (2 ^ d <= 2 ^ (53 + n1)) by (apply Z.pow_le_mono_r; lia). lia. }
    rewrite Z.pow_add_r in Hlt by lia. unfold D1. nia. }
  (* a normal result has a full mantissa *)
  assert (Hm1lo : -1074 < e1 -> 2 ^ 52 <= m1).
  { intros Hnorm. assert (Hn1' : n1 = d - 53) by (unfold n1; lia).
    assert (Hdpos : 0 < N / D).
    { destruct (Z.eq_dec (N / D) 0) as [E0|]; [|lia].
      unfold d in Hn1'. rewrite E0 in Hn1'. simpl in Hn1'. lia. }
    pose proof (Zdigits2_bounds (N / D) Hdpos) as [Hlo' _]. fold d in Hlo'.
    replace (d - 1) with (52 + n1) in Hlo' by lia.
    rewrite Z.pow_add_r in Hlo' by lia.
    unfold m1. rewrite <- (round_half_even_exact (2 ^ 52) D1 HD1).
    apply round_half_even_mono; [exact HD1|]. unfold D1. nia. }
  (* the scaled result *)
  assert (HR : R = m1 * 2 ^ (e1 + scale_exp)).
  { unfold R, round_fmt.
    set (V := N * 2 ^ (ex + scale_exp)).
    assert (Hpe : 0 < 2 ^ (ex + scale_exp)) by (apply Z.pow_pos_nonneg; lia).
    assert (Hfe : Z.max (Zdigits2 (V / D) - 53) fmt_lo = e1 + scale_exp).
    { destruct (Z.eq_dec (N / D) 0) as [E0|Hne0].
      - (* below one unit: the subnormal exponent *)
        assert (Hd : d = 0) by (unfold d; rewrite E0; reflexivity).
        assert (He : e1 = -1074) by lia.
        assert (HV : 0 <= V / D < 2 ^ (ex + scale_exp)).
        { split; [apply Z.div_pos; unfold V; nia|].
          apply Z.div_lt_upper_bound; [lia|]. unfold V. nia. }
        pose proof (Zdigits2_lt_pow (V / D) (ex + scale_exp) Hex HV).
        unfold fmt_lo. lia.
      - pose proof (Zdigits2_bounds (N / D) ltac:(lia)) as [Hlo' Hhi']. fold d in Hlo', Hhi'.
        assert (HVd : Zdigits2 (V / D) = d + (ex + scale_exp)).
        { assert (0 < d).
          { destruct (Z.eq_dec d 0) as [Ed|]; [|lia].
            rewrite Ed in Hhi'. change (2 ^ 0) with 1 in Hhi'. lia. }
          assert (HNlo : D * 2 ^ (d - 1) <= N) by nia.
          assert (HNhi : N < D * 2 ^ d) by nia.
          assert (HVlo : 2 ^ (d - 1) * 2 ^ (ex + scale_exp) <= V / D).
          { apply Z.div_le_lower_bound; [lia|]. unfold V.
            rewrite Z.mul_assoc. apply Z.mul_le_mono_nonneg_r; lia. }
          assert (HVhi : V / D < 2 ^ d * 2 ^ (ex + scale_exp)).
          { apply Z.div_lt_upper_bound; [lia|]. unfold V.
            rewrite Z.mul_assoc. apply Z.mul_lt_mono_pos_r; lia. }
          apply Zdigits2_unique.
          - replace (d + (ex + scale_exp) - 1) with ((d - 1) + (ex + scale_exp)) by lia.
            rewrite (Z.pow_add_r 2 (d - 1) (ex + scale_exp)),
              (Z.pow_add_r 2 d (ex + scale_exp)) by lia. lia.
          - assert (0 < 2 ^ (d - 1)) by (apply Z.pow_pos_nonneg; lia). nia. }
        rewrite HVd. unfold fmt_lo. lia. }
    rewrite Hfe. f_equal.
    replace (e1 + scale_exp) with (n1 + (ex + scale_exp)) by (unfold n1; lia).
    rewrite Z.pow_add_r by lia. unfold V.
    replace (D * (2 ^ n1 * 2 ^ (ex + scale_exp))) with (D1 * 2 ^ (ex + scale_exp))
      by (unfold D1; ring).
    apply round_half_even_scale; assumption. }
  assert (HK : 0 <= e1 + scale_exp) by (unfold scale_exp; lia).
  assert (Hpow : forall a b, a <= b -> 2 ^ a <= 2 ^ b).
  { intros a b Hab. apply Z.pow_le_mono_r; lia. }
  assert (Hpk : 0 < 2 ^ (e1 + scale_exp)) by (apply Z.pow_pos_nonneg; lia).
  rewrite Hr, (round_finish_cases s m1 e1 Hm1 ltac:(lia)).
  unfold overflow_bound.
  destruct (Z.eqb_spec m1 0) as [E0|Hne0].
  { split; [intros _; cbn [finite_ok sign_is scaled]; rewrite HR, E0, Z.mul_0_l;
            destruct s; auto|].
    intros Hov. rewrite HR, E0 in Hov.
    pose proof (Z.pow_pos_nonneg 2 (1024 + scale_exp) ltac:(lia) ltac:(unfold scale_exp; lia)).
    lia. }
  destruct (Z.eqb_spec m1 (2 ^ 53)) as [E53|Hne53].
  { assert (HR' : R = 2 ^ (53 + e1 + scale_exp)).
    { rewrite HR, E53, <- Z.pow_add_r by lia. f_equal. lia. }
    destruct (Z.leb_spec (e1 + 1) 971) as [Hle|Hgt].
    - split.
      + intros _. cbn [finite_ok sign_is scaled]. repeat split; try lia.
        { apply valid_finite. change (Z.pos (Z.to_pos (2 ^ 52))) with (2 ^ 52).
          change (Zdigits2 (2 ^ 52)) with 53. lia. }
        rewrite HR'. f_equal.
        change (Z.pos (Z.to_pos (2 ^ 52))) with (2 ^ 52).
        rewrite <- Z.pow_add_r by lia. f_equal. lia.
      + intros Hov. rewrite HR' in Hov.
        assert (2 ^ (53 + e1 + scale_exp) < 2 ^ (1024 + scale_exp))
          by (apply Z.pow_lt_mono_r; lia).
        lia.
    - split; [|reflexivity].
      intros Hno. rewrite HR' in Hno.
      pose proof (Hpow (1024 + scale_exp) (53 + e1 + scale_exp) ltac:(lia)). lia. }
  destruct (Z.leb_spec e1 971) as [Hle|Hgt].
  - split.
    + intros _. cbn [finite_ok sign_is scaled]. repeat split; try lia.
      { apply valid_finite. rewrite Z2Pos.id by lia.
        destruct (Z.eq_dec e1 (-1074)) as [Ee|Hnorm].
        - assert (Zdigits2 m1 <= 53) by (apply Zdigits2_lt_pow; lia). lia.
        - pose proof (Hm1lo ltac:(lia)).
          rewrite (Zdigits2_unique m1 53); [lia | change (53 - 1) with 52; lia | lia]. }
      rewrite HR. f_equal. rewrite Z2Pos.id by lia. reflexivity.
    + intros Hov. rewrite HR in Hov.
      assert (m1 * 2 ^ (e1 + scale_exp) < 2 ^ 53 * 2 ^ (e1 + scale_exp)) by nia.
      rewrite <- Z.pow_add_r in H by lia.
      pose proof (Hpow (53 + (e1 + scale_exp)) (1024 + scale_exp) ltac:(lia)). lia.
  - split; [|reflexivity].
    intros Hno. rewrite HR in Hno.
    pose proof (Hm1lo ltac:(lia)) as H52.
    assert (2 ^ 52 * 2 ^ (e1 + scale_exp) <= m1 * 2 ^ (e1 + scale_exp)) by nia.
    rewrite <- Z.pow_add_r in H by lia.
    pose proof (Hpow (1024 + scale_exp) (52 + (e1 + scale_exp)) ltac:(lia)). lia.
Qed.

(** ** Products *)

Lemma loc_of_1 (N : Z) : loc_of N 1 = loc_Exact.
Proof. unfold loc_of. rewrite Z.mod_1_r. reflexivity. Qed.

(** [mul c t] for a positive normal [c] with a non-positive exponent: the
    exact product, rounded. *)
Lemma mul_scaled (mc : positive) (ec : Z) (s : bool) (m : positive) (e : Z) :
  Zdigits2 (Z.pos mc) = 53 -> -126 <= ec <= 0 -> -1074 <= e ->
  let c := S754_finite false mc ec in
  let t := S754_finite s m e in
  let R := round_fmt (Z.pos mc * (Z.pos m * 2 ^ (e + scale_exp))) (2 ^ (- ec)) in
  (R < overflow_bound ->
   finite_ok (mul c t) /\ sign_is s (mul c t) /\ valid (mul c t) = true /\
   scaled (mul c t) = cond_Zopp s R) /\
  (overflow_bound <= R -> mul c t = S754_infinity s).
Proof.
  intros Hdc Hec He c t R.
  assert (Hmul : mul c t =
            binary_round_aux prec emax s (Z.pos (mc * m) / 1) (ec + e)
              (loc_of (Z.pos (mc * m)) 1)).
  { rewrite loc_of_1, Z.div_1_r. reflexivity. }
  assert (Hpc : 0 < 2 ^ (- ec)) by (apply Z.pow_pos_nonneg; lia).
  assert (HR : R = round_fmt (Z.pos (mc * m) * 2 ^ (ec + e + scale_exp)) 1).
  { unfold R.
    rewrite <- (round_fmt_scale (Z.pos (mc * m) * 2 ^ (ec + e + scale_exp)) 1 (2 ^ (- ec)))
      by lia.
    f_equal; [|ring].
    rewrite Pos2Z.inj_mul, <- !Z.mul_assoc. f_equal. f_equal.
    rewrite <- Z.pow_add_r by (unfold scale_exp; lia). f_equal. lia. }
  rewrite Hmul, HR.
  apply binary_round_aux_scaled; try lia.
  - unfold scale_exp. lia.
  - rewrite Z.div_1_r, fexp_eq.
    assert (53 <= Zdigits2 (Z.pos (mc * m))).
    { rewrite <- Hdc. apply Zdigits2_le. rewrite Pos2Z.inj_mul. nia. }
    lia.
Qed.

Lemma mul_zero_r (c : float) (s' : bool) :
  sign_is false c -> finite_ok c -> c <> S754_zero false ->
  mul c (S754_zero s') = S754_zero s'.
Proof.
  destruct c as [s|s| |s m e]; simpl; intros Hs Hf Hne; try contradiction;
    subst s; try reflexivity.
Qed.

(** ** Quotients *)

Lemma new_location_loc_of (N D : Z) :
  0 < D -> new_location D (N mod D) = loc_of N D.
Proof.
  intros HD. pose proof (Z.mod_pos_bound N D HD) as B.
  unfold new_location, new_location_even, new_location_odd, loc_of.
  destruct (Z.even D) eqn:Ev.
  - reflexivity.
  - destruct (Z.eqb_spec (N mod D) 0); [reflexivity|].
    f_equal.
    assert (Hodd : 2 * (N mod D) <> D).
    { intros E. rewrite <- E, Z.even_mul in Ev. discriminate. }
    destruct (Z.compare_spec (2 * (N mod D) + 1) D),
             (Z.compare_spec (2 * (N mod D)) D); try reflexivity; lia.
Qed.

Lemma shiftl_cases (m sh : Z) :
  0 <= sh ->
  match sh with
  | Z.pos _ => Z.shiftl m sh
  | 0 => m
  | Z.neg _ => 0
  end = m * 2 ^ sh.
Proof.
  intros Hsh. destruct sh as [|p|p]; try lia.
  rewrite Z.shiftl_mul_pow2 by lia. reflexivity.
Qed.

(** [SFdiv x y] for finite [x] and [y], [y] with a non-positive exponent:
    the exact quotient, rounded. *)
Lemma div_scaled (sx : bool) (mx : positive) (ex : Z)
    (sy : bool) (my : positive) (ey : Z) :
  -1074 <= ex -> ey <= 0 ->
  let x := S754_finite sx mx ex in
  let y := S754_finite sy my ey in
  let s := xorb sx sy in
  let R := round_fmt (Z.pos mx * 2 ^ (ex + scale_exp) * 2 ^ (- ey)) (Z.pos my) in
  let r := SFdiv prec emax x y in
  (R < overflow_bound ->
   finite_ok r /\ sign_is s r /\ valid r = true /\ scaled r = cond_Zopp s R) /\
  (overflow_bound <= R -> r = S754_infinity s).
Proof.
  intros Hex Hey x y s R r.
  set (d1 := Zdigits2 (Z.pos mx)). set (d2 := Zdigits2 (Z.pos my)).
  set (delta := d1 + ex - (d2 + ey)).
  set (e' := Z.min (fexp prec emax delta) (ex - ey)).
  set (sh := ex - ey - e').
  assert (Hsh : 0 <= sh) by (unfold sh, e'; lia).
  set (N := Z.pos mx * 2 ^ sh).
  assert (Hpsh : 0 < 2 ^ sh) by (apply Z.pow_pos_nonneg; lia).
  assert (HN : 0 < N) by (unfold N; nia).
  (* the algorithm divides [N] by the divisor's mantissa *)
  assert (Hr : r = binary_round_aux prec emax s (N / Z.pos my) e' (loc_of N (Z.pos my))).
  { unfold r, x, y, SFdiv, SFdiv_core_binary.
    fold d1 d2. fold delta. fold e'. fold sh.
    assert (Hm' : match sh with
                  | Z.pos _ => Z.shiftl (Z.pos mx) sh
                  | 0 => Z.pos mx
                  | Z.neg _ => 0
                  end = N).
    { unfold N. apply shiftl_cases. exact Hsh. }
    rewrite Hm'.
    unfold Z.div, Z.modulo.
    pose proof (new_location_loc_of N (Z.pos my) ltac:(lia)) as Hloc.
    unfold Z.modulo in Hloc.
    destruct (Z.div_eucl N (Z.pos my)) as [q rr]. rewrite Hloc. reflexivity. }
  assert (Hd1 : 2 ^ (d1 - 1) <= Z.pos mx < 2 ^ d1) by (apply Zdigits2_bounds; lia).
  assert (Hd2 : 2 ^ (d2 - 1) <= Z.pos my < 2 ^ d2) by (apply Zdigits2_bounds; lia).
  assert (Hd1p : 0 < d1) by (unfold d1; simpl; lia).
  assert (Hd2p : 0 < d2) by (unfold d2; simpl; lia).
  assert (HR : R = round_fmt (N * 2 ^ (e' + scale_exp)) (Z.pos my)).
  { unfold R, N. f_equal. rewrite <- !Z.mul_assoc. f_equal.
    rewrite <- !Z.pow_add_r by (unfold scale_exp, e'; rewrite ?fexp_eq; lia).
    f_equal. unfold sh. lia. }
  rewrite Hr, HR.
  apply binary_round_aux_scaled; try lia.
  - unfold e', scale_exp. rewrite fexp_eq. lia.
  - (* the quotient has enough digits *)
    rewrite fexp_eq. unfold e' at 1. rewrite fexp_eq.
    destruct (Z.le_gt_cases (delta - 53) (-1074)) as [Hsub|Hnorm]; [lia|].
    assert (He' : e' <= delta - 53) by (unfold e'; rewrite fexp_eq; lia).
    set (j := d1 - 1 + sh - d2).
    assert (Hj : 52 <= j) by (unfold j, sh, delta in *; lia).
    assert (Hq : 2 ^ j <= N / Z.pos my).
    { apply Z.div_le_lower_bound; [lia|].
      assert (Hpow : 2 ^ d2 * 2 ^ j = 2 ^ (d1 - 1) * 2 ^ sh).
      { rewrite <- !Z.pow_add_r by lia. f_equal. unfold j. lia. }
      assert (0 < 2 ^ j) by (apply Z.pow_pos_nonneg; lia).
      unfold N. nia. }
    pose proof (Zdigits2_ge_pow (N / Z.pos my) j ltac:(lia) Hq).
    unfold j, sh, delta in *. lia.
Qed.

(** ** Rounding a float to an integer *)

Lemma scale_pow_pos : 0 < 2 ^ scale_exp.
Proof. apply Z.pow_pos_nonneg; unfold scale_exp; lia. Qed.

Lemma round_int_mono (V1 V2 : Z) : V1 <= V2 -> round_int V1 <= round_int V2.
Proof.
  intros H. pose proof scale_pow_pos as HP. unfold round_int.
  destruct (Z.ltb_spec V1 0), (Z.ltb_spec V2 0); try lia.
  - apply Z.opp_le_mono. rewrite !Z.opp_involutive.
    apply round_half_even_mono; lia.
  - pose proof (round_half_even_nonneg (- V1) _ HP ltac:(lia)).
    pose proof (round_half_even_nonneg V2 _ HP ltac:(lia)). lia.
  - apply round_half_even_mono; lia.
Qed.

Lemma round_int_exact (k : Z) : round_int (k * 2 ^ scale_exp) = k.
Proof.
  pose proof scale_pow_pos as HP. unfold round_int.
  destruct (Z.ltb_spec (k * 2 ^ scale_exp) 0).
  - replace (- (k * 2 ^ scale_exp)) with ((- k) * 2 ^ scale_exp) by ring.
    rewrite round_half_even_exact by lia. lia.
  - apply round_half_even_exact. lia.
Qed.

Lemma py_round_scaled (x : float) :
  finite_ok x -> py_round x = Ok (round_int (scaled x)).
Proof.
  pose proof scale_pow_pos as HP.
  destruct x as [s|s| |s m e]; cbn [finite_ok]; intros Hf; try contradiction.
  - cbn [py_round scaled]. rewrite <- (round_int_exact 0) at 1. reflexivity.
  - cbn [py_round scaled]. f_equal.
    set (A := Z.pos m * 2 ^ (e + scale_exp)).
    assert (HA : 0 < A).
    { unfold A. apply Z.mul_pos_pos; [lia|].
      apply Z.pow_pos_nonneg; unfold scale_exp; lia. }
    assert (Hval : (if 0 <=? e then Z.pos m * 2 ^ e
                    else round_half_even (Z.pos m) (2 ^ (- e)))
                   = round_half_even A (2 ^ scale_exp)).
    { destruct (Z.leb_spec 0 e) as [He|He].
      - unfold A. rewrite Z.pow_add_r by (unfold scale_exp; lia).
        rewrite Z.mul_assoc. rewrite round_half_even_exact by lia. reflexivity.
      - unfold A.
        rewrite <- (round_half_even_scale (Z.pos m) (2 ^ (- e)) (2 ^ (e + scale_exp))).
        + f_equal. rewrite <- Z.pow_add_r by (unfold scale_exp; lia).
          f_equal. lia.
        + apply Z.pow_pos_nonneg; lia.
        + apply Z.pow_pos_nonneg; unfold scale_exp; lia. }
    rewrite Hval. unfold round_int.
    destruct s; cbn [cond_Zopp].
    + destruct (Z.ltb_spec (- A) 0); [|lia]. rewrite Z.opp_involutive. reflexivity.
    + destruct (Z.ltb_spec A 0); [lia|]. reflexivity.
Qed.

(** ** Signed rounding to the format *)

Lemma round_fmt_nonneg (N D : Z) : 0 < D -> 0 <= N -> 0 <= round_fmt N D.
Proof.
  intros HD HN. unfold round_fmt.
  apply Z.mul_nonneg_nonneg.
  - apply round_half_even_nonneg; [|exact HN].
    apply Z.mul_pos_pos; [exact HD|]. apply Z.pow_pos_nonneg; [lia|].
    pose proof fmt_lo_pos. lia.
  - apply Z.pow_nonneg. lia.
Qed.

Lemma round_fmt_signed_mono (N1 N2 D : Z) :
  0 < D -> N1 <= N2 -> round_fmt_signed N1 D <= round_fmt_signed N2 D.
Proof.
  intros HD H. unfold round_fmt_signed.
  destruct (Z.ltb_spec N1 0), (Z.ltb_spec N2 0); try lia.
  - apply Z.opp_le_mono. rewrite !Z.opp_involutive.
    apply round_fmt_mono; lia.
  - pose proof (round_fmt_nonneg (- N1) D HD ltac:(lia)).
    pose proof (round_fmt_nonneg N2 D HD ltac:(lia)). lia.
  - apply round_fmt_mono; lia.
Qed.

Lemma round_fmt_signed_cond (s : bool) (A B D : Z) :
  0 < D -> 0 < A -> 0 < B ->
  cond_Zopp s (round_fmt (B * A) D) = round_fmt_signed (B * cond_Zopp s A) D.
Proof.
  intros HD HA HB. unfold round_fmt_signed. destruct s; cbn [cond_Zopp].
  - destruct (Z.ltb_spec (B * - A) 0); [|nia]. f_equal. f_equal. ring.
  - destruct (Z.ltb_spec (B * A) 0); [nia|]. reflexivity.
Qed.

(** ** The order of floats *)

Lemma valid_digits (s : bool) (m : positive) (e : Z) :
  valid (S754_finite s m e) = true ->
  -1074 <= e <= 971 /\ Z.pos m < 2 ^ 53 /\ (-1074 < e -> 2 ^ 52 <= Z.pos m).
Proof.
  intros Hv. apply valid_finite_inv in Hv. destruct Hv as [Hc He].
  pose proof (Zdigits2_bounds (Z.pos m) ltac:(lia)) as [Hlo Hhi].
  set (d := Zdigits2 (Z.pos m)) in *.
  split; [lia|]. split.
  - assert (2 ^ d <= 2 ^ 53) by (apply Z.pow_le_mono_r; lia). lia.
  - intros Hn. assert (d = 53) by lia. replace (d - 1) with 52 in Hlo by lia. exact Hlo.
Qed.

Lemma valid_finite_ok (x : float) :
  valid x = true ->
  match x with S754_zero _ | S754_finite _ _ _ => finite_ok x | _ => True end.
Proof.
  destruct x as [s|s| |s m e]; cbn [finite_ok]; auto.
  intros Hv. apply valid_digits in Hv. lia.
Qed.

Lemma magnitude_compare (s1 s2 : bool) (m1 m2 : positive) (e1 e2 : Z) :
  valid (S754_finite s1 m1 e1) = true -> valid (S754_finite s2 m2 e2) = true ->
  match e1 ?= e2 with
  | Lt => Lt
  | Gt => Gt
  | Eq => Pos.compare_cont Eq m1 m2
  end = (Z.pos m1 * 2 ^ (e1 + scale_exp) ?= Z.pos m2 * 2 ^ (e2 + scale_exp)).
Proof.
  intros H1 H2.
  apply valid_digits in H1. destruct H1 as (He1 & Hm1 & Hn1).
  apply valid_digits in H2. destruct H2 as (He2 & Hm2 & Hn2).
  assert (Hlt : forall (ma mb : positive) ea eb,
             -1074 <= ea -> ea < eb -> Z.pos ma < 2 ^ 53 -> 2 ^ 52 <= Z.pos mb ->
             Z.pos ma * 2 ^ (ea + scale_exp) < Z.pos mb * 2 ^ (eb + scale_exp)).
  { intros ma mb ea eb Hea Hab Hma Hmb.
    assert (Hpa : 0 < 2 ^ (ea + scale_exp))
      by (apply Z.pow_pos_nonneg; unfold scale_exp; lia).
    assert (Hpb : 2 ^ (ea + scale_exp + 1) <= 2 ^ (eb + scale_exp))
      by (apply Z.pow_le_mono_r; unfold scale_exp; lia).
    rewrite Z.pow_add_r in Hpb by (unfold scale_exp; lia).
    change (2 ^ 1) with 2 in Hpb.
    change (2 ^ 53) with (2 * 2 ^ 52) in Hma.
    assert (0 < 2 ^ 52) by reflexivity. nia. }
  symmetry.
  destruct (Z.compare_spec e1 e2) as [->|Hl|Hg].
  - change (Pos.compare_cont Eq m1 m2) with (Z.pos m1 ?= Z.pos m2).
    symmetry. apply Zmult_compare_compat_r.
    apply Z.lt_gt. apply Z.pow_pos_nonneg; unfold scale_exp; lia.
  - apply Z.compare_lt_iff. apply Hlt; lia.
  - apply Z.compare_gt_iff. apply Hlt; lia.
Qed.

Lemma scaled_finite_sign (s : bool) (m : positive) (e : Z) :
  -1074 <= e ->
  if s then scaled (S754_finite s m e) < 0 else 0 < scaled (S754_finite s m e).
Proof.
  intros He. cbn [scaled].
  assert (0 < Z.pos m * 2 ^ (e + scale_exp)).
  { apply Z.mul_pos_pos; [lia|]. apply Z.pow_pos_nonneg; unfold scale_exp; lia. }
  destruct s; cbn [cond_Zopp]; lia.
Qed.

Lemma SFcompare_scaled (x y : float) :
  valid x = true -> valid y = true -> finite_ok x -> finite_ok y ->
  SFcompare x y = Some (scaled x ?= scaled y).
Proof.
  intros Hvx Hvy Hfx Hfy.
  destruct x as [sx|sx| |sx mx ex]; cbn [finite_ok] in Hfx; try contradiction;
  destruct y as [sy|sy| |sy my ey]; cbn [finite_ok] in Hfy; try contradiction.
  - reflexivity.
  - pose proof (scaled_finite_sign sy my ey ltac:(lia)) as Hs.
    cbn [SFcompare]. f_equal. cbn [scaled] in *. symmetry.
    destruct sy; [apply Z.compare_gt_iff | apply Z.compare_lt_iff]; lia.
  - pose proof (scaled_finite_sign sx mx ex ltac:(lia)) as Hs.
    cbn [SFcompare]. f_equal. cbn [scaled] in *. symmetry.
    destruct sx; [apply Z.compare_lt_iff | apply Z.compare_gt_iff]; lia.
  - pose proof (scaled_finite_sign sx mx ex ltac:(lia)) as Hsx.
    pose proof (scaled_finite_sign sy my ey ltac:(lia)) as Hsy.
    pose proof (magnitude_compare sx sy mx my ex ey Hvx Hvy) as Hmag.
    cbn [SFcompare]. f_equal. cbn [scaled] in *.
    destruct sx, sy; cbn [cond_Zopp] in *.
    + rewrite Z.compare_opp, (Z.compare_antisym (Z.pos mx * 2 ^ (ex + scale_exp))), <- Hmag.
      destruct (ex ?= ey); reflexivity.
    + symmetry. apply Z.compare_lt_iff. lia.
    + symmetry. apply Z.compare_gt_iff. lia.
    + exact Hmag.
Qed.

Lemma round_fmt_0 (D : Z) : 0 < D -> round_fmt 0 D = 0.
Proof.
  intros HD. pose proof fmt_lo_pos.
  pose proof (round_fmt_exact 0 fmt_lo D HD ltac:(split; [lia | reflexivity]) ltac:(lia)) as E.
  rewrite !Z.mul_0_l in E. exact E.
Qed.

Lemma round_fmt_signed_scale (N D c : Z) :
  0 < D -> 0 < c -> round_fmt_signed (N * c) (D * c) = round_fmt_signed N D.
Proof.
  intros HD Hc. unfold round_fmt_signed.
  destruct (Z.ltb_spec (N * c) 0), (Z.ltb_spec N 0); try nia.
  - replace (- (N * c)) with (- N * c) by ring.
    rewrite round_fmt_scale by assumption. reflexivity.
  - apply round_fmt_scale; assumption.
Qed.

Lemma round_fmt_signed_exact (X D : Z) (m j : Z) :
  0 < D -> Z.abs X = m * 2 ^ j -> 0 <= m < 2 ^ 53 -> fmt_lo <= j ->
  round_fmt_signed (X * D) D = X.
Proof.
  intros HD HX Hm Hj. unfold round_fmt_signed.
  destruct (Z.ltb_spec (X * D) 0).
  - replace (- (X * D)) with (m * 2 ^ j * D) by (rewrite <- HX; nia).
    rewrite round_fmt_exact by assumption. lia.
  - replace (X * D) with (m * 2 ^ j * D) by (rewrite <- HX; nia).
    rewrite round_fmt_exact by assumption. nia.
Qed.

(** A valid finite float is representable: the scaled value is a mantissa
    of at most 53 bits times a power of two of the format. *)
Lemma scaled_representable (x : float) :
  valid x = true -> finite_ok x ->
  exists m j, Z.abs (scaled x) = m * 2 ^ j /\ 0 <= m < 2 ^ 53 /\
              fmt_lo <= j <= 971 + scale_exp.
Proof.
  intros Hv Hf. destruct x as [s|s| |s m e]; cbn [finite_ok] in Hf; try contradiction.
  - exists 0, fmt_lo. cbn [scaled]. unfold fmt_lo, scale_exp. split; [reflexivity|].
    split; [split; [lia | reflexivity] | lia].
  - apply valid_digits in Hv. destruct Hv as (He & Hm & _).
    exists (Z.pos m), (e + scale_exp). cbn [scaled].
    assert (0 < Z.pos m * 2 ^ (e + scale_exp)).
    { apply Z.mul_pos_pos; [lia|]. apply Z.pow_pos_nonneg; unfold scale_exp; lia. }
    split; [destruct s; cbn [cond_Zopp]; lia|].
    unfold fmt_lo, scale_exp. lia.
Qed.

Lemma scaled_lt_overflow (x : float) :
  valid x = true -> finite_ok x -> Z.abs (scaled x) < overflow_bound.
Proof.
  intros Hv Hf. destruct (scaled_representable x Hv Hf) as (m & j & -> & Hm & Hj).
  unfold overflow_bound.
  assert (0 < 2 ^ j) by (apply Z.pow_pos_nonneg; pose proof fmt_lo_pos; lia).
  assert (2 ^ 53 * 2 ^ j <= 2 ^ (1024 + scale_exp)).
  { rewrite <- Z.pow_add_r by (pose proof fmt_lo_pos; lia).
    apply Z.pow_le_mono_r; lia. }
  nia.
Qed.

(** ** Conversion of integers *)

Lemma Pos_iter_xO (p d : positive) :
  Z.pos (Pos.iter xO p d) = Z.pos p * 2 ^ Z.pos d.
Proof.
  induction d as [|d IH] using Pos.peano_ind.
  - cbn [Pos.iter]. rewrite Pos2Z.inj_xO. change (2 ^ 1) with 2. ring.
  - rewrite Pos.iter_succ, Pos2Z.inj_xO, IH, Pos2Z.inj_succ, Z.pow_succ_r by lia. ring.
Qed.

Lemma of_int_small (z : Z) :
  0 < z < 2 ^ 53 ->
  exists (m : positive) (e : Z),
    of_int z = Ok (S754_finite false m e) /\ lit z = S754_finite false m e /\
    Zdigits2 (Z.pos m) = 53 /\ -52 <= e <= 0 /\ Z.pos m = z * 2 ^ (- e).
Proof.
  intros [Hz Hz53]. destruct z as [|p|p]; try lia.
  set (d := Zdigits2 (Z.pos p)).
  pose proof (Zdigits2_bounds (Z.pos p) ltac:(lia)) as [Hlo Hhi]. fold d in Hlo, Hhi.
  assert (Hd : 1 <= d <= 53).
  { split; [unfold d; simpl; lia|].
    apply Zdigits2_lt_pow; lia. }
  set (mz := Z.pos p * 2 ^ (53 - d)).
  assert (Hp : 0 < 2 ^ (53 - d)) by (apply Z.pow_pos_nonneg; lia).
  assert (Hmz : 2 ^ 52 <= mz < 2 ^ 53).
  { assert (E52 : 2 ^ 52 = 2 ^ (d - 1) * 2 ^ (53 - d))
      by (rewrite <- Z.pow_add_r by lia; f_equal; lia).
    assert (E53 : 2 ^ 53 = 2 ^ d * 2 ^ (53 - d))
      by (rewrite <- Z.pow_add_r by lia; f_equal; lia).
    rewrite E52, E53. unfold mz. nia. }
  assert (Hdz : Zdigits2 mz = 53).
  { apply Zdigits2_unique; [change (53 - 1) with 52; exact Hmz | lia]. }
  assert (Hnorm : binary_normalize prec emax (Z.pos p) 0 false
                  = S754_finite false (Z.to_pos mz) (d - 53)).
  { unfold binary_normalize, binary_round.
    assert (Hsh : shl_align p 0 (fexp prec emax (Z.pos (digits2_pos p) + 0))
                  = (Z.to_pos mz, d - 53)).
    { unfold shl_align. rewrite fexp_eq.
      change (Z.pos (digits2_pos p)) with d.
      replace (Z.max (d + 0 - 53) (-1074)) with (d - 53) by lia.
      rewrite Z.sub_0_r.
      destruct (d - 53) as [|q|q] eqn:E; try lia.
      - unfold mz. replace (53 - d) with 0 by lia.
        change (2 ^ 0) with 1. rewrite Z.mul_1_r. reflexivity.
      - f_equal. apply Pos2Z.inj. rewrite Z2Pos.id by lia.
        rewrite Pos_iter_xO. unfold mz. do 2 f_equal. lia. }
    rewrite Hsh.
    pose proof (binary_round_aux_spec false mz 1 (d - 53) ltac:(lia) ltac:(lia)) as Hspec.
    rewrite Z.div_1_r, loc_of_1 in Hspec. cbv zeta in Hspec.
    rewrite Hdz, fexp_eq in Hspec.
    replace (Z.max 0 (Z.max (53 + (d - 53) - 53) (-1074) - (d - 53))) with 0 in Hspec by lia.
    change (2 ^ 0) with 1 in Hspec. rewrite Z.mul_1_l, Z.add_0_r in Hspec.
    replace (round_half_even mz 1) with mz in Hspec
      by (rewrite <- (Z.mul_1_r mz) at 2; rewrite round_half_even_exact; lia).
    rewrite round_finish_cases in Hspec by lia.
    destruct (Z.eqb_spec mz 0); [lia|].
    destruct (Z.eqb_spec mz (2 ^ 53)); [lia|].
    destruct (Z.leb_spec (d - 53) 971); [|lia].
    rewrite Z2Pos.id by lia. exact Hspec. }
  exists (Z.to_pos mz), (d - 53).
  unfold of_int, lit. rewrite Hnorm. rewrite Z2Pos.id by lia.
  repeat split; try lia; try assumption.
  unfold mz. do 2 f_equal. lia.
Qed.

(** ** The whiteness threshold *)

Lemma lit_255 : lit 255 = S754_finite false 8972014882652160 (-45).
Proof. reflexivity. Qed.

Lemma lit_5 : lit 5 = S754_finite false 5629499534213120 (-50).
Proof. reflexivity. Qed.

Lemma lit_1 : one = S754_finite false 4503599627370496 (-52).
Proof. reflexivity. Qed.

Lemma scaled_one : scaled one = 2 ^ scale_exp.
Proof.
  rewrite lit_1. cbn [scaled cond_Zopp].
  change 4503599627370496 with (2 ^ 52).
  rewrite <- Z.pow_add_r by (unfold scale_exp; lia). f_equal.
Qed.

Lemma mul_comm (x y : float) : mul x y = mul y x.
Proof.
  unfold mul. destruct x as [sx|sx| |sx mx ex], y as [sy|sy| |sy my ey];
    unfold SFmul; rewrite ?(xorb_comm sx sy); try reflexivity.
  rewrite (Pos.mul_comm mx my), (Z.add_comm ex ey). reflexivity.
Qed.

(** The product of a small positive integer constant and a finite float. *)
Lemma mul_const_scaled (k : Z) (mc : positive) (ec : Z) (t : float) :
  lit k = S754_finite false mc ec ->
  Zdigits2 (Z.pos mc) = 53 -> -126 <= ec <= 0 -> Z.pos mc = k * 2 ^ (- ec) -> 0 < k ->
  valid t = true -> finite_ok t ->
  let W := round_fmt_signed (k * scaled t) 1 in
  (Z.abs W < overflow_bound ->
   finite_ok (mul (lit k) t) /\ valid (mul (lit k) t) = true /\
   scaled (mul (lit k) t) = W) /\
  (overflow_bound <= Z.abs W -> exists s, mul (lit k) t = S754_infinity s).
Proof.
  intros Hlit Hd Hec Hmc Hk Hv Hf W.
  assert (Hpc : 0 < 2 ^ (- ec)) by (apply Z.pow_pos_nonneg; lia).
  destruct t as [s|s| |s m e]; cbn [finite_ok] in Hf; try contradiction.
  - assert (HW : W = 0).
    { unfold W. cbn [scaled]. rewrite Z.mul_0_r. unfold round_fmt_signed.
      simpl (0 <? 0). apply round_fmt_0. lia. }
    rewrite HW, Hlit. split.
    + intros _. cbn. auto.
    + intros Hov. unfold overflow_bound in Hov.
      pose proof (Z.pow_pos_nonneg 2 (1024 + scale_exp) ltac:(lia)
                    ltac:(unfold scale_exp; lia)). simpl Z.abs in Hov. lia.
  - set (A := Z.pos m * 2 ^ (e + scale_exp)).
    assert (HA : 0 < A).
    { unfold A. apply Z.mul_pos_pos; [lia|].
      apply Z.pow_pos_nonneg; unfold scale_exp; lia. }
    pose proof (mul_scaled mc ec s m e Hd Hec ltac:(lia)) as Hmul.
    cbv zeta in Hmul. fold A in Hmul.
    assert (HR : round_fmt (Z.pos mc * A) (2 ^ (- ec)) = round_fmt (k * A) 1).
    { rewrite Hmc.
      replace (k * 2 ^ (- ec) * A) with (k * A * 2 ^ (- ec)) by ring.
      rewrite <- (Z.mul_1_l (2 ^ (- ec))) at 2.
      apply round_fmt_scale; lia. }
    rewrite HR in Hmul.
    assert (HW : W = cond_Zopp s (round_fmt (k * A) 1)).
    { unfold W. cbn [scaled]. fold A. symmetry.
      apply round_fmt_signed_cond; lia. }
    assert (HR0 : 0 <= round_fmt (k * A) 1) by (apply round_fmt_nonneg; nia).
    assert (Habs : Z.abs W = round_fmt (k * A) 1).
    { rewrite HW. destruct s; cbn [cond_Zopp]; lia. }
    rewrite Habs, Hlit. destruct Hmul as [Hfin Hinf]. split.
    + intros Hlt. destruct (Hfin Hlt) as (H1 & _ & H3 & H4).
      rewrite HW. auto.
    + intros Hov. exists s. apply Hinf. exact Hov.
Qed.

Lemma threshold_of_scaled (t : float) :
  valid t = true -> finite_ok t ->
  let W := round_fmt_signed (255 * scaled t) 1 in
  (Z.abs W < overflow_bound -> threshold_of t = Ok (round_int W)) /\
  (overflow_bound <= Z.abs W -> threshold_of t = Raise OverflowError).
Proof.
  intros Hv Hf W.
  pose proof (mul_const_scaled 255 _ _ t lit_255 eq_refl ltac:(lia) eq_refl
                ltac:(lia) Hv Hf) as [Hfin Hinf].
  fold W in Hfin, Hinf. unfold threshold_of. split.
  - intros Hlt. destruct (Hfin Hlt) as (H1 & _ & H3).
    rewrite (py_round_scaled _ H1), H3. reflexivity.
  - intros Hov. destruct (Hinf Hov) as [s ->]. reflexivity.
Qed.

Lemma threshold_of_mono (t1 t2 : float) (th1 : Z) :
  valid t1 = true -> valid t2 = true -> finite_ok t1 -> finite_ok t2 ->
  scaled t1 <= scaled t2 -> scaled t2 <= 2 ^ scale_exp ->
  threshold_of t1 = Ok th1 ->
  exists th2, threshold_of t2 = Ok th2 /\ th1 <= th2 /\ th2 <= 255.
Proof.
  intros Hv1 Hv2 Hf1 Hf2 H12 H21 Hth1.
  destruct (threshold_of_scaled t1 Hv1 Hf1) as [Hok1 Hov1].
  destruct (threshold_of_scaled t2 Hv2 Hf2) as [Hok2 _].
  cbv zeta in *.
  set (W1 := round_fmt_signed (255 * scaled t1) 1) in *.
  set (W2 := round_fmt_signed (255 * scaled t2) 1) in *.
  assert (HW : W1 <= W2) by (apply round_fmt_signed_mono; lia).
  assert (HW1 : Z.abs W1 < overflow_bound).
  { destruct (Z.lt_ge_cases (Z.abs W1) overflow_bound) as [|Hge]; [assumption|].
    rewrite (Hov1 Hge) in Hth1. discriminate. }
  assert (Htop : round_fmt_signed (255 * 2 ^ scale_exp * 1) 1 = 255 * 2 ^ scale_exp).
  { apply (round_fmt_signed_exact _ 1 255 scale_exp).
    - lia.
    - pose proof scale_pow_pos. lia.
    - split; [lia | reflexivity].
    - unfold fmt_lo. lia. }
  rewrite Z.mul_1_r in Htop.
  assert (HW2 : W2 <= 255 * 2 ^ scale_exp).
  { rewrite <- Htop. apply round_fmt_signed_mono; lia. }
  assert (Hbig : 255 * 2 ^ scale_exp < overflow_bound).
  { unfold overflow_bound. rewrite (Z.pow_add_r 2 1024 scale_exp) by (unfold scale_exp; lia).
    pose proof scale_pow_pos.
    assert (255 < 2 ^ 1024) by reflexivity. nia. }
  assert (HW2' : Z.abs W2 < overflow_bound) by lia.
  exists (round_int W2). rewrite (Hok2 HW2'). rewrite (Hok1 HW1) in Hth1.
  injection Hth1 as <-. split; [reflexivity|]. split.
  - apply round_int_mono. exact HW.
  - rewrite <- (round_int_exact 255). apply round_int_mono. exact HW2.
Qed.

Lemma ltb_scaled (a b : float) :
  valid a = true -> valid b = true -> finite_ok a -> finite_ok b ->
  ltb a b = (scaled a <? scaled b).
Proof.
  intros Ha Hb Hfa Hfb. unfold ltb, SFltb, Z.ltb.
  rewrite (SFcompare_scaled a b Ha Hb Hfa Hfb).
  destruct (scaled a ?= scaled b); reflexivity.
Qed.

Lemma leb_scaled (a b : float) :
  valid a = true -> valid b = true -> finite_ok a -> finite_ok b ->
  leb a b = (scaled a <=? scaled b).
Proof.
  intros Ha Hb Hfa Hfb. unfold leb, SFleb, Z.leb.
  rewrite (SFcompare_scaled a b Ha Hb Hfa Hfb).
  destruct (scaled a ?= scaled b); reflexivity.
Qed.

Lemma py_min_scaled (a b : float) :
  valid a = true -> valid b = true -> finite_ok a -> finite_ok b ->
  valid (py_min a b) = true /\ finite_ok (py_min a b) /\
  scaled (py_min a b) = Z.min (scaled a) (scaled b).
Proof.
  intros Ha Hb Hfa Hfb. unfold py_min.
  rewrite (ltb_scaled b a Hb Ha Hfb Hfa).
  destruct (Z.ltb_spec (scaled b) (scaled a)); repeat split; auto; lia.
Qed.

Lemma py_max_scaled (a b : float) :
  valid a = true -> valid b = true -> finite_ok a -> finite_ok b ->
  valid (py_max a b) = true /\ finite_ok (py_max a b) /\
  scaled (py_max a b) = Z.max (scaled a) (scaled b).
Proof.
  intros Ha Hb Hfa Hfb. unfold py_max.
  rewrite (ltb_scaled a b Ha Hb Hfa Hfb).
  destruct (Z.ltb_spec (scaled a) (scaled b)); repeat split; auto; lia.
Qed.

Lemma valid_one : valid one = true /\ finite_ok one.
Proof. split; [reflexivity | rewrite lit_1; cbn; lia]. Qed.

Lemma valid_zero : valid zero = true /\ finite_ok zero.
Proof. split; [reflexivity | exact I]. Qed.

(** [max(0.0, min(1.0, x))] *)
Lemma clamp_scaled (x : float) :
  valid x = true -> finite_ok x ->
  let c := py_max zero (py_min one x) in
  valid c = true /\ finite_ok c /\
  scaled c = Z.max 0 (Z.min (2 ^ scale_exp) (scaled x)).
Proof.
  intros Hv Hf c. destruct valid_one as [Hv1 Hf1]. destruct valid_zero as [Hv0 Hf0].
  destruct (py_min_scaled one x Hv1 Hv Hf1 Hf) as (Hvm & Hfm & Hsm).
  destruct (py_max_scaled zero _ Hv0 Hvm Hf0 Hfm) as (Hvc & Hfc & Hsc).
  unfold c. rewrite Hsc, Hsm, scaled_one. auto.
Qed.

(** A legacy tolerance: a finite float above [1.0], divided by [255.0]. *)
Lemma div_255_scaled (s : bool) (m : positive) (e : Z) :
  valid (S754_finite s m e) = true ->
  let t := S754_finite s m e in
  let q := SFdiv prec emax t (lit 255) in
  valid q = true /\ finite_ok q /\
  scaled q = cond_Zopp s (round_fmt (Z.abs (scaled t)) 255).
Proof.
  intros Hv t q.
  pose proof (valid_digits s m e Hv) as (He & Hm & _).
  set (A := Z.pos m * 2 ^ (e + scale_exp)).
  assert (HA : 0 < A).
  { unfold A. apply Z.mul_pos_pos; [lia|].
    apply Z.pow_pos_nonneg; unfold scale_exp; lia. }
  assert (Habs : Z.abs (scaled t) = A).
  { unfold t. cbn [scaled]. fold A. destruct s; cbn [cond_Zopp]; lia. }
  pose proof (div_scaled s m e false 8972014882652160 (-45) ltac:(lia) ltac:(lia))
    as [Hfin _].
  cbv zeta in Hfin. fold A in Hfin. rewrite xorb_false_r in Hfin.
  assert (HR : round_fmt (A * 2 ^ (- -45)) 8972014882652160 = round_fmt A 255).
  { change 8972014882652160 with (255 * 2 ^ (- -45)).
    apply round_fmt_scale; [lia | reflexivity]. }
  rewrite HR in Hfin.
  assert (Hle : round_fmt A 255 <= A).
  { destruct (scaled_representable t Hv ltac:(cbn; lia)) as (m' & j & Hrep & Hm' & Hj).
    rewrite Habs in Hrep.
    transitivity (round_fmt (A * 255) 255); [apply round_fmt_mono; lia|].
    rewrite Hrep, round_fmt_exact; lia. }
  pose proof (scaled_lt_overflow t Hv ltac:(cbn; lia)) as Hov.
  rewrite Habs in Hov.
  destruct (Hfin ltac:(lia)) as (H1 & _ & H3 & H4).
  rewrite Habs. unfold q. rewrite lit_255. repeat split; assumption.
Qed.

(** ** The resampling size *)

Lemma round_fmt_bounds (N D lo hi : Z) (ml jl mh jh : Z) :
  0 < D -> 0 <= N ->
  lo = ml * 2 ^ jl -> 0 <= ml < 2 ^ 53 -> fmt_lo <= jl ->
  hi = mh * 2 ^ jh -> 0 <= mh < 2 ^ 53 -> fmt_lo <= jh ->
  lo * D <= N <= hi * D ->
  lo <= round_fmt N D <= hi.
Proof.
  intros HD HN Hlo Hml Hjl Hhi Hmh Hjh [H1 H2].
  pose proof fmt_lo_pos.
  assert (0 <= lo).
  { rewrite Hlo. apply Z.mul_nonneg_nonneg; [lia | apply Z.pow_nonneg; lia]. }
  split.
  - transitivity (round_fmt (lo * D) D).
    + rewrite Hlo, round_fmt_exact by assumption. lia.
    + apply round_fmt_mono; [exact HD | nia].
  - transitivity (round_fmt (hi * D) D).
    + apply round_fmt_mono; [exact HD | lia].
    + rewrite Hhi, round_fmt_exact by assumption. lia.
Qed.

(** The scale [size / min(w, h)], as a float: within a quarter of a pixel
    once multiplied back by the smaller side. *)
Lemma scale_bracket (mn size : Z) :
  1 <= mn < 2 ^ 31 -> 1 <= size < 2 ^ 31 ->
  let Q := round_fmt (size * 2 ^ scale_exp) mn in
  0 <= Q <= 2 ^ (scale_exp + 32) /\
  (4 * size - 1) * 2 ^ (scale_exp - 2) <= mn * Q <= (4 * size + 1) * 2 ^ (scale_exp - 2).
Proof.
  intros Hmn Hsize Q.
  set (dw := Zdigits2 mn).
  pose proof (Zdigits2_bounds mn ltac:(lia)) as [Hdlo Hdhi]. fold dw in Hdlo, Hdhi.
  assert (Hdw : 1 <= dw <= 31).
  { split.
    - apply (Zdigits2_ge_pow mn 0); [lia | simpl; lia].
    - apply Zdigits2_lt_pow; lia. }
  set (j := scale_exp - dw - 2).
  set (u := 2 ^ j).
  assert (Hj : fmt_lo <= j) by (unfold j, fmt_lo, scale_exp; lia).
  assert (Hj0 : 0 <= j) by (unfold j, scale_exp; lia).
  assert (Hu : 0 < u) by (apply Z.pow_pos_nonneg; lia).
  set (T := size * 2 ^ scale_exp).
  pose proof scale_pow_pos as HP.
  (* the quarter of a unit *)
  set (c := 2 ^ (scale_exp - 2)).
  assert (Hc : 0 < c) by (apply Z.pow_pos_nonneg; unfold scale_exp; lia).
  assert (HcP : 2 ^ scale_exp = 4 * c).
  { unfold c. change 4 with (2 ^ 2). rewrite <- Z.pow_add_r by (unfold scale_exp; lia).
    f_equal; lia. }
  assert (Hcu : c = 2 ^ dw * u).
  { unfold c, u. rewrite <- Z.pow_add_r by lia. f_equal. unfold j. lia. }
  assert (Hcu' : 2 * c = 2 ^ (dw - 1) * (4 * u)).
  { rewrite Hcu.
    replace (2 ^ dw) with (2 * 2 ^ (dw - 1)).
    - ring.
    - rewrite <- Z.pow_succ_r by lia. f_equal. lia. }
  assert (Hmu : mn * u < c) by nia.
  assert (Hmu' : 2 * c <= mn * (4 * u)) by nia.
  (* the float just below the exact quotient *)
  set (b := T / (mn * u)).
  assert (Hmnu : 0 < mn * u) by nia.
  pose proof (Z.div_mod T (mn * u) ltac:(lia)) as Edm. fold b in Edm.
  pose proof (Z.mod_pos_bound T (mn * u) Hmnu) as Bdm.
  assert (HT : 0 < T) by (unfold T; nia).
  assert (Hb0 : 0 <= b) by (apply Z.div_pos; lia).
  assert (Hb : b + 1 <= 2 ^ 34).
  { assert (b * (mn * u) <= T) by lia.
    assert (T = 4 * size * c) by (unfold T; rewrite HcP; ring).
    assert (b * (2 * c) <= 4 * (4 * size * c)) by nia.
    assert (b <= 8 * size) by nia.
    assert (8 * 2 ^ 31 = 2 ^ 34) by reflexivity. lia. }
  assert (H34 : 2 ^ 34 < 2 ^ 53) by reflexivity.
  assert (HQ : b * u <= Q <= (b + 1) * u).
  { unfold Q. fold T.
    apply (round_fmt_bounds T mn (b * u) ((b + 1) * u) b j (b + 1) j);
      first [lia | reflexivity | (split; nia)]. }
  split.
  - split; [nia|].
    transitivity ((b + 1) * u); [lia|].
    transitivity (2 ^ 34 * u); [nia|].
    unfold u. rewrite <- Z.pow_add_r by lia.
    apply Z.pow_le_mono_r; [lia|]. unfold j. lia.
  - assert (ET : T = 4 * size * c) by (unfold T; rewrite HcP; ring).
    split; nia.
Qed.

Lemma round_int_near (size P : Z) :
  (4 * size - 1) * 2 ^ (scale_exp - 2) <= P <= (4 * size + 1) * 2 ^ (scale_exp - 2) ->
  1 <= size -> round_int P = size.
Proof.
  intros [H1 H2] Hs.
  set (c := 2 ^ (scale_exp - 2)) in *.
  assert (Hc : 0 < c) by (apply Z.pow_pos_nonneg; unfold scale_exp; lia).
  assert (HcP : 2 ^ scale_exp = 4 * c).
  { unfold c. change 4 with (2 ^ 2). rewrite <- Z.pow_add_r by (unfold scale_exp; lia).
    f_equal; lia. }
  assert (Hedge : forall k, k = 4 * size - 1 \/ k = 4 * size + 1 ->
                            round_int (k * c) = size).
  { intros k Hk. unfold round_int.
    destruct (Z.ltb_spec (k * c) 0); [nia|].
    rewrite HcP, round_half_even_scale by lia.
    unfold round_half_even.
    destruct (Z.compare_spec (2 * (k mod 4)) 4);
      [destruct (Z.even (k / 4))| |]; Z.div_mod_to_equations; lia. }
  apply Z.le_antisymm.
  - rewrite <- (Hedge (4 * size + 1)) by lia. apply round_int_mono. exact H2.
  - rewrite <- (Hedge (4 * size - 1)) at 1 by lia. apply round_int_mono. exact H1.
Qed.

Lemma pow2_lt_overflow (j : Z) : j < 1024 + scale_exp -> 2 ^ j < overflow_bound.
Proof.
  intros Hj. unfold overflow_bound.
  destruct (Z.lt_ge_cases j 0) as [Hneg|Hpos].
  - rewrite Z.pow_neg_r by lia. apply Z.pow_pos_nonneg; unfold scale_exp; lia.
  - apply Z.pow_lt_mono_r; unfold scale_exp in *; lia.
Qed.

Lemma of_int_scaled (z : Z) :
  0 < z < 2 ^ 53 ->
  exists (m : positive) (e : Z),
    of_int z = Ok (S754_finite false m e) /\ lit z = S754_finite false m e /\
    Zdigits2 (Z.pos m) = 53 /\ -52 <= e <= 0 /\ Z.pos m = z * 2 ^ (- e) /\
    valid (S754_finite false m e) = true /\
    scaled (S754_finite false m e) = z * 2 ^ scale_exp.
Proof.
  intros Hz. destruct (of_int_small z Hz) as (m & e & H1 & H2 & H3 & H4 & H5).
  exists m, e. repeat split; try assumption; try lia.
  - apply valid_finite. rewrite H3. lia.
  - cbn [scaled cond_Zopp]. rewrite H5, <- Z.mul_assoc, <- Z.pow_add_r
      by (unfold scale_exp; lia).
    do 2 f_equal. lia.
Qed.

(** One side of the image times the scale, rounded to an integer. *)
Lemma dim_scaled (x : Z) (scale : float) :
  1 <= x < 2 ^ 31 ->
  valid scale = true -> finite_ok scale ->
  0 <= scaled scale <= 2 ^ (scale_exp + 32) ->
  (do fx <- of_int x; py_round (mul fx scale))
  = Ok (round_int (round_fmt (x * scaled scale) 1)).
Proof.
  intros Hx Hv Hf HQ.
  assert (H3153 : 2 ^ 31 < 2 ^ 53) by reflexivity.
  destruct (of_int_scaled x ltac:(lia)) as (m & e & Hof & Hlit & Hd & He & Hm & _).
  rewrite Hof. cbn [obind]. rewrite <- Hlit.
  pose proof (mul_const_scaled x m e scale Hlit Hd ltac:(lia) Hm ltac:(lia) Hv Hf)
    as [Hfin _].
  cbv zeta in Hfin.
  set (Q := scaled scale) in *.
  assert (HW : round_fmt_signed (x * Q) 1 = round_fmt (x * Q) 1).
  { unfold round_fmt_signed. destruct (Z.ltb_spec (x * Q) 0); [nia | reflexivity]. }
  rewrite HW in Hfin.
  assert (Hb : 0 <= round_fmt (x * Q) 1 <= 2 ^ (scale_exp + 63)).
  { apply (round_fmt_bounds (x * Q) 1 0 (2 ^ (scale_exp + 63))
             0 fmt_lo 1 (scale_exp + 63)).
    - lia.
    - nia.
    - reflexivity.
    - split; [lia | reflexivity].
    - lia.
    - lia.
    - split; [lia | reflexivity].
    - unfold fmt_lo, scale_exp. lia.
    - split; [lia|]. rewrite Z.mul_1_r.
      replace (scale_exp + 63) with (31 + (scale_exp + 32)) by lia.
      rewrite (Z.pow_add_r 2 31) by (unfold scale_exp; lia).
      assert (0 < 2 ^ (scale_exp + 32)) by (apply Z.pow_pos_nonneg; unfold scale_exp; lia).
      nia. }
  pose proof (pow2_lt_overflow (scale_exp + 63) ltac:(lia)) as Hov.
  destruct (Hfin ltac:(lia)) as (Hfr & _ & Hsr).
  rewrite (py_round_scaled _ Hfr), Hsr. reflexivity.
Qed.

Theorem scaled_size_ok (w h size : Z) :
  1 <= w < 2 ^ 31 -> 1 <= h < 2 ^ 31 -> 1 <= size < 2 ^ 31 ->
  let Q := round_fmt (size * 2 ^ scale_exp) (Z.min w h) in
  scaled_size w h size =
  Ok (Z.max 1 (round_int (round_fmt (w * Q) 1)),
      Z.max 1 (round_int (round_fmt (h * Q) 1))).
Proof.
  intros Hw Hh Hs Q.
  assert (H3153 : 2 ^ 31 < 2 ^ 53) by reflexivity.
  set (mn := Z.min w h) in *.
  assert (Hmn : 1 <= mn < 2 ^ 31) by (unfold mn; lia).
  destruct (scale_bracket mn size Hmn Hs) as [HQ _]. fold Q in HQ.
  destruct (of_int_scaled mn ltac:(lia)) as (mm & em & Hofm & _ & Hdm & Hem & Hmm & _).
  destruct (of_int_scaled size ltac:(lia)) as (ms & es & Hofs & _ & Hds & Hes & Hms & _).
  unfold scaled_size. fold mn. rewrite Hofm. cbn [obind]. rewrite Hofs. cbn [obind].
  unfold div. cbn [is_zero obind].
  pose proof (div_scaled false ms es false mm em ltac:(lia) ltac:(lia)) as [Hfin _].
  cbv zeta in Hfin. cbn [xorb] in Hfin.
  assert (Hpm : 0 < 2 ^ (- em)) by (apply Z.pow_pos_nonneg; lia).
  assert (HR : round_fmt (Z.pos ms * 2 ^ (es + scale_exp) * 2 ^ (- em)) (Z.pos mm) = Q).
  { rewrite Hmm. unfold Q.
    replace (Z.pos ms * 2 ^ (es + scale_exp)) with (size * 2 ^ scale_exp).
    - apply round_fmt_scale; lia.
    - rewrite Hms, <- Z.mul_assoc, <- Z.pow_add_r by (unfold scale_exp; lia).
      do 2 f_equal. lia. }
  rewrite HR in Hfin.
  pose proof (pow2_lt_overflow (scale_exp + 32) ltac:(lia)) as Hov.
  destruct (Hfin ltac:(lia)) as (Hfq & _ & Hvq & Hsq).
  cbn [cond_Zopp] in Hsq.
  set (scale := SFdiv prec emax (S754_finite false ms es) (S754_finite false mm em)) in *.
  pose proof (dim_scaled w scale Hw Hvq Hfq ltac:(rewrite Hsq; exact HQ)) as Hdw.
  pose proof (dim_scaled h scale Hh Hvq Hfq ltac:(rewrite Hsq; exact HQ)) as Hdh.
  rewrite Hsq in Hdw, Hdh.
  destruct (of_int w) as [fw|]; [|discriminate]. cbn [obind] in Hdw |- *.
  rewrite Hdw. cbn [obind].
  destruct (of_int h) as [fh|]; [|discriminate]. cbn [obind] in Hdh |- *.
  rewrite Hdh. reflexivity.
Qed.

(** The smaller side becomes exactly [size], the other one at least that. *)
Theorem scaled_size_min (w h size : Z) :
  1 <= w < 2 ^ 31 -> 1 <= h < 2 ^ 31 -> 1 <= size < 2 ^ 31 ->
  exists nw nh, scaled_size w h size = Ok (nw, nh) /\
    size <= nw /\ size <= nh /\
    (w <= h -> nw = size) /\ (h <= w -> nh = size).
Proof.
  intros Hw Hh Hs. rewrite (scaled_size_ok w h size Hw Hh Hs). cbv zeta.
  set (mn := Z.min w h).
  assert (Hmn : 1 <= mn < 2 ^ 31) by (unfold mn; lia).
  destruct (scale_bracket mn size Hmn Hs) as [HQ Hbr].
  set (Q := round_fmt (size * 2 ^ scale_exp) mn) in *.
  set (c := 2 ^ (scale_exp - 2)) in *.
  assert (Hc : 0 < c) by (apply Z.pow_pos_nonneg; unfold scale_exp; lia).
  assert (H3153 : 2 ^ 31 < 2 ^ 53) by reflexivity.
  assert (Hlo : forall x, mn <= x -> (4 * size - 1) * c <= round_fmt (x * Q) 1).
  { intros x Hx.
    transitivity (round_fmt ((4 * size - 1) * c * 1) 1).
    - unfold c. rewrite round_fmt_exact; [lia | lia | | unfold fmt_lo, scale_exp; lia].
      split; [lia|]. lia.
    - apply round_fmt_mono; [lia|]. split; [nia|]. nia. }
  assert (Hmin : round_int (round_fmt (mn * Q) 1) = size).
  { apply round_int_near; [|lia]. fold c. split; [apply Hlo; lia|].
    transitivity (round_fmt ((4 * size + 1) * c * 1) 1).
    - apply round_fmt_mono; [lia|]. split; [nia|]. lia.
    - unfold c. rewrite round_fmt_exact; [lia | lia | | unfold fmt_lo, scale_exp; lia].
      split; [lia|]. lia. }
  assert (Hge : forall x, mn <= x -> size <= round_int (round_fmt (x * Q) 1)).
  { intros x Hx. rewrite <- Hmin. apply round_int_mono.
    apply round_fmt_mono; [lia|]. split; nia. }
  eexists _, _. split; [reflexivity|].
  pose proof (Hge w ltac:(unfold mn; lia)).
  pose proof (Hge h ltac:(unfold mn; lia)).
  repeat split; try lia.
  - intros Hwh. replace w with mn by (unfold mn; lia). lia.
  - intros Hhw. replace h with mn by (unfold mn; lia). lia.
Qed.

(** ** Outcomes *)

Lemma obind_ok {A B : Type} (m : outcome A) (k : A -> outcome B) (b : B) :
  obind m k = Ok b -> exists a, m = Ok a /\ k a = Ok b.
Proof. destruct m as [a|e]; simpl; [eauto | discriminate]. Qed.

Tactic Notation "inv_bind" hyp(H) "as" ident(a) ident(Ha) :=
  apply obind_ok in H; destruct H as (a & Ha & H).

(** ** Images *)

Lemma length_flat_map_const {A B : Type} (g : A -> list B) (l : list A) (n : nat) :
  (forall y, length (g y) = n) -> length (flat_map g l) = (length l * n)%nat.
Proof.
  intros Hg. induction l as [|y l IH]; simpl; [reflexivity|].
  rewrite length_app, Hg, IH. reflexivity.
Qed.

Lemma crop_ok (img out : image pixel) (x0 y0 x1 y1 : Z) :
  crop img x0 y0 x1 y1 = Ok out ->
  x0 <= x1 /\ y0 <= y1 /\ width out = x1 - x0 /\ height out = y1 - y0 /\ image_ok out.
Proof.
  unfold crop. destruct ((x1 <? x0) || (y1 <? y0)) eqn:E; [discriminate|].
  apply orb_false_elim in E. destruct E as [E1 E2].
  apply Z.ltb_ge in E1, E2.
  intros [= <-]. unfold image_ok. cbn [width height getdata].
  repeat split; try lia.
  rewrite (length_flat_map_const _ _ (Z.to_nat (x1 - x0))).
  - rewrite length_seqZ, Nat2Z.inj_mul, !Z2Nat.id by lia. ring.
  - intros y. rewrite length_map, length_seqZ. reflexivity.
Qed.


Lemma putdata_ok {A : Type} (img out : image A) (data : list A) :
  image_ok img -> putdata img data = Ok out ->
  width out = width img /\ height out = height img /\ image_ok out /\
  getdata out = data ++ drop (length data) (getdata img).
Proof.
  intros (Hw & Hh & Hl). unfold putdata.
  destruct (Z.ltb_spec (width img * height img) (Z.of_nat (length data))); [discriminate|].
  intros [= <-]. unfold image_ok. cbn [width height getdata].
  repeat split; try assumption.
  rewrite length_app, length_drop. lia.
Qed.

Lemma putdata_succeeds {A : Type} (img : image A) (data : list A) :
  Z.of_nat (length data) <= width img * height img ->
  exists out, putdata img data = Ok out.
Proof.
  intros H. unfold putdata.
  destruct (Z.ltb_spec (width img * height img) (Z.of_nat (length data))); [lia|].
  eauto.
Qed.

Lemma new_L_ok (w h : Z) : 0 <= w -> 0 <= h -> image_ok (new_L w h).
Proof.
  intros Hw Hh. unfold image_ok, new_L. cbn [width height getdata].
  rewrite length_replicate. repeat split; try assumption.
  rewrite Z2Nat.id by nia. reflexivity.
Qed.

Lemma crop_box_spec (imw imh size : Z) :
  exists x0 y0, crop_box imw imh size = (x0, y0, x0 + size, y0 + size) /\
                0 <= x0 /\ 0 <= y0.
Proof. unfold crop_box. eexists _, _. split; [reflexivity | lia]. Qed.

Section Pipeline.

Variable float_of_str : string -> outcome float.
Variable resize : image pixel -> Z -> Z -> outcome (image pixel).
Variable gaussian_blur : float -> image Z -> image Z.

Lemma resize_and_crop_ok (src img : image pixel) (size : Z) :
  resize_and_crop resize src size = Ok img ->
  0 <= size /\ width img = size /\ height img = size /\ image_ok img.
Proof.
  unfold resize_and_crop. intros H. inv_bind H as x Hx.
  destruct (crop_box_spec (width x) (height x) size) as (x0 & y0 & E & _ & _).
  rewrite E in H. apply crop_ok in H. destruct H as (H1 & H2 & H3 & H4 & H5).
  split; [lia|]. split; [lia|]. split; [lia | exact H5].
Qed.

Lemma build_mask_ok (img : image pixel) (tolerance : pyobj) (mask : image Z) :
  image_ok img -> build_mask float_of_str img tolerance = Ok mask ->
  exists threshold,
    tolerance_threshold float_of_str tolerance = Ok threshold /\
    width mask = width img /\ height mask = height img /\
    getdata mask = map (mask_value threshold) (getdata img).
Proof.
  intros Hok. pose proof Hok as (Hw & Hh & Hl).
  unfold build_mask. intros H. inv_bind H as x Hx. exists x. split; [exact Hx|].
  unfold putdata_L in H.
  apply (putdata_ok _ _ _ (new_L_ok _ _ Hw Hh)) in H.
  destruct H as (H1 & H2 & _ & H4). cbn [new_L width height getdata] in *.
  repeat split; try assumption.
  rewrite H4. rewrite !length_map.
  rewrite drop_ge by (rewrite length_replicate; lia).
  rewrite app_nil_r, <- list_fmap_compose.
  apply list_fmap_ext. intros i [[[r g] b] a] _. cbn.
  destruct ((r >=? x) && (g >=? x) && (b >=? x)); reflexivity.
Qed.

Lemma build_mask_succeeds (img : image pixel) (tolerance : pyobj) (threshold : Z) :
  image_ok img -> tolerance_threshold float_of_str tolerance = Ok threshold ->
  exists mask, build_mask float_of_str img tolerance = Ok mask.
Proof.
  intros (Hw & Hh & Hl) Hth. unfold build_mask. rewrite Hth. cbn [obind].
  unfold putdata_L. apply putdata_succeeds.
  cbn [new_L width height]. rewrite !length_map. lia.
Qed.

(** Every run that produces an image produces a [size] by [size] one. *)
Lemma process_pixels_dims (src out : image pixel) (size : Z)
    (tolerance smoothing : pyobj) :
  process_pixels float_of_str resize gaussian_blur src size tolerance smoothing = Ok out ->
  width out = size /\ height out = size /\ image_ok out.
Proof.
  unfold process_pixels. intros H.
  inv_bind H as img Hx. apply resize_and_crop_ok in Hx. destruct Hx as (Hs & Hw & Hh & Hok).
  inv_bind H as mask Hmask. inv_bind H as img1 Hx1.
  apply (putdata_ok _ _ _ Hok) in Hx1. destruct Hx1 as (Hw1 & Hh1 & Hok1 & _).
  apply (putdata_ok _ _ _ Hok1) in H. destruct H as (Hw2 & Hh2 & Hok2 & _).
  split; [lia|]. split; [lia | exact Hok2].
Qed.

End Pipeline.

(** ** The mask of one pixel *)

Lemma mask_value_zero_iff (threshold r g b a : Z) :
  mask_value threshold (r, g, b, a) = 0 <->
  r >= threshold /\ g >= threshold /\ b >= threshold.
Proof.
  unfold mask_value.
  destruct (Z.geb_spec r threshold), (Z.geb_spec g threshold),
    (Z.geb_spec b threshold); cbn; split; intros Hm; try lia; discriminate.
Qed.

Lemma mask_value_cases (threshold : Z) (p : pixel) :
  mask_value threshold p = 0 \/ mask_value threshold p = 255.
Proof.
  destruct p as [[[r g] b] a]. unfold mask_value.
  destruct ((r >=? threshold) && (g >=? threshold) && (b >=? threshold)); auto.
Qed.


Lemma mask_value_nonpos (th : Z) (p : pixel) :
  th <= 0 -> pixel_ok p -> mask_value th p = 0.
Proof.
  destruct p as [[[r g] b] a]. unfold pixel_ok, channel_ok.
  rewrite mask_value_zero_iff. lia.
Qed.

Lemma threshold_of_one : threshold_of one = Ok 255.
Proof. vm_compute. reflexivity. Qed.

Lemma threshold_of_zero : threshold_of zero = Ok 0.
Proof. reflexivity. Qed.

(** C1: before smoothing, the mask entry of a cropped pixel (R,G,B) is 0
    exactly when all three channels reach [threshold = round(255 * tol)]
    and 255 otherwise; with tol = 1.0 exactly the pixels (255,255,255) are
    transparent, with tol = 0.0 every pixel is. *)
Theorem mask_entry_iff_threshold (float_of_str : string -> outcome float)
    (img : image pixel) (tolerance : pyobj) (_tol : float) (threshold : Z) :
  image_ok img ->
  normalize_tolerance float_of_str tolerance = Ok _tol ->
  threshold_of _tol = Ok threshold ->
  threshold_of _tol = py_round (mul (lit 255) _tol) /\
  (exists mask, build_mask float_of_str img tolerance = Ok mask /\
     getdata mask = map (mask_value threshold) (getdata img)) /\
  (forall r g b a,
     (mask_value threshold (r, g, b, a) = 0 <->
      r >= threshold /\ g >= threshold /\ b >= threshold) /\
     (~ (r >= threshold /\ g >= threshold /\ b >= threshold) ->
      mask_value threshold (r, g, b, a) = 255)) /\
  (threshold_of one = Ok 255 /\
   forall p, pixel_ok p ->
     (mask_value 255 p = 0 <-> exists a, p = (255, 255, 255, a))) /\
  (threshold_of zero = Ok 0 /\ forall p, pixel_ok p -> mask_value 0 p = 0).
Proof.
  intros Hok Hnorm Hth.
  assert (Htt : tolerance_threshold float_of_str tolerance = Ok threshold).
  { unfold tolerance_threshold. rewrite Hnorm. exact Hth. }
  split; [reflexivity|]. split.
  { destruct (build_mask_succeeds float_of_str img tolerance threshold Hok Htt)
      as [mask Hmask].
    exists mask. split; [exact Hmask|].
    destruct (build_mask_ok float_of_str img tolerance mask Hok Hmask)
      as (th & Hth' & _ & _ & Hdata).
    rewrite Htt in Hth'. injection Hth' as <-. exact Hdata. }
  split.
  { intros r g b a. split; [apply mask_value_zero_iff|].
    intros Hn. destruct (mask_value_cases threshold (r, g, b, a)) as [H0|H255];
      [|exact H255].
    apply mask_value_zero_iff in H0. contradiction. }
  split.
  - split; [exact threshold_of_one|].
    intros [[[r g] b] a] (Hr & Hg & Hb & Ha). unfold channel_ok in *.
    rewrite mask_value_zero_iff. split.
    + intros (H1 & H2 & H3). exists a.
      replace r with 255 by lia. replace g with 255 by lia.
      replace b with 255 by lia. reflexivity.
    + intros [a' [= -> -> -> _]]. lia.
  - split; [exact threshold_of_zero|].
    intros p Hp. apply mask_value_nonpos; [lia | exact Hp].
Qed.

Section PipelineClaims.

Variable float_of_str : string -> outcome float.
Variable resize : image pixel -> Z -> Z -> outcome (image pixel).
Variable gaussian_blur : float -> image Z -> image Z.

(** What [resample] returns on images and sizes the imaging library can
    hold: the source itself when it has the computed size already, the
    resampler's answer otherwise. *)
Lemma resample_cases (src : image pixel) (size : Z) :
  1 <= width src < dim_max -> 1 <= height src < dim_max -> 1 <= size < dim_max ->
  exists nw nh,
    scaled_size (width src) (height src) size = Ok (nw, nh) /\
    size <= nw /\ size <= nh /\ Z.min nw nh = size /\
    resample resize src size =
      if bool_decide ((nw, nh) = (width src, height src)) then Ok src
      else resize src nw nh.
Proof.
  intros Hw Hh Hs. unfold resample.
  destruct (scaled_size_min (width src) (height src) size Hw Hh Hs)
    as (nw & nh & -> & H1 & H2 & H3 & H4).
  cbn [obind]. exists nw, nh. split; [reflexivity|].
  split; [exact H1|]. split; [exact H2|]. split; [lia | reflexivity].
Qed.


(** C2: whatever the aspect ratio of the input, the image [process_image]
    produces is exactly [size] by [size]. *)
Theorem output_dimensions_square (src out : image pixel) (size : Z)
    (tolerance smoothing : pyobj) :
  1 <= width src -> 1 <= height src -> 1 <= size ->
  process_pixels float_of_str resize gaussian_blur src size tolerance smoothing = Ok out ->
  width out = size /\ height out = size /\
  Z.of_nat (length (getdata out)) = size * size.
Proof.
  intros _ _ _ H.
  destruct (process_pixels_dims float_of_str resize gaussian_blur _ _ _ _ _ H)
    as (Hw & Hh & (_ & _ & Hl)).
  rewrite Hl, Hw, Hh. auto.
Qed.

(** ** Tolerance normalisation *)

Lemma ltb_leb (a b : float) : ltb a b = true -> leb a b = true.
Proof.
  unfold ltb, leb, SFltb, SFleb.
  destruct (SFcompare a b) as [[]|]; auto.
Qed.

Lemma clamp_range (q : float) :
  leb zero (py_max zero (py_min one q)) = true /\
  leb (py_max zero (py_min one q)) one = true.
Proof.
  unfold py_min. destruct (ltb q one) eqn:Hq1.
  - unfold py_max. destruct (ltb zero q) eqn:Hq0.
    + split; [apply ltb_leb; exact Hq0 | apply ltb_leb; exact Hq1].
    + split; reflexivity.
  - split; reflexivity.
Qed.

Lemma normalize_tolerance_float (t : float) :
  normalize_tolerance float_of_str (PyFloat_ t) =
  if ltb one t then Ok (py_max zero (py_min one (SFdiv prec emax t (lit 255))))
  else Ok t.
Proof. unfold normalize_tolerance. cbn. destruct (ltb one t); reflexivity. Qed.

(** C3: a tolerance that does not parse is 0.0 and raises nothing; a parsed
    value above 1.0 is divided by 255.0 and clamped to [0,1]; 255 becomes
    1.0 (threshold 255) and 128 about 0.502 (threshold 128). *)
Theorem tolerance_normalization :
  (forall v e, to_float float_of_str v = Raise e ->
     normalize_tolerance float_of_str v = Ok zero /\
     tolerance_threshold float_of_str v = Ok 0) /\
  (forall v f, to_float float_of_str v = Ok f -> ltb one f = true ->
     exists q, div f (lit 255) = Ok q /\
       normalize_tolerance float_of_str v = Ok (py_max zero (py_min one q)) /\
       leb zero (py_max zero (py_min one q)) = true /\
       leb (py_max zero (py_min one q)) one = true) /\
  (normalize_tolerance float_of_str (PyInt 255) = Ok one /\
   tolerance_threshold float_of_str (PyInt 255) = Ok 255) /\
  (exists t n d,
     normalize_tolerance float_of_str (PyInt 128) = Ok t /\
     to_frac t = Some (n, d) /\ 501 * d < 1000 * n < 503 * d /\
     tolerance_threshold float_of_str (PyInt 128) = Ok 128).
Proof.
  split; [|split; [|split]].
  - intros v e Hv. unfold tolerance_threshold, normalize_tolerance.
    rewrite Hv. cbn. auto.
  - intros v f Hv Hf. exists (SFdiv prec emax f (lit 255)).
    split; [reflexivity|]. split.
    + unfold normalize_tolerance. rewrite Hv. cbn [try_except]. rewrite Hf.
      reflexivity.
    + apply clamp_range.
  - split; vm_compute; reflexivity.
  - eexists _, _, _. split; [vm_compute; reflexivity|].
    split; [vm_compute; reflexivity|]. split; [lia|].
    vm_compute. reflexivity.
Qed.

End PipelineClaims.

(** ** Monotonicity of the threshold *)



Lemma legacy_normalized (t : float) :
  valid t = true -> ltb one t = true ->
  let r := py_max zero (py_min one (SFdiv prec emax t (lit 255))) in
  valid r = true /\ finite_ok r /\ scaled r = legacy_value t /\
  scaled r <= 2 ^ scale_exp.
Proof.
  intros Hv Hlt r. pose proof scale_pow_pos as HP.
  destruct t as [s|s| |s m e].
  - rewrite lit_1 in Hlt. cbn in Hlt. discriminate.
  - destruct s; [rewrite lit_1 in Hlt; cbn in Hlt; discriminate|].
    assert (Hr : r = one) by (unfold r; rewrite lit_255; vm_compute; reflexivity).
    rewrite Hr. destruct valid_one as [H1 H2].
    cbn [legacy_value]. rewrite scaled_one.
    split; [exact H1|]. split; [exact H2|]. split; [reflexivity | lia].
  - rewrite lit_1 in Hlt. cbn in Hlt. discriminate.
  - destruct s; [rewrite lit_1 in Hlt; cbn in Hlt; discriminate|].
    destruct (div_255_scaled false m e Hv) as (Hvq & Hfq & Hsq).
    cbn [cond_Zopp] in Hsq.
    destruct (clamp_scaled _ Hvq Hfq) as (Hvc & Hfc & Hsc).
    unfold r. cbn [legacy_value]. rewrite Hsc, Hsq.
    split; [exact Hvc|]. split; [exact Hfc|]. split; [reflexivity | lia].
Qed.


Section ThresholdClaims.

Variable float_of_str : string -> outcome float.

Lemma tolerance_threshold_float (t : float) :
  tolerance_threshold float_of_str (PyFloat_ t) =
  if ltb one t
  then threshold_of (py_max zero (py_min one (SFdiv prec emax t (lit 255))))
  else threshold_of t.
Proof.
  unfold tolerance_threshold. rewrite normalize_tolerance_float.
  destruct (ltb one t); reflexivity.
Qed.

(** Whatever is passed as tolerance counts through the float it parses to,
    0.0 when [float] rejects it. *)
Lemma tolerance_threshold_parsed (v : pyobj) :
  tolerance_threshold float_of_str v =
  tolerance_threshold float_of_str (PyFloat_ (float_or_zero float_of_str v)).
Proof. reflexivity. Qed.


(** An int too large for a float is rejected by [float] and counts as 0.0:
    the ints 255 and 10^400 are both above 1, and their thresholds are 255
    and 0. *)
Lemma huge_int_tolerance_counts_as_zero :
  float_or_zero float_of_str (PyInt 255) = lit 255 /\
  float_or_zero float_of_str (PyInt (10 ^ 400)) = zero /\
  tolerance_threshold float_of_str (PyInt 255) = Ok 255 /\
  tolerance_threshold float_of_str (PyInt (10 ^ 400)) = Ok 0.
Proof. repeat split; vm_compute; reflexivity. Qed.



End ThresholdClaims.

(** ** Smoothing *)

Lemma zip_with_recombine_map (f : pixel -> Z) (l : list pixel) :
  zip_with recombine l (map f l) = map (fun p => recombine p (f p)) l.
Proof. induction l as [|p l IH]; simpl; [reflexivity | rewrite IH; reflexivity]. Qed.

Lemma alpha_recombine (p : pixel) (m : Z) : alpha (recombine p m) = m.
Proof. destruct p as [[[r g] b] a]. reflexivity. Qed.

Lemma clamp_any (s : float) :
  valid s = true ->
  let c := py_max zero (py_min one s) in
  valid c = true /\ finite_ok c /\ scaled c = clamp_value s.
Proof.
  intros Hv c. destruct valid_one as [Hv1 Hf1]. destruct valid_zero as [Hv0 Hf0].
  assert (Hone : scaled one = 2 ^ scale_exp) by exact scaled_one.
  destruct s as [s|[|]| |s m e].
  - apply (clamp_scaled (S754_zero s) Hv I).
  - assert (Hc : c = zero) by (vm_compute; reflexivity).
    rewrite Hc. cbn [clamp_value]. auto.
  - assert (Hc : c = one) by (vm_compute; reflexivity).
    rewrite Hc. cbn [clamp_value]. auto.
  - assert (Hc : c = one) by (vm_compute; reflexivity).
    rewrite Hc. cbn [clamp_value]. auto.
  - apply (clamp_scaled _ Hv (valid_finite_ok _ Hv)).
Qed.

Lemma clamp_value_range (s : float) : 0 <= clamp_value s <= 2 ^ scale_exp.
Proof.
  pose proof scale_pow_pos. destruct s as [s|[|]| |s m e]; cbn [clamp_value]; lia.
Qed.

Lemma clamp_value_mono (s1 s2 : float) :
  valid s1 = true -> valid s2 = true -> leb s1 s2 = true ->
  clamp_value s1 <= clamp_value s2.
Proof.
  intros Hv1 Hv2 Hle. pose proof scale_pow_pos as HP.
  pose proof (clamp_value_range s1) as R1. pose proof (clamp_value_range s2) as R2.
  destruct s2 as [z2|[|]| |b2 m2 e2].
  - destruct s1 as [z1|[|]| |b1 m1 e1]; try (cbn in Hle; discriminate);
      try (cbn [clamp_value] in *; lia).
    pose proof (valid_finite_ok _ Hv1) as Hf1.
    rewrite (leb_scaled _ _ Hv1 Hv2 Hf1 I) in Hle. apply Z.leb_le in Hle.
    cbn [clamp_value]. lia.
  - destruct s1 as [z1|[|]| |b1 m1 e1]; try (cbn in Hle; discriminate);
      cbn [clamp_value] in *; lia.
  - cbn [clamp_value] in *. lia.
  - destruct s1; cbn in Hle; discriminate.
  - pose proof (valid_finite_ok _ Hv2) as Hf2.
    destruct s1 as [z1|[|]| |b1 m1 e1]; try (cbn in Hle; discriminate).
    + rewrite (leb_scaled _ _ Hv1 Hv2 I Hf2) in Hle. apply Z.leb_le in Hle.
      cbn [clamp_value]. lia.
    + cbn [clamp_value] in *. lia.
    + pose proof (valid_finite_ok _ Hv1) as Hf1.
      rewrite (leb_scaled _ _ Hv1 Hv2 Hf1 Hf2) in Hle. apply Z.leb_le in Hle.
      cbn [clamp_value]. lia.
Qed.

(** The blur radius of a clamped smoothing factor. *)
Lemma blur_radius_scaled (c : float) :
  valid c = true -> finite_ok c -> 0 <= scaled c <= 2 ^ scale_exp ->
  valid (blur_radius c) = true /\ finite_ok (blur_radius c) /\
  scaled (blur_radius c) = round_fmt_signed (5 * scaled c) 1.
Proof.
  intros Hv Hf Hr. pose proof scale_pow_pos as HP.
  unfold blur_radius. rewrite mul_comm.
  pose proof (mul_const_scaled 5 _ _ c lit_5 eq_refl ltac:(lia) eq_refl
                ltac:(lia) Hv Hf) as [Hfin _].
  cbv zeta in Hfin.
  set (W := round_fmt_signed (5 * scaled c) 1) in *.
  assert (Htop : round_fmt_signed (5 * 2 ^ scale_exp * 1) 1 = 5 * 2 ^ scale_exp).
  { apply (round_fmt_signed_exact _ 1 5 scale_exp).
    - lia.
    - lia.
    - split; [lia | reflexivity].
    - unfold fmt_lo. lia. }
  rewrite Z.mul_1_r in Htop.
  assert (Hbot : round_fmt_signed 0 1 = 0).
  { unfold round_fmt_signed. simpl (0 <? 0). apply round_fmt_0. lia. }
  assert (HW : 0 <= W <= 5 * 2 ^ scale_exp).
  { split.
    - rewrite <- Hbot. apply round_fmt_signed_mono; lia.
    - rewrite <- Htop. apply round_fmt_signed_mono; lia. }
  assert (Hbig : 5 * 2 ^ scale_exp < overflow_bound).
  { unfold overflow_bound.
    rewrite (Z.pow_add_r 2 1024 scale_exp) by (unfold scale_exp; lia).
    assert (5 < 2 ^ 1024) by reflexivity. nia. }
  destruct (Hfin ltac:(lia)) as (H1 & H2 & H3). auto.
Qed.

Section SmoothingClaims.

Variable float_of_str : string -> outcome float.
Variable resize : image pixel -> Z -> Z -> outcome (image pixel).
Variable gaussian_blur : float -> image Z -> image Z.

(** Without smoothing the output is the cropped image with the mask as its
    alpha channel. *)
Lemma process_pixels_unsmoothed (src out : image pixel) (size : Z)
    (tolerance smoothing : pyobj) :
  ltb zero (normalize_smoothing float_of_str smoothing) = false ->
  process_pixels float_of_str resize gaussian_blur src size tolerance smoothing = Ok out ->
  exists img threshold,
    resize_and_crop resize src size = Ok img /\
    tolerance_threshold float_of_str tolerance = Ok threshold /\
    getdata out = map (fun p => recombine p (mask_value threshold p)) (getdata img).
Proof.
  intros Hs H. unfold process_pixels in H.
  inv_bind H as img Himg.
  pose proof (resize_and_crop_ok resize src img size Himg) as (_ & _ & _ & Hok).
  inv_bind H as mask Hmask.
  destruct (build_mask_ok float_of_str img tolerance mask Hok Hmask)
    as (th & Hth & _ & _ & Hdata).
  unfold smooth in H. rewrite Hs, Hdata, zip_with_recombine_map in H.
  inv_bind H as img1 H1.
  apply (putdata_ok _ _ _ Hok) in H1. destruct H1 as (_ & _ & Hok1 & Hd1).
  apply (putdata_ok _ _ _ Hok1) in H. destruct H as (_ & _ & _ & Hd2).
  exists img, th. split; [exact Himg|]. split; [exact Hth|].
  rewrite Hd2, Hd1. cbn [length app]. rewrite drop_0.
  rewrite length_map, drop_all, app_nil_r. reflexivity.
Qed.

(** With smoothing the mask is blurred before it becomes the alpha
    channel. *)
Lemma process_pixels_smoothed (src out : image pixel) (size : Z)
    (tolerance smoothing : pyobj) :
  ltb zero (normalize_smoothing float_of_str smoothing) = true ->
  process_pixels float_of_str resize gaussian_blur src size tolerance smoothing = Ok out ->
  exists img mask,
    resize_and_crop resize src size = Ok img /\
    build_mask float_of_str img tolerance = Ok mask /\
    let radius := mul (normalize_smoothing float_of_str smoothing) (lit 5) in
    let data := zip_with recombine (getdata img)
                  (getdata (gaussian_blur radius mask)) in
    getdata out = data ++ drop (length data) (getdata img).
Proof.
  intros Hs H. unfold process_pixels in H.
  inv_bind H as img Himg.
  pose proof (resize_and_crop_ok resize src img size Himg) as (_ & _ & _ & Hok).
  inv_bind H as mask Hmask.
  unfold smooth in H. rewrite Hs in H.
  inv_bind H as img1 H1.
  apply (putdata_ok _ _ _ Hok) in H1. destruct H1 as (_ & _ & Hok1 & Hd1).
  apply (putdata_ok _ _ _ Hok1) in H. destruct H as (_ & _ & _ & Hd2).
  exists img, mask. split; [exact Himg|]. split; [exact Hmask|].
  cbv zeta. rewrite Hd2, Hd1. cbn [length app]. rewrite drop_0. reflexivity.
Qed.

(** The clamp of line 74, on whatever is passed. *)
Lemma normalize_smoothing_clamp (v : pyobj) :
  valid (float_or_zero float_of_str v) = true ->
  valid (normalize_smoothing float_of_str v) = true /\
  finite_ok (normalize_smoothing float_of_str v) /\
  scaled (normalize_smoothing float_of_str v)
  = clamp_value (float_or_zero float_of_str v).
Proof. intros Hv. apply (clamp_any _ Hv). Qed.

(** The clamped value is 0.0 exactly for the values at most 0.0. *)
Lemma clamp_value_zero (s : float) :
  valid s = true -> (clamp_value s <= 0 <-> leb s zero = true).
Proof.
  intros Hv. pose proof scale_pow_pos as HP. destruct valid_zero as [Hv0 Hf0].
  destruct s as [z|[|]| |b m e].
  - cbn [clamp_value scaled]. split; [reflexivity | lia].
  - cbn [clamp_value]. split; [reflexivity | lia].
  - cbn [clamp_value]. split; [lia | discriminate].
  - cbn [clamp_value]. split; [lia | discriminate].
  - pose proof (valid_finite_ok _ Hv) as Hf.
    rewrite (leb_scaled _ _ Hv Hv0 Hf Hf0). change (scaled zero) with 0.
    rewrite Z.leb_le. cbn [clamp_value]. lia.
Qed.

(** C5, as amended: a smoothing, whatever its type, counts through the float
    [s] it parses to, 0.0 when [float] rejects it, and is clamped to
    [c = max(0.0, min(1.0, s))].  The clamped value is not positive exactly
    when [s <= 0.0], and then every alpha of the output is 0 or 255.  When it
    is positive the mask is blurred with the radius [c * 5.0] before it
    becomes the alpha channel.  With [s1 <= s2] the radius of the first is at
    most that of the second: the radius is monotone in the parsed value. *)
Theorem smoothing_zero_binary_and_radius_monotone :
  (forall src size tolerance smoothing out,
     ltb zero (normalize_smoothing float_of_str smoothing) = false ->
     process_pixels float_of_str resize gaussian_blur src size tolerance smoothing
       = Ok out ->
     Forall (fun p => alpha p = 0 \/ alpha p = 255) (getdata out)) /\
  (ltb zero (normalize_smoothing float_of_str (PyFloat_ zero)) = false /\
   ltb zero (normalize_smoothing float_of_str (PyInt 0)) = false) /\
  (forall smoothing,
     valid (float_or_zero float_of_str smoothing) = true ->
     let c := normalize_smoothing float_of_str smoothing in
     valid c = true /\ finite_ok c /\
     scaled c = clamp_value (float_or_zero float_of_str smoothing) /\
     (ltb zero c = false <-> leb (float_or_zero float_of_str smoothing) zero = true) /\
     valid (blur_radius c) = true /\ finite_ok (blur_radius c) /\
     scaled (blur_radius c) = round_fmt_signed (5 * scaled c) 1) /\
  (forall src size tolerance smoothing out,
     ltb zero (normalize_smoothing float_of_str smoothing) = true ->
     process_pixels float_of_str resize gaussian_blur src size tolerance smoothing
       = Ok out ->
     exists img mask,
       resize_and_crop resize src size = Ok img /\
       build_mask float_of_str img tolerance = Ok mask /\
       let radius := mul (normalize_smoothing float_of_str smoothing) (lit 5) in
       let data := zip_with recombine (getdata img)
                     (getdata (gaussian_blur radius mask)) in
       getdata out = data ++ drop (length data) (getdata img)) /\
  (forall v1 v2,
     valid (float_or_zero float_of_str v1) = true ->
     valid (float_or_zero float_of_str v2) = true ->
     leb (float_or_zero float_of_str v1) (float_or_zero float_of_str v2) = true ->
     leb (blur_radius (normalize_smoothing float_of_str v1))
         (blur_radius (normalize_smoothing float_of_str v2)) = true).
Proof.
  split; [|split; [|split; [|split]]].
  - intros src size tolerance smoothing out Hs H.
    destruct (process_pixels_unsmoothed src out size tolerance smoothing Hs H)
      as (img & th & _ & _ & ->).
    apply Forall_fmap, Forall_true. intros p. cbn.
    rewrite alpha_recombine. apply mask_value_cases.
  - split; reflexivity.
  - intros smoothing Hv c.
    destruct (normalize_smoothing_clamp smoothing Hv) as (Hvc & Hfc & Hsc).
    fold c in Hvc, Hfc, Hsc.
    pose proof (clamp_value_range (float_or_zero float_of_str smoothing)) as R.
    destruct (blur_radius_scaled c Hvc Hfc ltac:(rewrite Hsc; exact R))
      as (Hvr & Hfr & Hsr).
    destruct valid_zero as [Hv0 Hf0].
    split; [exact Hvc|]. split; [exact Hfc|]. split; [exact Hsc|].
    split; [|auto].
    rewrite (ltb_scaled _ _ Hv0 Hvc Hf0 Hfc), Hsc. change (scaled zero) with 0.
    rewrite Z.ltb_ge. apply clamp_value_zero. exact Hv.
  - intros src size tolerance smoothing out. apply process_pixels_smoothed.
  - intros v1 v2 Hv1 Hv2 Hle.
    destruct (normalize_smoothing_clamp v1 Hv1) as (Hvc1 & Hfc1 & Hsc1).
    destruct (normalize_smoothing_clamp v2 Hv2) as (Hvc2 & Hfc2 & Hsc2).
    pose proof (clamp_value_range (float_or_zero float_of_str v1)) as R1.
    pose proof (clamp_value_range (float_or_zero float_of_str v2)) as R2.
    pose proof (clamp_value_mono _ _ Hv1 Hv2 Hle) as Hm.
    destruct (blur_radius_scaled _ Hvc1 Hfc1 ltac:(rewrite Hsc1; exact R1))
      as (Hvr1 & Hfr1 & Hsr1).
    destruct (blur_radius_scaled _ Hvc2 Hfc2 ltac:(rewrite Hsc2; exact R2))
      as (Hvr2 & Hfr2 & Hsr2).
    rewrite (leb_scaled _ _ Hvr1 Hvr2 Hfr1 Hfr2), Hsr1, Hsr2, Hsc1, Hsc2.
    apply Z.leb_le. apply round_fmt_signed_mono; lia.
Qed.

(** C5 fails as stated: the int 10^400 is a smoothing above 1, but [float]
    rejects it and it counts as 0.0.  Smoothing 1 blurs the mask with radius
    5.0 and leaves alphas that are neither 0 nor 255; smoothing 10^400 is
    larger and blurs nothing. *)
Lemma smoothing_not_monotone_for_huge_int :
  1 <= 10 ^ 400 /\
  normalize_smoothing float_of_str_none (PyInt 1) = one /\
  blur_radius (normalize_smoothing float_of_str_none (PyInt 1)) = lit 5 /\
  normalize_smoothing float_of_str_none (PyInt (10 ^ 400)) = zero /\
  ltb zero (normalize_smoothing float_of_str_none (PyInt (10 ^ 400))) = false /\
  leb (blur_radius (normalize_smoothing float_of_str_none (PyInt 1)))
      (blur_radius (normalize_smoothing float_of_str_none (PyInt (10 ^ 400)))) = false /\
  process_pixels float_of_str_none resize_nearest blur_box wide_img 2
    (PyFloat_ one) (PyInt 1)
  = Ok (Image 2 2 [(255, 255, 255, 85); (255, 0, 0, 170);
                   (255, 255, 255, 85); (255, 0, 0, 170)]) /\
  process_pixels float_of_str_none resize_nearest blur_box wide_img 2
    (PyFloat_ one) (PyInt (10 ^ 400)) = Ok wide_out.
Proof.
  split; [vm_compute; discriminate|].
  repeat split; vm_compute; reflexivity.
Qed.

End SmoothingClaims.

(** ** Saving *)

Lemma image_save_ok (fs fs' : gmap path node) (p : path) (img : image pixel) :
  image_save fs p img = (fs', Ok tt) ->
  fs !! p <> Some Dir /\ isdir fs (dirname p) = true /\
  0 < width img /\ 0 < height img /\
  fs' = <[p := File (Some img)]> fs.
Proof.
  unfold image_save.
  destruct (fs !! p) as [[|c]|] eqn:E; [intros [= _ ?]; discriminate| |];
    destruct (isdir fs (dirname p)); try (intros [= _ ?]; discriminate);
    destruct (Z.leb_spec (width img) 0); cbn [orb];
    try (intros [= _ ?]; discriminate);
    destruct (Z.leb_spec (height img) 0);
    try (intros [= _ ?]; discriminate);
    intros [= <-]; repeat split; try lia; discriminate.
Qed.

(** A save that fails leaves the file system as it was, but for an existing
    regular file at the destination, which an empty image leaves emptied. *)
Lemma image_save_raise (fs fs' : gmap path node) (p : path) (img : image pixel)
    (e : exn) :
  image_save fs p img = (fs', Raise e) ->
  fs' = fs \/
  ((width img <= 0 \/ height img <= 0) /\
   (exists c, fs !! p = Some (File c)) /\ fs' = <[p := File None]> fs).
Proof.
  unfold image_save.
  destruct (fs !! p) as [[|c]|] eqn:E; [intros [= <- _]; left; reflexivity| |];
    (destruct (isdir fs (dirname p)); [|intros [= <- _]; left; reflexivity]);
    (destruct ((width img <=? 0) || (height img <=? 0)) eqn:Hemp;
       [|intros [= _ ?]; discriminate]).
  - intros [= <- _]. right. split; [|split; [eauto | reflexivity]].
    apply orb_true_iff in Hemp. destruct Hemp as [H|H]; apply Z.leb_le in H; auto.
  - intros [= <- _]. left. reflexivity.
Qed.

Section Saving.

Variable float_of_str : string -> outcome float.
Variable resize : image pixel -> Z -> Z -> outcome (image pixel).
Variable gaussian_blur : float -> image Z -> image Z.

Lemma process_image_ok (fs fs' : gmap path node) (in_path out_path : path)
    (size : Z) (tolerance smoothing : pyobj) :
  process_image float_of_str resize gaussian_blur fs in_path out_path size
    tolerance smoothing = (fs', Ok tt) ->
  exists src img,
    image_open fs in_path = Ok src /\
    process_pixels float_of_str resize gaussian_blur src size tolerance smoothing
      = Ok img /\
    fs !! out_path <> Some Dir /\ isdir fs (dirname out_path) = true /\
    1 <= size /\
    fs' = <[out_path := File (Some img)]> fs.
Proof.
  unfold process_image. intros H.
  destruct (image_open fs in_path) as [src|e] eqn:Hsrc; [|discriminate].
  cbn [obind] in H.
  destruct (process_pixels float_of_str resize gaussian_blur src size tolerance
              smoothing) as [img|e] eqn:Himg; [|discriminate].
  apply image_save_ok in H. destruct H as (H1 & H2 & H3 & _ & H5).
  destruct (process_pixels_dims float_of_str resize gaussian_blur _ _ _ _ _ Himg)
    as (Hw & _ & _).
  exists src, img. repeat split; try assumption. lia.
Qed.

(** A run that fails has written nothing; all it can have done is empty a
    file that was at its destination, when [size] leaves no pixel. *)
Lemma process_image_raise (fs fs' : gmap path node) (in_path out_path : path)
    (size : Z) (tolerance smoothing : pyobj) (e : exn) :
  process_image float_of_str resize gaussian_blur fs in_path out_path size
    tolerance smoothing = (fs', Raise e) ->
  fs' = fs \/
  (size <= 0 /\ (exists c, fs !! out_path = Some (File c)) /\
   fs' = <[out_path := File None]> fs).
Proof.
  unfold process_image. intros H.
  destruct (image_open fs in_path) as [src|e0] eqn:Hsrc;
    [|injection H as <- _; left; reflexivity].
  cbn [obind] in H.
  destruct (process_pixels float_of_str resize gaussian_blur src size tolerance
              smoothing) as [img|e0] eqn:Himg;
    [|injection H as <- _; left; reflexivity].
  apply image_save_raise in H. destruct H as [H|(Hemp & Hc & H)]; [left; exact H|].
  right. split; [|split; assumption].
  destruct (process_pixels_dims float_of_str resize gaussian_blur _ _ _ _ _ Himg)
    as (Hw & Hh & _). lia.
Qed.

End Saving.

(** ** Resampling size and determinism *)

Section ResampleClaims.

Variable float_of_str : string -> outcome float.
Variable resize : image pixel -> Z -> Z -> outcome (image pixel).
Variable gaussian_blur : float -> image Z -> image Z.

(** C6: [scale = size / min(w, h)], the new sides are [round(w * scale)] and
    [round(h * scale)], each at least 1; after resampling the smaller side is
    exactly [size]; a 400x200 source with size 340 is resampled to 680x340
    and cropped from left 170, top 0. *)
Theorem scaled_size_smallest_side :
  (forall w h size nw nh, scaled_size w h size = Ok (nw, nh) ->
     exists fmin fsize scale fw fh rw rh,
       of_int (Z.min w h) = Ok fmin /\ of_int size = Ok fsize /\
       div fsize fmin = Ok scale /\
       of_int w = Ok fw /\ py_round (mul fw scale) = Ok rw /\
       of_int h = Ok fh /\ py_round (mul fh scale) = Ok rh /\
       nw = Z.max 1 rw /\ nh = Z.max 1 rh) /\
  (forall w h size,
     1 <= w < dim_max -> 1 <= h < dim_max -> 1 <= size < dim_max ->
     exists nw nh, scaled_size w h size = Ok (nw, nh) /\ Z.min nw nh = size) /\
  ((forall img w h r, resize img w h = Ok r -> width r = w /\ height r = h) ->
   forall src size,
     1 <= width src < dim_max -> 1 <= height src < dim_max -> 1 <= size < dim_max ->
     (exists nw nh,
        scaled_size (width src) (height src) size = Ok (nw, nh) /\
        resample resize src size =
          if bool_decide ((nw, nh) = (width src, height src)) then Ok src
          else resize src nw nh) /\
     (forall img, resample resize src size = Ok img ->
                  Z.min (width img) (height img) = size)) /\
  (scaled_size 400 200 340 = Ok (680, 340) /\
   crop_box 680 340 340 = (170, 0, 170 + 340, 0 + 340)).
Proof.
  assert (Hmin : forall w h size,
            1 <= w < dim_max -> 1 <= h < dim_max -> 1 <= size < dim_max ->
            exists nw nh, scaled_size w h size = Ok (nw, nh) /\ Z.min nw nh = size).
  { intros w h size Hw Hh Hs.
    destruct (scaled_size_min w h size Hw Hh Hs) as (nw & nh & E & H1 & H2 & H3 & H4).
    exists nw, nh. split; [exact E|].
    destruct (Z.le_ge_cases w h) as [Hwh|Hhw].
    - rewrite (H3 Hwh). lia.
    - rewrite (H4 ltac:(lia)). lia. }
  split; [|split; [exact Hmin|split]].
  - intros w h size nw nh H. unfold scaled_size in H.
    inv_bind H as fmin Hfmin. inv_bind H as fsize Hfsize.
    inv_bind H as scale Hscale. inv_bind H as fw Hfw. inv_bind H as rw Hrw.
    inv_bind H as fh Hfh. inv_bind H as rh Hrh. injection H as <- <-.
    exists fmin, fsize, scale, fw, fh, rw, rh. repeat split; assumption.
  - intros Hresize src size Hw Hh Hs.
    destruct (Hmin (width src) (height src) size Hw Hh Hs) as (nw & nh & E & Hm).
    unfold resample. rewrite E. cbn [obind].
    split; [exists nw, nh; split; reflexivity|].
    intros img.
    destruct (bool_decide_reflect ((nw, nh) = (width src, height src))) as [Heq|Hne].
    + intros [= <-]. injection Heq as <- <-. exact Hm.
    + intros Hr. destruct (Hresize src nw nh img Hr) as [-> ->]. exact Hm.
  - split; vm_compute; reflexivity.
Qed.

End ResampleClaims.

(** Nothing the pipeline computes depends on more than its arguments and
    the answers of the libraries. *)
Lemma tolerance_threshold_same (fos1 fos2 : string -> outcome float) (v : pyobj) :
  (forall s, fos1 s = fos2 s) ->
  tolerance_threshold fos1 v = tolerance_threshold fos2 v.
Proof.
  intros H. unfold tolerance_threshold, normalize_tolerance.
  destruct v as [f|z|s|]; cbn [to_float]; try reflexivity.
  rewrite (H s). reflexivity.
Qed.

Lemma normalize_smoothing_same (fos1 fos2 : string -> outcome float) (v : pyobj) :
  (forall s, fos1 s = fos2 s) -> normalize_smoothing fos1 v = normalize_smoothing fos2 v.
Proof.
  intros H. unfold normalize_smoothing.
  destruct v as [f|z|s|]; cbn [to_float]; try reflexivity.
  rewrite (H s). reflexivity.
Qed.

Lemma process_pixels_same_library
    (fos1 fos2 : string -> outcome float)
    (resize1 resize2 : image pixel -> Z -> Z -> outcome (image pixel))
    (blur1 blur2 : float -> image Z -> image Z)
    (src out1 out2 : image pixel) (size : Z) (tolerance smoothing : pyobj) :
  same_library fos1 fos2 resize1 resize2 blur1 blur2 ->
  process_pixels fos1 resize1 blur1 src size tolerance smoothing = Ok out1 ->
  process_pixels fos2 resize2 blur2 src size tolerance smoothing = Ok out2 ->
  out1 = out2.
Proof.
  intros (Hfos & Hres & Hblur) H1 H2. unfold process_pixels in H1, H2.
  inv_bind H1 as img1 Hc1. inv_bind H2 as img2 Hc2.
  assert (Himg : img1 = img2).
  { unfold resize_and_crop in Hc1, Hc2.
    inv_bind Hc1 as r1 Hr1. inv_bind Hc2 as r2 Hr2.
    assert (Hr : r1 = r2).
    { unfold resample in Hr1, Hr2.
      destruct (scaled_size (width src) (height src) size) as [[nw nh]|e];
        [|discriminate].
      cbn [obind] in Hr1, Hr2.
      destruct (bool_decide ((nw, nh) = (width src, height src))).
      - congruence.
      - apply (Hres src nw nh); assumption. }
    subst r2. congruence. }
  subst img2.
  unfold build_mask in H1, H2.
  rewrite (tolerance_threshold_same fos1 fos2 tolerance Hfos) in H1.
  inv_bind H1 as m1 Hm1. inv_bind H2 as m2 Hm2.
  assert (Hm : m1 = m2) by congruence. subst m2.
  rewrite (normalize_smoothing_same fos1 fos2 smoothing Hfos) in H1.
  unfold smooth in H1, H2. rewrite Hblur in H1.
  congruence.
Qed.

(** C7: two runs with the same size, tolerance and smoothing on the same
    source write the same pixels, whatever else their file systems hold,
    wherever they write, and whether or not the library calls that succeed
    in one run succeed in the other. *)
Theorem process_image_deterministic
    (fos1 fos2 : string -> outcome float)
    (resize1 resize2 : image pixel -> Z -> Z -> outcome (image pixel))
    (blur1 blur2 : float -> image Z -> image Z)
    (fs1 fs2 fs1' fs2' : gmap path node)
    (in1 in2 out1 out2 : path) (size : Z) (tolerance smoothing : pyobj) :
  same_library fos1 fos2 resize1 resize2 blur1 blur2 ->
  image_open fs1 in1 = image_open fs2 in2 ->
  process_image fos1 resize1 blur1 fs1 in1 out1 size tolerance smoothing
    = (fs1', Ok tt) ->
  process_image fos2 resize2 blur2 fs2 in2 out2 size tolerance smoothing
    = (fs2', Ok tt) ->
  exists src img,
    image_open fs1 in1 = Ok src /\
    process_pixels fos1 resize1 blur1 src size tolerance smoothing = Ok img /\
    process_pixels fos2 resize2 blur2 src size tolerance smoothing = Ok img /\
    fs1' !! out1 = Some (File (Some img)) /\
    fs2' !! out2 = Some (File (Some img)).
Proof.
  intros Hlib Hsrc H1 H2.
  apply process_image_ok in H1. destruct H1 as (s1 & i1 & Ho1 & Hp1 & _ & _ & _ & ->).
  apply process_image_ok in H2. destruct H2 as (s2 & i2 & Ho2 & Hp2 & _ & _ & _ & ->).
  assert (s2 = s1) by congruence. subst s2.
  assert (i2 = i1).
  { symmetry. apply (process_pixels_same_library _ _ _ _ _ _ _ _ _ _ _ _ Hlib Hp1 Hp2). }
  subst i2. exists s1, i1.
  split; [exact Ho1|]. split; [exact Hp1|]. split; [exact Hp2|].
  split; apply lookup_insert_eq.
Qed.

(** ** Independence of the source alpha *)

Lemma same_rgb_nth (l1 l2 : list pixel) (n : nat) (d : pixel) :
  Forall2 same_rgb l1 l2 -> same_rgb (nth n l1 d) (nth n l2 d).
Proof.
  intros H. revert n. induction H as [|p q l1 l2 Hpq _ IH]; intros n.
  - destruct n, d as [[[r g] b] a]; cbn; auto.
  - destruct n; cbn; [exact Hpq | apply IH].
Qed.

Lemma same_rgb_getpixel (i1 i2 : image pixel) (x y : Z) :
  same_rgb_image i1 i2 ->
  same_rgb (getpixel transparent_black i1 x y) (getpixel transparent_black i2 x y).
Proof.
  intros (Hw & Hh & Hd). unfold getpixel. rewrite Hw, Hh.
  destruct ((0 <=? x) && (x <? width i2) && (0 <=? y) && (y <? height i2)).
  - apply same_rgb_nth. exact Hd.
  - cbn. auto.
Qed.

Lemma Forall2_flat_map_seq {A : Type} (R : A -> A -> Prop) (f g : Z -> list A)
    (l : list Z) :
  (forall y, Forall2 R (f y) (g y)) -> Forall2 R (flat_map f l) (flat_map g l).
Proof.
  intros H. induction l as [|y l IH]; cbn; [constructor|].
  apply Forall2_app; [apply H | exact IH].
Qed.

Lemma Forall2_map_same {A B : Type} (R : B -> B -> Prop) (f g : A -> B) (l : list A) :
  (forall x, R (f x) (g x)) -> Forall2 R (map f l) (map g l).
Proof.
  intros H. induction l as [|x l IH]; cbn; constructor; [apply H | exact IH].
Qed.

Lemma crop_same_rgb (i1 i2 : image pixel) (x0 y0 x1 y1 : Z) :
  same_rgb_image i1 i2 ->
  match crop i1 x0 y0 x1 y1, crop i2 x0 y0 x1 y1 with
  | Ok a, Ok b => same_rgb_image a b
  | Raise e1, Raise e2 => e1 = e2
  | _, _ => False
  end.
Proof.
  intros H. unfold crop. destruct ((x1 <? x0) || (y1 <? y0)); [reflexivity|].
  unfold same_rgb_image. cbn [width height getdata].
  split; [reflexivity|]. split; [reflexivity|].
  apply Forall2_flat_map_seq. intros y. apply Forall2_map_same. intros x.
  apply same_rgb_getpixel. exact H.
Qed.

Lemma mask_value_same_rgb (th : Z) (p q : pixel) :
  same_rgb p q -> mask_value th p = mask_value th q.
Proof.
  destruct p as [[[r1 g1] b1] a1], q as [[[r2 g2] b2] a2].
  cbn. intros (-> & -> & ->). reflexivity.
Qed.

Lemma map_mask_same_rgb (th : Z) (l1 l2 : list pixel) :
  Forall2 same_rgb l1 l2 -> map (mask_value th) l1 = map (mask_value th) l2.
Proof.
  induction 1 as [|p q l1 l2 Hpq _ IH]; cbn; [reflexivity|].
  rewrite (mask_value_same_rgb th p q Hpq), IH. reflexivity.
Qed.

Lemma zip_recombine_same_rgb (l1 l2 : list pixel) (m : list Z) :
  Forall2 same_rgb l1 l2 -> zip_with recombine l1 m = zip_with recombine l2 m.
Proof.
  intros H. revert m. induction H as [|p q l1 l2 Hpq _ IH]; intros m; [reflexivity|].
  destruct m as [|v m]; [reflexivity|]. cbn. rewrite IH. f_equal.
  destruct p as [[[r1 g1] b1] a1], q as [[[r2 g2] b2] a2].
  cbn in Hpq. destruct Hpq as (-> & -> & ->). reflexivity.
Qed.

Section AlphaClaims.

Variable float_of_str : string -> outcome float.
Variable resize : image pixel -> Z -> Z -> outcome (image pixel).
Variable gaussian_blur : float -> image Z -> image Z.

Lemma build_mask_same_rgb (i1 i2 : image pixel) (tolerance : pyobj) :
  same_rgb_image i1 i2 ->
  build_mask float_of_str i1 tolerance = build_mask float_of_str i2 tolerance.
Proof.
  intros (Hw & Hh & Hd). unfold build_mask. rewrite Hw, Hh.
  destruct (tolerance_threshold float_of_str tolerance) as [th|e]; [|reflexivity].
  cbn [obind]. rewrite (map_mask_same_rgb th _ _ Hd). reflexivity.
Qed.

(** C9, as amended: the output does not depend on the alpha channel of the
    source when the resampling filter's colours do not depend on it, or
    when the source already has the resampling size so that the filter does
    not run (the blur keeps the number of mask entries). *)
Theorem output_independent_of_source_alpha (src1 src2 : image pixel) (size : Z)
    (tolerance smoothing : pyobj) :
  ((forall i1 i2 w h, same_rgb_image i1 i2 ->
      match resize i1 w h, resize i2 w h with
      | Ok r1, Ok r2 => same_rgb_image r1 r2
      | Raise e1, Raise e2 => e1 = e2
      | _, _ => False
      end) \/
   scaled_size (width src1) (height src1) size = Ok (width src1, height src1)) ->
  (forall r m, length (getdata (gaussian_blur r m)) = length (getdata m)) ->
  same_rgb_image src1 src2 ->
  process_pixels float_of_str resize gaussian_blur src1 size tolerance smoothing =
  process_pixels float_of_str resize gaussian_blur src2 size tolerance smoothing.
Proof.
  intros Hresize Hblur Hsrc. pose proof Hsrc as (Hw & Hh & Hd).
  unfold process_pixels, resize_and_crop, resample. rewrite <- Hw, <- Hh.
  destruct (scaled_size (width src1) (height src1) size) as [[nw nh]|e] eqn:Hss;
    [|reflexivity].
  cbn [obind].
  set (o1 := if bool_decide ((nw, nh) = (width src1, height src1)) then Ok src1
             else resize src1 nw nh).
  set (o2 := if bool_decide ((nw, nh) = (width src1, height src1)) then Ok src2
             else resize src2 nw nh).
  assert (Ho : match o1, o2 with
               | Ok r1, Ok r2 => same_rgb_image r1 r2
               | Raise e1, Raise e2 => e1 = e2
               | _, _ => False
               end).
  { unfold o1, o2.
    destruct (bool_decide_reflect ((nw, nh) = (width src1, height src1))) as [E|NE];
      [exact Hsrc|].
    destruct Hresize as [Hres|Hno]; [apply Hres; exact Hsrc|].
    exfalso. apply NE. injection Hno as -> ->. reflexivity. }
  destruct o1 as [r1|e1], o2 as [r2|e2]; try contradiction;
    [|rewrite Ho; reflexivity].
  cbn [obind]. pose proof Ho as Hr.
  pose proof Hr as (Hrw & Hrh & _). rewrite <- Hrw, <- Hrh.
  destruct (crop_box (width r1) (height r1) size) as [[[x0 y0] x1] y1].
  pose proof (crop_same_rgb r1 r2 x0 y0 x1 y1 Hr) as Hcrop.
  destruct (crop r1 x0 y0 x1 y1) as [c1|e1] eqn:Hc1,
           (crop r2 x0 y0 x1 y1) as [c2|e2] eqn:Hc2; try contradiction;
    [|rewrite Hcrop; reflexivity].
  cbn [obind].
  rewrite <- (build_mask_same_rgb c1 c2 tolerance Hcrop).
  destruct (build_mask float_of_str c1 tolerance) as [mask|e] eqn:Hmask; [|reflexivity].
  cbn [obind]. destruct Hcrop as (Hcw & Hch & Hcd).
  rewrite <- (zip_recombine_same_rgb _ _ _ Hcd).
  apply crop_ok in Hc1. destruct Hc1 as (_ & _ & _ & _ & Hok1).
  destruct (build_mask_ok float_of_str c1 tolerance mask Hok1 Hmask)
    as (th & _ & _ & _ & Hmd).
  set (mask' := smooth gaussian_blur (normalize_smoothing float_of_str smoothing) mask).
  assert (Hlen : length (getdata mask') = length (getdata c1)).
  { unfold mask', smooth.
    destruct (ltb zero (normalize_smoothing float_of_str smoothing));
      rewrite ?Hblur, Hmd, length_map; reflexivity. }
  set (r_final := zip_with recombine (getdata c1) (getdata mask')).
  assert (Hrl : length r_final = length (getdata c1)).
  { unfold r_final. rewrite length_zip_with, Hlen. lia. }
  assert (Hput : putdata c1 r_final = putdata c2 r_final).
  { unfold putdata. rewrite <- Hcw, <- Hch. rewrite Hrl.
    rewrite drop_all.
    rewrite (drop_ge (getdata c2)) by (rewrite (Forall2_length _ _ _ Hcd); lia).
    reflexivity. }
  rewrite Hput. reflexivity.
Qed.

End AlphaClaims.

(** C9 fails as stated: a white pixel of alpha 255 and a white pixel of
    alpha 0 agree on R, G, B; resampled on premultiplied alpha the second
    turns black, so the two outputs differ in colour and in alpha. *)
Lemma alpha_changes_output_through_resampling :
  exists src1 src2 : image pixel,
    same_rgb_image src1 src2 /\
    process_pixels float_of_str_none resize_premultiplied blur_box
      src1 2 (PyFloat_ one) (PyFloat_ zero)
    = Ok (Image 2 2 (replicate 4 (255, 255, 255, 0))) /\
    process_pixels float_of_str_none resize_premultiplied blur_box
      src2 2 (PyFloat_ one) (PyFloat_ zero)
    = Ok (Image 2 2 (replicate 4 (0, 0, 0, 255))).
Proof.
  exists (Image 1 1 [(255, 255, 255, 255)]), (Image 1 1 [(255, 255, 255, 0)]).
  split; [|split; vm_compute; reflexivity].
  unfold same_rgb_image. cbn. repeat constructor.
Qed.

(** ** Non-positive tolerances *)

Lemma tolerance_floor_scaled :
  valid tolerance_floor = true /\ finite_ok tolerance_floor /\
  scaled tolerance_floor = - (4521260802379791 * 2 ^ (964 + scale_exp)).
Proof.
  split; [vm_compute; reflexivity|]. split; [vm_compute; split; discriminate|].
  vm_compute. reflexivity.
Qed.

(** At the floor the product with 255 is the largest float but one; one
    float further it is [2^1024]. *)
Lemma round_at_floor :
  round_fmt_signed (255 * - (4521260802379791 * 2 ^ (964 + scale_exp))) 1
  = - ((2 ^ 53 - 2) * 2 ^ (971 + scale_exp)).
Proof. vm_compute. reflexivity. Qed.

Lemma round_below_floor :
  round_fmt_signed (255 * - (4521260802379792 * 2 ^ (964 + scale_exp))) 1
  = - overflow_bound.
Proof. vm_compute. reflexivity. Qed.

Lemma threshold_of_nonpositive (t : float) :
  valid t = true -> finite_ok t ->
  - (4521260802379791 * 2 ^ (964 + scale_exp)) <= scaled t <= 0 ->
  exists th, threshold_of t = Ok th /\ th <= 0.
Proof.
  intros Hv Hf [Hlo Hhi].
  destruct (threshold_of_scaled t Hv Hf) as [Hok _]. cbv zeta in Hok.
  set (W := round_fmt_signed (255 * scaled t) 1) in *.
  assert (Htop : round_fmt_signed 0 1 = 0).
  { unfold round_fmt_signed. simpl (0 <? 0). apply round_fmt_0. lia. }
  assert (HW : - ((2 ^ 53 - 2) * 2 ^ (971 + scale_exp)) <= W <= 0).
  { split.
    - rewrite <- round_at_floor. apply round_fmt_signed_mono; lia.
    - rewrite <- Htop. apply round_fmt_signed_mono; lia. }
  assert (Hbig : (2 ^ 53 - 2) * 2 ^ (971 + scale_exp) < overflow_bound)
    by (vm_compute; reflexivity).
  exists (round_int W). split; [apply Hok; lia|].
  rewrite <- (round_int_exact 0). apply round_int_mono. lia.
Qed.

(** No float lies between the floor and the next float below it. *)
Lemma below_floor_gap (t : float) :
  valid t = true -> finite_ok t ->
  scaled t < - (4521260802379791 * 2 ^ (964 + scale_exp)) ->
  scaled t <= - (4521260802379792 * 2 ^ (964 + scale_exp)).
Proof.
  intros Hv Hf Hlt.
  assert (HP : 0 < 2 ^ (964 + scale_exp))
    by (apply Z.pow_pos_nonneg; unfold scale_exp; lia).
  destruct t as [s|s| |s m e]; cbn [finite_ok] in Hf; try contradiction.
  { cbn [scaled] in Hlt. lia. }
  apply valid_digits in Hv. destruct Hv as (He & Hm & _).
  cbn [scaled] in Hlt |- *.
  assert (Hpe : 0 < 2 ^ (e + scale_exp))
    by (apply Z.pow_pos_nonneg; unfold scale_exp; lia).
  destruct s; cbn [cond_Zopp] in Hlt |- *; [|nia].
  set (P := 2 ^ (964 + scale_exp)) in *.
  destruct (Z.le_gt_cases 964 e) as [Hge|Hlow].
  - assert (E : 2 ^ (e + scale_exp) = 2 ^ (e - 964) * P).
    { unfold P. rewrite <- Z.pow_add_r by (unfold scale_exp; lia).
      f_equal. lia. }
    assert (Hk : 0 < 2 ^ (e - 964)) by (apply Z.pow_pos_nonneg; lia).
    rewrite E in Hlt |- *. set (k := 2 ^ (e - 964)) in *.
    assert (H1 : 4521260802379791 < Z.pos m * k).
    { apply (Z.mul_lt_mono_pos_r P); [exact HP|]. lia. }
    assert (H2 : 4521260802379792 * P <= Z.pos m * k * P).
    { apply Z.mul_le_mono_nonneg_r; lia. }
    lia.
  - exfalso.
    assert (Hle : 2 ^ (e + scale_exp) <= 2 ^ (963 + scale_exp))
      by (apply Z.pow_le_mono_r; unfold scale_exp; lia).
    assert (E : P = 2 * 2 ^ (963 + scale_exp)).
    { unfold P. replace (964 + scale_exp) with (1 + (963 + scale_exp)) by lia.
      rewrite Z.pow_add_r by (unfold scale_exp; lia). reflexivity. }
    assert (H53 : 2 ^ 53 = 9007199254740992) by reflexivity.
    set (Q := 2 ^ (963 + scale_exp)) in *.
    assert (HQ : 0 < Q) by lia.
    assert (H1 : Z.pos m * 2 ^ (e + scale_exp) <= Z.pos m * Q).
    { apply Z.mul_le_mono_nonneg_l; lia. }
    assert (H2 : Z.pos m * Q <= 9007199254740992 * Q).
    { apply Z.mul_le_mono_nonneg_r; lia. }
    lia.
Qed.

Lemma threshold_of_below_floor (t : float) :
  valid t = true -> leb t zero = true -> leb tolerance_floor t = false ->
  threshold_of t = Raise OverflowError.
Proof.
  intros Hv Hle0 Hfl.
  destruct tolerance_floor_scaled as (Hvf & Hff & Hsf).
  destruct t as [s|[|]| |s m e].
  - discriminate Hfl.
  - unfold threshold_of. rewrite lit_255. reflexivity.
  - discriminate Hle0.
  - discriminate Hle0.
  - pose proof (valid_finite_ok _ Hv) as Hf.
    rewrite (leb_scaled _ _ Hvf Hv Hff Hf), Hsf in Hfl. apply Z.leb_gt in Hfl.
    pose proof (below_floor_gap _ Hv Hf Hfl) as Hgap.
    destruct (threshold_of_scaled _ Hv Hf) as [_ Hov]. cbv zeta in Hov.
    apply Hov.
    assert (HW : round_fmt_signed (255 * scaled (S754_finite s m e)) 1
                 <= - overflow_bound).
    { rewrite <- round_below_floor. apply round_fmt_signed_mono; lia. }
    assert (0 < overflow_bound) by (vm_compute; reflexivity).
    lia.
Qed.

Lemma crop_pixel_ok (img out : image pixel) (x0 y0 x1 y1 : Z) :
  Forall pixel_ok (getdata img) -> crop img x0 y0 x1 y1 = Ok out ->
  Forall pixel_ok (getdata out).
Proof.
  intros Hd. unfold crop. destruct ((x1 <? x0) || (y1 <? y0)); [discriminate|].
  intros [= <-]. cbn [getdata].
  apply List.Forall_forall. intros p Hp. apply in_flat_map in Hp.
  destruct Hp as (y & _ & Hp). apply in_map_iff in Hp. destruct Hp as (x & <- & _).
  unfold getpixel.
  destruct ((0 <=? x0 + x) && (x0 + x <? width img) && (0 <=? y0 + y)
            && (y0 + y <? height img)).
  - destruct (nth_in_or_default (Z.to_nat ((y0 + y) * width img + (x0 + x)))
                (getdata img) transparent_black) as [Hin| ->].
    + rewrite List.Forall_forall in Hd. apply Hd. exact Hin.
    + cbn. unfold channel_ok. lia.
  - cbn. unfold channel_ok. lia.
Qed.

Lemma map_mask_nonpositive (th : Z) (l : list pixel) :
  th <= 0 -> Forall pixel_ok l -> map (mask_value th) l = map (mask_value 0) l.
Proof.
  intros Hth H. induction H as [|p l Hp _ IH]; cbn; [reflexivity|].
  rewrite IH, (mask_value_nonpos th p Hth Hp), (mask_value_nonpos 0 p) by (lia || exact Hp).
  reflexivity.
Qed.

Section NegativeToleranceClaims.

Variable float_of_str : string -> outcome float.
Variable resize : image pixel -> Z -> Z -> outcome (image pixel).
Variable gaussian_blur : float -> image Z -> image Z.

(** The tolerance acts on the pixels through the threshold only. *)
Lemma process_pixels_needs_threshold (src : image pixel) (size : Z)
    (tolerance smoothing : pyobj) (e : exn) :
  tolerance_threshold float_of_str tolerance = Raise e ->
  exists e', process_pixels float_of_str resize gaussian_blur src size tolerance smoothing
             = Raise e'.
Proof.
  intros H. unfold process_pixels.
  destruct (resize_and_crop resize src size) as [img|e0]; [|cbn; eauto].
  cbn [obind]. unfold build_mask. rewrite H. cbn. eauto.
Qed.

(** C10, as amended: a tolerance that parses to a float [t <= 0.0] is not
    clamped.  Down to the floor [-4521260802379791 * 2^964], the most
    negative float whose product with 255 is finite, the threshold is at
    most 0, every pixel is classified white, the output is the one of
    tolerance 0.0 and, without smoothing, fully transparent.  Below the
    floor, minus infinity included, [255 * t] is minus infinity, rounding it
    raises [OverflowError] and no image is produced. *)
Theorem nonpositive_tolerance_transparent (v : pyobj) (t : float) :
  to_float float_of_str v = Ok t -> valid t = true -> leb t zero = true ->
  (leb tolerance_floor t = true ->
   exists th,
     tolerance_threshold float_of_str v = Ok th /\ th <= 0 /\
     (forall p, pixel_ok p -> mask_value th p = 0) /\
     (forall src size smoothing,
        Forall pixel_ok (getdata src) ->
        (forall i w h r, resize i w h = Ok r -> Forall pixel_ok (getdata i) ->
                         Forall pixel_ok (getdata r)) ->
        process_pixels float_of_str resize gaussian_blur src size v smoothing
        = process_pixels float_of_str resize gaussian_blur src size (PyFloat_ zero)
            smoothing /\
        (ltb zero (normalize_smoothing float_of_str smoothing) = false ->
         forall out,
           process_pixels float_of_str resize gaussian_blur src size v
             smoothing = Ok out ->
           Forall (fun p => alpha p = 0) (getdata out)))) /\
  (leb tolerance_floor t = false ->
   tolerance_threshold float_of_str v = Raise OverflowError /\
   forall src size smoothing out,
     process_pixels float_of_str resize gaussian_blur src size v smoothing <> Ok out).
Proof.
  intros Hto Hv Hle0.
  assert (Hparsed : tolerance_threshold float_of_str v
                    = tolerance_threshold float_of_str (PyFloat_ t)).
  { rewrite tolerance_threshold_parsed. unfold float_or_zero. rewrite Hto. reflexivity. }
  destruct tolerance_floor_scaled as (Hvf & Hff & Hsf).
  destruct valid_zero as [Hv0 Hf0]. destruct valid_one as [Hv1 Hf1].
  pose proof scale_pow_pos as HP.
  assert (Hnl : ltb one t = false).
  { destruct t as [s|[|]| |s m e]; try reflexivity; try discriminate Hle0.
    pose proof (valid_finite_ok _ Hv) as Hf.
    rewrite (leb_scaled _ _ Hv Hv0 Hf Hf0) in Hle0. apply Z.leb_le in Hle0.
    change (scaled zero) with 0 in Hle0.
    rewrite (ltb_scaled _ _ Hv1 Hv Hf1 Hf), scaled_one. apply Z.ltb_ge. lia. }
  split.
  - intros Hfl.
    assert (Hf : finite_ok t).
    { destruct t as [s|s| |s m e]; try exact I.
      - destruct s; [|cbn in Hle0; discriminate Hle0].
        clear - Hfl. vm_compute in Hfl. discriminate Hfl.
      - clear - Hle0. cbn in Hle0. discriminate Hle0.
      - apply (valid_finite_ok _ Hv). }
    rewrite (leb_scaled _ _ Hv Hv0 Hf Hf0) in Hle0. apply Z.leb_le in Hle0.
    rewrite (leb_scaled _ _ Hvf Hv Hff Hf), Hsf in Hfl. apply Z.leb_le in Hfl.
    cbn [scaled zero] in Hle0.
    destruct (threshold_of_nonpositive t Hv Hf ltac:(lia)) as (th & Hth & Hth0).
    assert (Htt : tolerance_threshold float_of_str v = Ok th).
    { rewrite Hparsed, tolerance_threshold_float, Hnl. exact Hth. }
    exists th. split; [exact Htt|]. split; [exact Hth0|]. split.
    { intros p Hp. apply mask_value_nonpos; assumption. }
    intros src size smoothing Hsrc Hres.
    assert (Hmask : forall img, Forall pixel_ok (getdata img) ->
              build_mask float_of_str img v
              = build_mask float_of_str img (PyFloat_ zero)).
    { intros img Himg. unfold build_mask. rewrite Htt.
      change (tolerance_threshold float_of_str (PyFloat_ zero)) with (@Ok Z 0).
      cbn [obind]. rewrite (map_mask_nonpositive th _ Hth0 Himg). reflexivity. }
    assert (Hcrop : forall img, resize_and_crop resize src size = Ok img ->
              Forall pixel_ok (getdata img)).
    { intros img H. unfold resize_and_crop in H. inv_bind H as r Hr.
      unfold resample in Hr. inv_bind Hr as d Hd. destruct d as [nw nh].
      destruct (crop_box _ _ size) as [[[x0 y0] x1] y1].
      refine (crop_pixel_ok _ _ _ _ _ _ _ H).
      destruct (bool_decide ((nw, nh) = (width src, height src)));
        [injection Hr as <-; exact Hsrc | apply (Hres _ _ _ _ Hr); exact Hsrc]. }
    assert (Heq : process_pixels float_of_str resize gaussian_blur src size
                    v smoothing
                  = process_pixels float_of_str resize gaussian_blur src size
                      (PyFloat_ zero) smoothing).
    { unfold process_pixels.
      destruct (resize_and_crop resize src size) as [img|e] eqn:Hrc; [|reflexivity].
      cbn [obind]. rewrite (Hmask img (Hcrop img eq_refl)). reflexivity. }
    split; [exact Heq|].
    intros Hs out Hout.
    destruct (process_pixels_unsmoothed float_of_str resize gaussian_blur
                src out size _ smoothing Hs Hout) as (img & th' & Hrc & Hth' & ->).
    rewrite Htt in Hth'. injection Hth' as <-.
    apply Forall_fmap. pose proof (Hcrop img Hrc) as Hpix.
    eapply Forall_impl; [exact Hpix|].
    intros p Hp. cbn. rewrite alpha_recombine. apply mask_value_nonpos; assumption.
  - intros Hfl.
    assert (Htt : tolerance_threshold float_of_str v = Raise OverflowError).
    { rewrite Hparsed, tolerance_threshold_float, Hnl.
      apply threshold_of_below_floor; assumption. }
    split; [exact Htt|].
    intros src size smoothing out Hout.
    destruct (process_pixels_needs_threshold src size v smoothing _ Htt) as [e' He'].
    rewrite He' in Hout. discriminate.
Qed.

End NegativeToleranceClaims.

(** C10 fails as stated: the most negative finite float is a tolerance
    [t <= 0.0], but [255 * t] overflows to minus infinity and rounding it
    raises [OverflowError]: no threshold is computed and no image produced. *)
Lemma negative_tolerance_overflows :
  exists t : float,
    valid t = true /\ leb t zero = true /\
    tolerance_threshold float_of_str_none (PyFloat_ t) = Raise OverflowError /\
    process_pixels float_of_str_none resize_nearest blur_box
      (Image 1 1 [(10, 20, 30, 255)]) 1 (PyFloat_ t) (PyFloat_ zero)
    = Raise OverflowError.
Proof.
  exists (S754_finite true 9007199254740991 971).
  repeat split; vm_compute; reflexivity.
Qed.

(** ** The batch loop *)

Lemma makedirs_from_keeps_dirs (rest : list string) (fs fs' : gmap path node)
    (done_ q : path) :
  makedirs_from fs done_ rest = Ok fs' -> fs !! q = Some Dir -> fs' !! q = Some Dir.
Proof.
  revert fs done_. induction rest as [|c rest IH]; intros fs done_ H Hq.
  - cbn in H. injection H as <-. exact Hq.
  - cbn [makedirs_from] in H.
    destruct (fs !! (done_ ++ [c])) as [[|content]|] eqn:E; try discriminate.
    + apply (IH _ _ H Hq).
    + apply (IH _ _ H).
      destruct (decide (done_ ++ [c] = q)) as [<-|Hne].
      * apply lookup_insert_eq.
      * rewrite lookup_insert_ne by exact Hne. exact Hq.
Qed.

Lemma makedirs_from_dirs (rest : list string) (fs fs' : gmap path node) (done_ : path) :
  makedirs_from fs done_ rest = Ok fs' ->
  forall k, (0 < k <= length rest)%nat -> fs' !! (done_ ++ take k rest) = Some Dir.
Proof.
  revert fs done_. induction rest as [|c rest IH]; intros fs done_ H k Hk.
  - cbn in Hk. lia.
  - cbn [makedirs_from] in H.
    assert (Hstep : forall fs0, fs0 !! (done_ ++ [c]) = Some Dir ->
              makedirs_from fs0 (done_ ++ [c]) rest = Ok fs' ->
              fs' !! (done_ ++ take k (c :: rest)) = Some Dir).
    { intros fs0 Hdir H0. destruct k as [|[|k]]; [lia| |].
      - cbn [take]. rewrite take_0.
        apply (makedirs_from_keeps_dirs _ _ _ _ _ H0 Hdir).
      - cbn [take].
        replace (done_ ++ c :: take (S k) rest)
          with ((done_ ++ [c]) ++ take (S k) rest)
          by (rewrite <- app_assoc; reflexivity).
        apply (IH fs0 (done_ ++ [c]) H0). cbn in Hk. lia. }
    destruct (fs !! (done_ ++ [c])) as [[|content]|] eqn:E; try discriminate.
    + apply (Hstep fs E H).
    + apply (Hstep _ (lookup_insert_eq _ _ _) H).
Qed.


Lemma makedirs_dirs_on_path (fs fs' : gmap path node) (p : path) :
  makedirs fs p = Ok fs' -> dirs_on_path fs' p.
Proof. intros H k Hk. apply (makedirs_from_dirs p fs fs' [] H k Hk). Qed.



Lemma dirname_snoc (p : path) (f : string) : dirname (p ++ [f]) = p.
Proof.
  unfold dirname. rewrite length_app. cbn [length].
  replace (length p + 1 - 1)%nat with (length p) by lia.
  apply take_app_length.
Qed.

(** [os.makedirs] only adds directories where there was nothing. *)
Lemma makedirs_from_adds_dirs (rest : list string) (fs fs' : gmap path node)
    (done_ q : path) :
  makedirs_from fs done_ rest = Ok fs' ->
  fs' !! q = fs !! q \/ (fs !! q = None /\ fs' !! q = Some Dir).
Proof.
  revert fs done_. induction rest as [|c rest IH]; intros fs done_ H.
  - cbn in H. injection H as <-. left. reflexivity.
  - cbn [makedirs_from] in H.
    destruct (fs !! (done_ ++ [c])) as [[|content]|] eqn:E; try discriminate.
    + apply (IH _ _ H).
    + destruct (IH _ _ H) as [Hq|[Hq1 Hq2]].
      * destruct (decide (done_ ++ [c] = q)) as [<-|Hne].
        -- right. rewrite lookup_insert_eq in Hq. auto.
        -- left. rewrite lookup_insert_ne in Hq by exact Hne. exact Hq.
      * destruct (decide (done_ ++ [c] = q)) as [<-|Hne].
        -- rewrite lookup_insert_eq in Hq1. discriminate.
        -- right. rewrite lookup_insert_ne in Hq1 by exact Hne. auto.
Qed.



Section BatchClaims.

Variable float_of_str : string -> outcome float.
Variable resize : image pixel -> Z -> Z -> outcome (image pixel).
Variable gaussian_blur : float -> image Z -> image Z.







Lemma destinations_free_tail (a : args) (src : path) (pngs : list path)
    (fs : gmap path node) :
  destinations_free a (src :: pngs) fs -> destinations_free a pngs fs.
Proof.
  intros H s Hs. destruct (H s (or_intror Hs)) as [H1 H2].
  split; [exact H1|]. intros s' Hs'. apply H2. right. exact Hs'.
Qed.



End BatchClaims.

(** ** Closed examples *)


Lemma mask_entry_iff_threshold_witness :
  threshold_of one = Ok 255 /\
  exists mask, build_mask float_of_str_none wide_img (PyFloat_ one) = Ok mask /\
               getdata mask = [0; 255].
Proof.
  destruct (mask_entry_iff_threshold float_of_str_none wide_img (PyFloat_ one) one 255)
    as (_ & (mask & Hm & Hd) & _).
  - unfold image_ok. cbn. lia.
  - reflexivity.
  - vm_compute. reflexivity.
  - split; [vm_compute; reflexivity|]. exists mask. split; [exact Hm | exact Hd].
Defined.

Lemma output_dimensions_square_witness :
  exists out,
    process_pixels float_of_str_none resize_nearest blur_box wide_img 2
      (PyFloat_ one) (PyFloat_ zero) = Ok out /\
    width out = 2 /\ height out = 2 /\ Z.of_nat (length (getdata out)) = 2 * 2.
Proof.
  eexists. split; [vm_compute; reflexivity|].
  apply (output_dimensions_square float_of_str_none resize_nearest blur_box
           wide_img _ 2 (PyFloat_ one) (PyFloat_ zero)).
  - cbn. lia.
  - cbn. lia.
  - lia.
  - vm_compute. reflexivity.
Defined.


Lemma smoothing_zero_binary_and_radius_monotone_witness :
  leb (blur_radius (normalize_smoothing float_of_str_none (PyFloat_ half)))
      (blur_radius (normalize_smoothing float_of_str_none (PyInt 1))) = true /\
  (ltb zero (normalize_smoothing float_of_str_none PyNone) = false <->
   leb (float_or_zero float_of_str_none PyNone) zero = true).
Proof.
  destruct (smoothing_zero_binary_and_radius_monotone float_of_str_none
              resize_nearest blur_box) as (_ & _ & Hclamp & _ & Hmono).
  split.
  - apply (Hmono (PyFloat_ half) (PyInt 1)); vm_compute; reflexivity.
  - destruct (Hclamp PyNone eq_refl) as (_ & _ & _ & Hzero & _). exact Hzero.
Defined.

Lemma process_image_deterministic_witness :
  exists img,
    process_pixels float_of_str_none resize_nearest blur_box wide_img 2
      (PyFloat_ one) (PyFloat_ zero) = Ok img /\
    process_pixels float_of_str_none resize_small blur_box wide_img 2
      (PyFloat_ one) (PyFloat_ zero) = Ok img /\
    (<[ ["in"; "x.png"] := File (Some wide_out) ]> batch_fs) !! ["in"; "x.png"]
    = Some (File (Some img)) /\
    (<[ ["in"; "y.png"] := File (Some wide_out) ]> batch_fs) !! ["in"; "y.png"]
    = Some (File (Some img)).
Proof.
  assert (Hlib : same_library float_of_str_none float_of_str_none
                   resize_nearest resize_small blur_box blur_box).
  { split; [reflexivity|]. split; [|reflexivity].
    intros i w h r1 r2. unfold resize_nearest, resize_small.
    destruct (2 ^ 20 <? w * h); [discriminate|]. congruence. }
  assert (H1 : process_image float_of_str_none resize_nearest blur_box batch_fs
                 ["in"; "a.png"] ["in"; "x.png"] 2 (PyFloat_ one) (PyFloat_ zero)
               = (<[ ["in"; "x.png"] := File (Some wide_out) ]> batch_fs, Ok tt))
    by reflexivity.
  assert (H2 : process_image float_of_str_none resize_small blur_box batch_fs
                 ["in"; "a.png"] ["in"; "y.png"] 2 (PyFloat_ one) (PyFloat_ zero)
               = (<[ ["in"; "y.png"] := File (Some wide_out) ]> batch_fs, Ok tt))
    by reflexivity.
  destruct (process_image_deterministic _ _ _ _ _ _ _ _ _ _ _ _ _ _ _ _ _
              Hlib eq_refl H1 H2) as (src & img & Ho & Hp1 & Hp2 & Hl1 & Hl2).
  assert (Hsrc : src = wide_img).
  { assert (Hopen : image_open batch_fs ["in"; "a.png"] = Ok wide_img) by reflexivity.
    congruence. }
  subst src. exists img. auto.
Defined.



Lemma nearest_same_rgb (i1 i2 : image pixel) (w h : Z) :
  same_rgb_image i1 i2 -> same_rgb_image (nearest i1 w h) (nearest i2 w h).
Proof.
  intros H. pose proof H as (Hw & Hh & _).
  unfold same_rgb_image, nearest. cbn [width height getdata].
  split; [reflexivity|]. split; [reflexivity|].
  apply Forall2_flat_map_seq. intros y. apply Forall2_map_same. intros x.
  rewrite Hw, Hh. apply same_rgb_getpixel. exact H.
Qed.

Lemma output_independent_of_source_alpha_witness :
  process_pixels float_of_str_none resize_nearest (fun _ m => m)
    (Image 1 1 [(255, 255, 255, 255)]) 2 (PyFloat_ one) (PyFloat_ zero) =
  process_pixels float_of_str_none resize_nearest (fun _ m => m)
    (Image 1 1 [(255, 255, 255, 0)]) 2 (PyFloat_ one) (PyFloat_ zero).
Proof.
  apply (output_independent_of_source_alpha float_of_str_none resize_nearest
           (fun _ m => m)).
  - left. intros i1 i2 w h Hi. cbn. apply nearest_same_rgb. exact Hi.
  - reflexivity.
  - unfold same_rgb_image. cbn. repeat constructor.
Defined.

Lemma nonpositive_tolerance_transparent_witness :
  exists th,
    tolerance_threshold float_of_str_none (PyFloat_ (lit (-1))) = Ok th /\ th <= 0 /\
    (forall p, pixel_ok p -> mask_value th p = 0).
Proof.
  destruct (nonpositive_tolerance_transparent float_of_str_none resize_nearest blur_box
              (PyFloat_ (lit (-1))) (lit (-1))) as (Hfloor & _).
  - reflexivity.
  - vm_compute. reflexivity.
  - vm_compute. reflexivity.
  - destruct Hfloor as (th & H1 & H2 & H3 & _).
    + vm_compute. reflexivity.
    + exists th. split; [exact H1|]. split; [exact H2 | exact H3].
Defined.

(** * Further properties of the program *)

(** ** What the pipeline keeps of the source *)

Lemma same_rgb_refl (p : pixel) : same_rgb p p.
Proof. destruct p as [[[r g] b] a]. cbn. auto. Qed.

Lemma same_rgb_recombine (p : pixel) (m : Z) : same_rgb p (recombine p m).
Proof. destruct p as [[[r g] b] a]. cbn. auto. Qed.

Lemma recombined_same_rgb (datas : list pixel) (m : list Z) :
  Forall2 same_rgb datas
    (zip_with recombine datas m ++ drop (length (zip_with recombine datas m)) datas).
Proof.
  revert m. induction datas as [|p l IH]; intros m; [constructor|].
  destruct m as [|v m]; cbn.
  - constructor; [apply same_rgb_refl|].
    apply Forall2_same_length_lookup_2; [reflexivity|].
    intros i x y Hx Hy. rewrite Hx in Hy. injection Hy as <-. apply same_rgb_refl.
  - constructor; [apply same_rgb_recombine | apply IH].
Qed.

Lemma putdata_nil {A : Type} (img out : image A) :
  putdata img [] = Ok out -> out = img.
Proof.
  unfold putdata. destruct (_ <? _); [discriminate|].
  intros [= <-]. cbn. rewrite drop_0. destruct img; reflexivity.
Qed.

Section Colours.

Variable float_of_str : string -> outcome float.
Variable resize : image pixel -> Z -> Z -> outcome (image pixel).
Variable gaussian_blur : float -> image Z -> image Z.

(** What [process_pixels] returns, in terms of the cropped image and the
    (possibly blurred) mask. *)
Lemma process_pixels_data (src out : image pixel) (size : Z)
    (tolerance smoothing : pyobj) :
  process_pixels float_of_str resize gaussian_blur src size tolerance smoothing = Ok out ->
  exists img mask,
    resize_and_crop resize src size = Ok img /\
    build_mask float_of_str img tolerance = Ok mask /\
    let m := getdata (smooth gaussian_blur (normalize_smoothing float_of_str smoothing)
                        mask) in
    out = Image (width img) (height img)
            (zip_with recombine (getdata img) m
             ++ drop (length (zip_with recombine (getdata img) m)) (getdata img)).
Proof.
  unfold process_pixels. intros H.
  inv_bind H as img Himg. inv_bind H as mask Hmask. inv_bind H as img1 H1.
  apply putdata_nil in H. subst out.
  exists img, mask. split; [exact Himg|]. split; [exact Hmask|].
  cbv zeta. unfold putdata in H1. destruct (_ <? _); [discriminate|].
  injection H1 as <-. reflexivity.
Qed.

(** X1: only the alpha channel is rewritten: the colours of the output are the
    colours of the resampled and cropped source, pixel by pixel, whatever
    the tolerance, the smoothing and the blur do. *)
Theorem colours_preserved (src out : image pixel) (size : Z)
    (tolerance smoothing : pyobj) :
  process_pixels float_of_str resize gaussian_blur src size tolerance smoothing = Ok out ->
  exists img, resize_and_crop resize src size = Ok img /\ same_rgb_image img out.
Proof.
  intros H. destruct (process_pixels_data _ _ _ _ _ H) as (img & mask & Hrc & _ & ->).
  exists img. split; [exact Hrc|].
  unfold same_rgb_image. cbn [width height getdata].
  split; [reflexivity|]. split; [reflexivity|]. apply recombined_same_rgb.
Qed.

End Colours.

(** ** The crop box *)

Lemma getpixel_inside {A : Type} (d : A) (img : image A) (x y : Z) :
  0 <= x < width img -> 0 <= y < height img ->
  getpixel d img x y = nth (Z.to_nat (y * width img + x)) (getdata img) d.
Proof.
  intros Hx Hy. unfold getpixel.
  destruct (Z.leb_spec 0 x); [|lia]. destruct (Z.ltb_spec x (width img)); [|lia].
  destruct (Z.leb_spec 0 y); [|lia]. destruct (Z.ltb_spec y (height img)); [|lia].
  reflexivity.
Qed.

Lemma getpixel_In {A : Type} (d : A) (img : image A) (x y : Z) :
  image_ok img -> 0 <= x < width img -> 0 <= y < height img ->
  In (getpixel d img x y) (getdata img).
Proof.
  intros (_ & _ & Hl) Hx Hy. rewrite getpixel_inside by assumption.
  apply nth_In. apply Nat2Z.inj_lt. rewrite Hl, Z2Nat.id by nia. nia.
Qed.

(** One row of an image, read pixel by pixel. *)
Lemma row_take {A : Type} (d : A) (data : list A) (k w : nat) :
  (k + w <= length data)%nat ->
  map (fun x => nth (Z.to_nat (Z.of_nat k + x)) data d) (seqZ 0 (Z.of_nat w))
  = take w (drop k data).
Proof.
  intros Hl. apply list_eq. intros i.
  rewrite list_lookup_fmap.
  destruct (decide (i < w)%nat) as [Hi|Hi].
  - rewrite lookup_seqZ_lt by lia. cbn.
    rewrite lookup_take_lt, lookup_drop by lia.
    replace (Z.to_nat (Z.of_nat k + (0 + Z.of_nat i))) with (k + i)%nat by lia.
    rewrite nth_lookup.
    destruct (lookup_lt_is_Some_2 data (k + i)) as [v Hv]; [lia|].
    rewrite Hv. reflexivity.
  - rewrite lookup_seqZ_ge by lia. cbn.
    rewrite lookup_take_ge by lia. reflexivity.
Qed.

Lemma rows_take {A : Type} (d : A) (data : list A) (w n : nat) :
  (w * n <= length data)%nat ->
  flat_map (fun y => map (fun x => nth (Z.to_nat (y * Z.of_nat w + x)) data d)
                       (seqZ 0 (Z.of_nat w)))
           (seqZ 0 (Z.of_nat n))
  = take (w * n) data.
Proof.
  induction n as [|n IH]; intros Hl.
  - rewrite Nat.mul_0_r. reflexivity.
  - replace (Z.of_nat (S n)) with (Z.of_nat n + 1) by lia.
    rewrite seqZ_app by lia. rewrite flat_map_app, IH by lia.
    cbn [seqZ]. change (seqZ (0 + Z.of_nat n) 1) with [0 + Z.of_nat n].
    cbn [flat_map]. rewrite app_nil_r.
    replace (w * S n)%nat with (w * n + w)%nat by lia.
    rewrite <- take_take_drop. f_equal.
    rewrite <- (row_take d data (w * n) w) by lia.
    apply map_ext. intros x. do 2 f_equal. lia.
Qed.

Lemma flat_map_ext_In {A B : Type} (f g : A -> list B) (l : list A) :
  (forall y, In y l -> f y = g y) -> flat_map f l = flat_map g l.
Proof.
  induction l as [|y l IH]; intros H; [reflexivity|].
  cbn. rewrite (H y), IH; [reflexivity | | left; reflexivity].
  intros z Hz. apply H. right. exact Hz.
Qed.

Lemma In_seqZ (m n k : Z) : In k (seqZ m n) -> m <= k < m + n.
Proof. intros H. apply list_elem_of_In, elem_of_seqZ in H. exact H. Qed.

(** A crop box inside the image reads the image and nothing else. *)
Lemma crop_inside_data (img : image pixel) (x0 y0 x1 y1 : Z) :
  0 <= x0 -> x0 <= x1 <= width img -> 0 <= y0 -> y0 <= y1 <= height img ->
  crop img x0 y0 x1 y1 =
  Ok (Image (x1 - x0) (y1 - y0)
        (flat_map
           (fun y => map (fun x => nth (Z.to_nat ((y0 + y) * width img + (x0 + x)))
                                       (getdata img) transparent_black)
                       (seqZ 0 (x1 - x0)))
           (seqZ 0 (y1 - y0)))).
Proof.
  intros Hx0 Hx1 Hy0 Hy1. unfold crop.
  destruct (Z.ltb_spec x1 x0); [lia|]. destruct (Z.ltb_spec y1 y0); [lia|].
  cbn [orb]. do 2 f_equal.
  apply flat_map_ext_In. intros y Hy. apply In_seqZ in Hy.
  apply map_ext_in. intros x Hx. apply In_seqZ in Hx.
  apply getpixel_inside; lia.
Qed.

(** Cropping an image to its own frame gives the image back. *)
Lemma crop_full (img : image pixel) :
  image_ok img -> crop img 0 0 (width img) (height img) = Ok img.
Proof.
  intros (Hw & Hh & Hl).
  rewrite crop_inside_data by lia. rewrite !Z.sub_0_r.
  destruct img as [w h data]. cbn [width height getdata] in *.
  do 2 f_equal.
  transitivity (take (Z.to_nat w * Z.to_nat h) data); [|apply take_ge; nia].
  rewrite <- (rows_take transparent_black data (Z.to_nat w) (Z.to_nat h)) by nia.
  rewrite !Z2Nat.id by lia.
  apply flat_map_ext. intros y. apply map_ext. intros x. do 2 f_equal; lia.
Qed.

Section CropBox.

Variable resize : image pixel -> Z -> Z -> outcome (image pixel).

(** The resampler returns an image of the size it is asked for. *)
Hypothesis resize_dims : forall i w h r,
  0 <= w -> 0 <= h -> resize i w h = Ok r ->
  width r = w /\ height r = h /\ image_ok r.

Lemma resample_min_side (src img : image pixel) (size : Z) :
  image_ok src ->
  1 <= width src < dim_max -> 1 <= height src < dim_max -> 1 <= size < dim_max ->
  resample resize src size = Ok img ->
  image_ok img /\ size <= width img /\ size <= height img /\
  (width img = size \/ height img = size).
Proof.
  intros Hok Hw Hh Hs. unfold resample.
  destruct (scaled_size_min (width src) (height src) size Hw Hh Hs)
    as (nw & nh & -> & H1 & H2 & H3 & H4).
  cbn [obind].
  destruct (bool_decide_reflect ((nw, nh) = (width src, height src))) as [Heq|Hne].
  - intros [= <-]. injection Heq as E1 E2. split; [exact Hok|]. lia.
  - intros Hr.
    destruct (resize_dims src nw nh img) as (E1 & E2 & Hok'); [lia | lia | exact Hr |].
    split; [exact Hok'|]. lia.
Qed.

(** X2: with a resampler that returns images of the size it is asked for,
    the crop box lies inside the resampled image and is centred in it: one
    side is not cut at all, and on the other the two margins differ by at
    most one pixel (the extra one is on the right or at the bottom).  So the
    cropped image holds pixels of the resampled image only: no padding is
    ever added. *)
Theorem crop_box_centred_inside (src img out : image pixel) (size : Z) :
  image_ok src ->
  1 <= width src < dim_max -> 1 <= height src < dim_max -> 1 <= size < dim_max ->
  resample resize src size = Ok img ->
  resize_and_crop resize src size = Ok out ->
  exists x0 y0,
    crop_box (width img) (height img) size = (x0, y0, x0 + size, y0 + size) /\
    0 <= x0 /\ x0 + size <= width img /\ 0 <= y0 /\ y0 + size <= height img /\
    0 <= (width img - (x0 + size)) - x0 <= 1 /\
    0 <= (height img - (y0 + size)) - y0 <= 1 /\
    (x0 = 0 /\ width img = size \/ y0 = 0 /\ height img = size) /\
    Forall (fun p => In p (getdata img)) (getdata out).
Proof.
  intros Hok Hw Hh Hs Hres Hrc.
  destruct (resample_min_side src img size Hok Hw Hh Hs Hres) as (Hoki & H1 & H2 & H3).
  unfold resize_and_crop in Hrc. rewrite Hres in Hrc. cbn [obind] in Hrc.
  unfold crop_box in *.
  set (x0 := Z.max 0 ((width img - size) / 2)) in *.
  set (y0 := Z.max 0 ((height img - size) / 2)) in *.
  assert (Hx : 0 <= x0 /\ 2 * x0 <= width img - size <= 2 * x0 + 1).
  { unfold x0. pose proof (Z.div_mod (width img - size) 2 ltac:(lia)).
    pose proof (Z.mod_pos_bound (width img - size) 2 ltac:(lia)). lia. }
  assert (Hy : 0 <= y0 /\ 2 * y0 <= height img - size <= 2 * y0 + 1).
  { unfold y0. pose proof (Z.div_mod (height img - size) 2 ltac:(lia)).
    pose proof (Z.mod_pos_bound (height img - size) 2 ltac:(lia)). lia. }
  exists x0, y0. split; [reflexivity|].
  do 7 (split; [lia|]).
  rewrite crop_inside_data in Hrc by lia. injection Hrc as <-. cbn [getdata].
  apply List.Forall_forall. intros p Hp.
  apply in_flat_map in Hp. destruct Hp as (y & Hy' & Hp). apply In_seqZ in Hy'.
  apply in_map_iff in Hp. destruct Hp as (x & <- & Hx'). apply In_seqZ in Hx'.
  rewrite <- getpixel_inside by lia.
  apply getpixel_In; [exact Hoki | lia | lia].
Qed.

End CropBox.

(** ** Running the tool on its own output *)

Lemma scaled_size_square (size : Z) :
  1 <= size < dim_max -> scaled_size size size size = Ok (size, size).
Proof.
  intros Hs.
  destruct (scaled_size_min size size size Hs Hs Hs) as (nw & nh & -> & _ & _ & H3 & H4).
  rewrite H3, H4 by lia. reflexivity.
Qed.

Section Idempotence.

Variable float_of_str : string -> outcome float.
Variable resize : image pixel -> Z -> Z -> outcome (image pixel).
Variable gaussian_blur : float -> image Z -> image Z.

(** A square image of the requested size is neither resampled nor cut. *)
Lemma resize_and_crop_square (img : image pixel) (size : Z) :
  1 <= size < dim_max -> image_ok img -> width img = size -> height img = size ->
  resize_and_crop resize img size = Ok img.
Proof.
  intros Hs Hok Hw Hh. unfold resize_and_crop, resample.
  rewrite Hw, Hh, (scaled_size_square size Hs). cbn [obind].
  rewrite bool_decide_eq_true_2 by reflexivity. cbn [obind].
  unfold crop_box. rewrite Hw, Hh, Z.sub_diag. cbn [Z.div Z.max Z.compare].
  change (Z.max 0 (0 / 2)) with 0. rewrite Z.add_0_l.
  rewrite <- Hw at 1. rewrite <- Hh. apply crop_full. exact Hok.
Qed.

(** X3: the pixel pipeline of [process_image] is idempotent: fed with an
    image it produced, with the same size (at least 1), tolerance and
    smoothing, it produces that image again. *)
Theorem process_pixels_idempotent (src out : image pixel) (size : Z)
    (tolerance smoothing : pyobj) :
  1 <= size < dim_max ->
  process_pixels float_of_str resize gaussian_blur src size tolerance smoothing = Ok out ->
  process_pixels float_of_str resize gaussian_blur out size tolerance smoothing = Ok out.
Proof.
  intros Hs H.
  destruct (process_pixels_dims float_of_str resize gaussian_blur _ _ _ _ _ H)
    as (Hwo & Hho & Hoko).
  destruct (process_pixels_data float_of_str resize gaussian_blur _ _ _ _ _ H)
    as (img & mask & Hrc & Hmask & Hout).
  cbv zeta in Hout.
  set (m := getdata (smooth gaussian_blur (normalize_smoothing float_of_str smoothing)
                       mask)) in *.
  pose proof (recombined_same_rgb (getdata img) m) as Hsame.
  assert (Himg : same_rgb_image img out).
  { rewrite Hout. unfold same_rgb_image. cbn [width height getdata]. auto. }
  unfold process_pixels.
  rewrite (resize_and_crop_square out size Hs Hoko Hwo Hho). cbn [obind].
  rewrite <- (build_mask_same_rgb float_of_str img out tolerance Himg), Hmask.
  cbn [obind]. fold m.
  assert (Hz : zip_with recombine (getdata out) m = zip_with recombine (getdata img) m).
  { symmetry. apply zip_recombine_same_rgb. destruct Himg as (_ & _ & Hd). exact Hd. }
  rewrite Hz.
  assert (Hput : putdata out (zip_with recombine (getdata img) m) = Ok out).
  { unfold putdata.
    destruct (Z.ltb_spec (width out * height out)
                (Z.of_nat (length (zip_with recombine (getdata img) m)))) as [Hlt|_].
    - exfalso. destruct Hoko as (_ & _ & Hl). rewrite <- Hl in Hlt.
      rewrite Hout in Hlt. cbn [getdata] in Hlt. rewrite length_app in Hlt. lia.
    - rewrite Hout. cbn [width height getdata].
      rewrite drop_app_length. reflexivity. }
  rewrite Hput. cbn [obind].
  unfold putdata. cbn [length].
  destruct (Z.ltb_spec (width out * height out) (Z.of_nat 0)) as [Hlt|_].
  - exfalso. destruct Hoko as (Hw0 & Hh0 & _). nia.
  - cbn [app]. rewrite drop_0. destruct out; reflexivity.
Qed.

End Idempotence.

(** ** The range of the threshold and the legacy scale *)

Lemma legacy_value_range (t : float) : 0 <= legacy_value t <= 2 ^ scale_exp.
Proof.
  pose proof scale_pow_pos. destruct t as [s|s| |s m e]; cbn [legacy_value]; lia.
Qed.

Lemma scaled_255 : valid (lit 255) = true /\ finite_ok (lit 255) /\
                   scaled (lit 255) = 255 * 2 ^ scale_exp.
Proof.
  rewrite lit_255. split; [reflexivity|]. split; [cbn; lia|].
  vm_compute. reflexivity.
Qed.

Lemma legacy_value_saturates (t : float) :
  valid t = true -> leb (lit 255) t = true -> legacy_value t = 2 ^ scale_exp.
Proof.
  intros Hv Hle. pose proof scale_pow_pos as HP.
  destruct scaled_255 as (Hv255 & Hf255 & Hs255).
  destruct t as [s|s| |s m e]; try reflexivity.
  pose proof (valid_finite_ok _ Hv) as Hf.
  rewrite (leb_scaled _ _ Hv255 Hv Hf255 Hf), Hs255 in Hle. apply Z.leb_le in Hle.
  cbn [legacy_value].
  assert (H1 : round_fmt (1 * 2 ^ scale_exp * 255) 255 = 1 * 2 ^ scale_exp).
  { apply round_fmt_exact; [lia | split; [lia | reflexivity] | unfold fmt_lo; lia]. }
  assert (H2 : round_fmt (1 * 2 ^ scale_exp * 255) 255
               <= round_fmt (Z.abs (scaled (S754_finite s m e))) 255).
  { apply round_fmt_mono; lia. }
  lia.
Qed.

Section ThresholdRange.

Variable float_of_str : string -> outcome float.

(** X4: every tolerance that is not negative and not NaN, infinity included,
    gives a threshold, and the threshold is a byte value; from 255.0 on it is
    255. *)
Theorem threshold_is_byte (t : float) :
  valid t = true -> leb zero t = true ->
  exists th, tolerance_threshold float_of_str (PyFloat_ t) = Ok th /\
             0 <= th <= 255 /\
             (leb (lit 255) t = true -> th = 255).
Proof.
  intros Hv H0. pose proof scale_pow_pos as HP.
  destruct valid_zero as [Hv0 Hf0]. destruct valid_one as [Hv1 Hf1].
  rewrite tolerance_threshold_float.
  destruct (ltb one t) eqn:Hlt.
  - destruct (legacy_normalized t Hv Hlt) as (Hvr & Hfr & Hsr & Hr1).
    cbv zeta in Hvr, Hfr, Hsr, Hr1.
    set (r := py_max zero (py_min one (SFdiv prec emax t (lit 255)))) in *.
    pose proof (legacy_value_range t) as Hrange.
    destruct (threshold_of_mono zero r 0 Hv0 Hvr Hf0 Hfr) as (th & Hth & Hlo & Hhi);
      [cbn [scaled zero]; lia | exact Hr1 | exact threshold_of_zero |].
    exists th. split; [exact Hth|]. split; [lia|].
    intros H255.
    rewrite (legacy_value_saturates t Hv H255), <- scaled_one in Hsr.
    destruct (threshold_of_mono one r 255 Hv1 Hvr Hf1 Hfr) as (th' & Hth' & Hlo' & Hhi');
      [lia | exact Hr1 | exact threshold_of_one |].
    rewrite Hth in Hth'. injection Hth' as <-. lia.
  - assert (Hf : finite_ok t).
    { destruct t as [s|[|]| |s m e]; try exact I; try discriminate.
      apply (valid_finite_ok _ Hv). }
    rewrite (leb_scaled _ _ Hv0 Hv Hf0 Hf) in H0. apply Z.leb_le in H0.
    cbn [scaled zero] in H0.
    rewrite (ltb_scaled _ _ Hv1 Hv Hf1 Hf), scaled_one in Hlt. apply Z.ltb_ge in Hlt.
    destruct (threshold_of_mono zero t 0 Hv0 Hv Hf0 Hf) as (th & Hth & Hlo & Hhi);
      [cbn [scaled zero]; lia | exact Hlt | exact threshold_of_zero |].
    exists th. split; [exact Hth|]. split; [lia|].
    intros H255. exfalso.
    destruct scaled_255 as (Hv255 & Hf255 & Hs255).
    rewrite (leb_scaled _ _ Hv255 Hv Hf255 Hf), Hs255 in H255. apply Z.leb_le in H255.
    lia.
Qed.

(** X5: the legacy scale: an integer tolerance [k] from 2 to 255, passed as an
    int or as the float [k.0], gives exactly the threshold [k]. *)
Theorem legacy_tolerance_is_threshold (k : Z) :
  2 <= k <= 255 ->
  tolerance_threshold float_of_str (PyInt k) = Ok k /\
  tolerance_threshold float_of_str (PyFloat_ (lit k)) = Ok k.
Proof.
  intros Hk.
  assert (Htab : forallb
            (fun k => match tolerance_threshold float_of_str_none (PyInt k),
                            tolerance_threshold float_of_str_none (PyFloat_ (lit k)) with
                      | Ok a, Ok b => (a =? k) && (b =? k)
                      | _, _ => false
                      end) (seqZ 2 254) = true) by (vm_compute; reflexivity).
  rewrite forallb_forall in Htab.
  specialize (Htab k). 
  assert (Hin : In k (seqZ 2 254)) by (apply list_elem_of_In, elem_of_seqZ; lia).
  specialize (Htab Hin).
  change (tolerance_threshold float_of_str (PyInt k))
    with (tolerance_threshold float_of_str_none (PyInt k)).
  change (tolerance_threshold float_of_str (PyFloat_ (lit k)))
    with (tolerance_threshold float_of_str_none (PyFloat_ (lit k))).
  destruct (tolerance_threshold float_of_str_none (PyInt k)) as [a|]; [|discriminate].
  destruct (tolerance_threshold float_of_str_none (PyFloat_ (lit k))) as [b|];
    [|discriminate].
  apply andb_true_iff in Htab. destruct Htab as [Ha Hb].
  apply Z.eqb_eq in Ha, Hb. subst. auto.
Qed.

End ThresholdRange.

(** ** What a run leaves on the file system *)

Lemma makedirs_keeps (fs fs' : gmap path node) (p q : path) (n : node) :
  makedirs fs p = Ok fs' -> fs !! q = Some n -> fs' !! q = Some n.
Proof.
  intros H Hq. destruct (makedirs_from_adds_dirs p fs fs' [] q H) as [E|[E _]].
  - rewrite E. exact Hq.
  - rewrite E in Hq. discriminate.
Qed.

Lemma dest_path_of_prefix (a : args) (src : path) :
  output a `prefix_of` dest_path_of a src.
Proof. unfold dest_path_of. apply prefix_app_r. reflexivity. Qed.

Section FileSystem.

Variable float_of_str : string -> outcome float.
Variable resize : image pixel -> Z -> Z -> outcome (image pixel).
Variable gaussian_blur : float -> image Z -> image Z.

(** The step of the loop for one file: the directories it may create and
    the file it may write. *)
Lemma batch_step_dir (a : args) (fs fs1 : gmap path node) (src q : path) :
  (if negb (isdir fs (dirname (dest_path_of a src)))
   then makedirs fs (dirname (dest_path_of a src)) else Ok fs) = Ok fs1 ->
  fs1 !! q = fs !! q \/ (fs !! q = None /\ fs1 !! q = Some Dir).
Proof.
  destruct (negb (isdir fs (dirname (dest_path_of a src)))).
  - apply makedirs_from_adds_dirs.
  - intros [= <-]. left. reflexivity.
Qed.

(** An entry that is there when the loop starts is still there, unchanged,
    when it ends, unless it is a file some source is written to. *)
Lemma batch_frame (a : args) (pngs : list path) (fs : gmap path node)
    (out : list line) (q : path) (n : node) :
  fs !! q = Some n ->
  (n = Dir \/ ~ In q (map (dest_path_of a) pngs)) ->
  final_fs (batch float_of_str resize gaussian_blur a pngs fs out) !! q = Some n.
Proof.
  revert fs out. induction pngs as [|src pngs IH]; intros fs out Hq Hn.
  - exact Hq.
  - cbn [batch].
    destruct (if negb (isdir fs (dirname (dest_path_of a src)))
              then makedirs fs (dirname (dest_path_of a src)) else Ok fs)
      as [fs1|e] eqn:Hmk; [|exact Hq].
    assert (Hq1 : fs1 !! q = Some n).
    { destruct (batch_step_dir a fs fs1 src q Hmk) as [E|[E _]]; congruence. }
    assert (Hn' : n = Dir \/ ~ In q (map (dest_path_of a) pngs)).
    { destruct Hn as [Hn|Hn]; [left; exact Hn | right]. intros Hin. apply Hn.
      right. exact Hin. }
    assert (Hne : forall c, fs1 !! dest_path_of a src = Some (File c) \/
                            fs1 !! dest_path_of a src <> Some Dir ->
                  dest_path_of a src <> q).
    { intros c Hc <-. destruct Hn as [->|Hn].
      - destruct Hc as [Hc|Hc]; congruence.
      - apply Hn. left. reflexivity. }
    destruct (process_image float_of_str resize gaussian_blur fs1 src
                (dest_path_of a src) (size a) (PyFloat_ (tolerance a))
                (PyFloat_ (smoothing a))) as [fs2 [[]|e]] eqn:Hpi.
    + apply IH; [|exact Hn'].
      apply process_image_ok in Hpi.
      destruct Hpi as (s & img & _ & _ & Hnd & _ & _ & ->).
      rewrite lookup_insert_ne; [exact Hq1|].
      apply (Hne None). right. exact Hnd.
    + apply IH; [|exact Hn'].
      apply process_image_raise in Hpi. destruct Hpi as [->|(_ & (c & Hc) & ->)];
        [exact Hq1|].
      rewrite lookup_insert_ne; [exact Hq1|].
      apply (Hne c). left. exact Hc.
Qed.

(** X6: [main] never removes or alters what it finds outside the output
    directory, and it never replaces a directory, wherever it is, by a
    file. *)
Theorem main_keeps_existing_entries (a : args) (fs : gmap path node)
    (q : path) (n : node) :
  fs !! q = Some n ->
  n = Dir \/ ~ output a `prefix_of` q ->
  final_fs (main float_of_str resize gaussian_blur a fs) !! q = Some n.
Proof.
  intros Hq Hn. unfold main.
  destruct (negb (isdir fs (input a))); [exact Hq|].
  destruct (makedirs fs (output a)) as [fs1|e] eqn:Hmk; [|exact Hq].
  pose proof (makedirs_keeps _ _ _ _ _ Hmk Hq) as Hq1.
  destruct (gather_pngs a fs1) as [|src pngs] eqn:Hg; [exact Hq1|].
  apply batch_frame; [exact Hq1|].
  destruct Hn as [Hn|Hn]; [left; exact Hn | right].
  intros Hin. apply in_map_iff in Hin. destruct Hin as (s & <- & _).
  apply Hn. apply dest_path_of_prefix.
Qed.

End FileSystem.

(** ** The files that are gathered and where they go *)

Lemma last_dirname (q : path) (f : string) :
  last q = Some f <-> q = dirname q ++ [f].
Proof.
  split.
  - intros H. apply last_Some in H. destruct H as [l ->].
    rewrite dirname_snoc. reflexivity.
  - intros ->. apply last_snoc.
Qed.

Lemma NoDup_omap {A B : Type} (g : A -> option B) (l : list A) :
  (forall x y z, x ∈ l -> y ∈ l -> g x = Some z -> g y = Some z -> x = y) ->
  NoDup l -> NoDup (omap g l).
Proof.
  intros Hinj Hnd. induction Hnd as [|x l Hx Hnd IH]; [constructor|].
  assert (IH' : NoDup (omap g l)).
  { apply IH. intros a b z Ha Hb. apply Hinj; right; assumption. }
  simpl. destruct (g x) as [z|] eqn:Hgx; [|exact IH'].
  apply NoDup_cons. split; [|exact IH'].
  intros Hz. apply list_elem_of_omap in Hz. destruct Hz as (y & Hy & Hgy).
  apply Hx. rewrite (Hinj x y z); [exact Hy | left | right; exact Hy | exact Hgx | exact Hgy].
Qed.

Lemma elem_of_listdir (fs : gmap path node) (d : path) (f : string) :
  f ∈ listdir fs d <-> is_Some (fs !! (d ++ [f])).
Proof.
  unfold listdir. rewrite list_elem_of_omap. split.
  - intros ([q n] & Hin & Hg). apply elem_of_map_to_list in Hin.
    destruct (bool_decide_reflect (dirname q = d)) as [Hd|]; [|discriminate].
    apply last_dirname in Hg. rewrite Hd in Hg. rewrite <- Hg. eauto.
  - intros [n Hn]. exists (d ++ [f], n). split.
    + apply elem_of_map_to_list. exact Hn.
    + rewrite dirname_snoc, bool_decide_eq_true_2 by reflexivity. apply last_snoc.
Qed.

Lemma NoDup_listdir (fs : gmap path node) (d : path) : NoDup (listdir fs d).
Proof.
  unfold listdir. apply NoDup_omap; [|apply NoDup_map_to_list].
  intros [q1 n1] [q2 n2] f H1 H2 G1 G2.
  apply elem_of_map_to_list in H1, H2.
  destruct (bool_decide_reflect (dirname q1 = d)) as [D1|]; [|discriminate].
  destruct (bool_decide_reflect (dirname q2 = d)) as [D2|]; [|discriminate].
  apply last_dirname in G1, G2. rewrite D1 in G1. rewrite D2 in G2.
  assert (E : q1 = q2) by congruence.
  f_equal; [exact E|]. rewrite E in H1. congruence.
Qed.

Lemma elem_of_walk_files (fs : gmap path node) (d p : path) :
  p ∈ walk_files fs d <-> d `prefix_of` p /\ exists c, fs !! p = Some (File c).
Proof.
  unfold walk_files. rewrite list_elem_of_omap. split.
  - intros ([q n] & Hin & Hg). apply elem_of_map_to_list in Hin.
    destruct n as [|c]; [discriminate|].
    destruct (bool_decide_reflect (d `prefix_of` q)) as [Hd|]; [|discriminate].
    injection Hg as <-. eauto.
  - intros (Hd & c & Hc). exists (p, File c). split.
    + apply elem_of_map_to_list. exact Hc.
    + rewrite bool_decide_eq_true_2 by exact Hd. reflexivity.
Qed.

Lemma NoDup_walk_files (fs : gmap path node) (d : path) : NoDup (walk_files fs d).
Proof.
  unfold walk_files. apply NoDup_omap; [|apply NoDup_map_to_list].
  intros [q1 n1] [q2 n2] p H1 H2 G1 G2.
  apply elem_of_map_to_list in H1, H2.
  destruct n1 as [|c1]; [discriminate|]. destruct n2 as [|c2]; [discriminate|].
  destruct (bool_decide (d `prefix_of` q1)); [|discriminate].
  destruct (bool_decide (d `prefix_of` q2)); [|discriminate].
  injection G1 as E1. injection G2 as E2.
  assert (E : q1 = q2) by congruence.
  f_equal; [exact E|]. rewrite E in H1. congruence.
Qed.

(** X7: which paths are gathered from an input directory: the entries whose
    name ends in [.png], in any letter case; without [--recursive] the
    entries of the input directory itself, directories included, with it the
    regular files anywhere below it. *)
Theorem gather_pngs_spec (a : args) (fs : gmap path node) (p : path) :
  isdir fs (input a) = true ->
  In p (gather_pngs a fs) <->
  exists f, last p = Some f /\ is_png f = true /\
    if recursive a
    then input a `prefix_of` p /\ exists c, fs !! p = Some (File c)
    else dirname p = input a /\ is_Some (fs !! p).
Proof.
  intros _. unfold gather_pngs. destruct (recursive a).
  - rewrite filter_In, <- list_elem_of_In, elem_of_walk_files. split.
    + intros (Hw & Hf). destruct (last p) as [f|]; [|discriminate].
      exists f. auto.
    + intros (f & -> & Hf & Hw). auto.
  - rewrite in_map_iff. split.
    + intros (f & <- & Hf). apply filter_In in Hf. destruct Hf as [Hl Hf].
      apply list_elem_of_In, elem_of_listdir in Hl.
      exists f. rewrite last_snoc, dirname_snoc. auto.
    + intros (f & Hl & Hf & Hd & Hs). apply last_dirname in Hl. rewrite Hd in Hl.
      exists f. split; [symmetry; exact Hl|].
      apply filter_In. split; [|exact Hf].
      apply list_elem_of_In, elem_of_listdir. rewrite <- Hl. exact Hs.
Qed.

Lemma NoDup_gather_pngs (a : args) (fs : gmap path node) : NoDup (gather_pngs a fs).
Proof.
  unfold gather_pngs. destruct (recursive a).
  - apply NoDup_ListNoDup, List.NoDup_filter, NoDup_ListNoDup, NoDup_walk_files.
  - apply NoDup_fmap_2_strong;
      [|apply NoDup_ListNoDup, List.NoDup_filter, NoDup_ListNoDup, NoDup_listdir].
    intros f1 f2 _ _ E. apply app_inv_head in E. congruence.
Qed.

Lemma gathered_shape (a : args) (fs : gmap path node) (p : path) :
  In p (gather_pngs a fs) ->
  exists rel, p = input a ++ rel /\ (recursive a = false -> exists f, rel = [f]).
Proof.
  unfold gather_pngs. destruct (recursive a).
  - intros H. apply filter_In in H. destruct H as [H _].
    apply list_elem_of_In, elem_of_walk_files in H. destruct H as [[rel ->] _].
    exists rel. split; [reflexivity | discriminate].
  - intros H. apply in_map_iff in H. destruct H as (f & <- & _).
    exists [f]. split; [reflexivity | eauto].
Qed.

Lemma dest_path_of_inj (a : args) (fs : gmap path node) (p q : path) :
  In p (gather_pngs a fs) -> In q (gather_pngs a fs) ->
  dest_path_of a p = dest_path_of a q -> p = q.
Proof.
  intros Hp Hq. 
  destruct (gathered_shape a fs p Hp) as (rp & -> & Fp).
  destruct (gathered_shape a fs q Hq) as (rq & -> & Fq).
  unfold dest_path_of. rewrite !drop_app_length.
  destruct (recursive a).
  - intros E. apply app_inv_head in E. congruence.
  - destruct (Fp eq_refl) as [f ->]. destruct (Fq eq_refl) as [g ->].
    cbn. intros E. apply app_inv_head in E. congruence.
Qed.

Lemma NoDup_destinations (a : args) (fs : gmap path node) :
  NoDup (map (dest_path_of a) (gather_pngs a fs)).
Proof.
  apply NoDup_fmap_2_strong; [|apply NoDup_gather_pngs].
  intros p q Hp Hq. apply (dest_path_of_inj a fs); apply list_elem_of_In; assumption.
Qed.

(** X8: no two gathered files are the same, and no two of them are written to
    the same place: an output is never overwritten by another one of the
    same run. *)
Theorem destinations_distinct (a : args) (fs : gmap path node) :
  NoDup (gather_pngs a fs) /\ NoDup (map (dest_path_of a) (gather_pngs a fs)).
Proof.
  split; [apply NoDup_gather_pngs|].
  apply NoDup_fmap_2_strong; [|apply NoDup_gather_pngs].
  intros p q Hp Hq E. apply (dest_path_of_inj a fs p q); [| |exact E];
    apply list_elem_of_In; assumption.
Qed.

Section Outputs.

Variable float_of_str : string -> outcome float.
Variable resize : image pixel -> Z -> Z -> outcome (image pixel).
Variable gaussian_blur : float -> image Z -> image Z.

Lemma batch_processed (a : args) (pngs : list path) (fs : gmap path node)
    (out : list line) :
  NoDup (map (dest_path_of a) pngs) ->
  forall src dest,
    In (Processed src dest)
       (stdout (batch float_of_str resize gaussian_blur a pngs fs out)) ->
    In (Processed src dest) out \/
    (In src pngs /\ dest = dest_path_of a src /\
     exists img,
       final_fs (batch float_of_str resize gaussian_blur a pngs fs out) !! dest
         = Some (File (Some img)) /\
       width img = size a /\ height img = size a).
Proof.
  revert fs out. induction pngs as [|s pngs IH]; intros fs out Hnd src dest Hin.
  - left. exact Hin.
  - cbn [map] in Hnd. apply NoDup_cons in Hnd. destruct Hnd as [Hs Hnd].
    cbn [batch] in Hin |- *.
    destruct (if negb (isdir fs (dirname (dest_path_of a s)))
              then makedirs fs (dirname (dest_path_of a s)) else Ok fs)
      as [fs1|e] eqn:Hmk; [|left; exact Hin].
    destruct (process_image float_of_str resize gaussian_blur fs1 s
                (dest_path_of a s) (size a) (PyFloat_ (tolerance a))
                (PyFloat_ (smoothing a))) as [fs2 [[]|e]] eqn:Hpi.
    + destruct (IH _ _ Hnd _ _ Hin) as [Hout|(Hsrc & Hd & img & Hf & Hw & Hh)].
      * apply in_app_or in Hout. destruct Hout as [Hout|[E|[]]]; [left; exact Hout|].
        injection E as <- <-. right.
        split; [left; reflexivity|]. split; [reflexivity|].
        apply process_image_ok in Hpi.
        destruct Hpi as (s0 & img & _ & Hpp & _ & _ & _ & ->).
        exists img.
        destruct (process_pixels_dims float_of_str resize gaussian_blur _ _ _ _ _ Hpp)
          as (Hw & Hh & _).
        split; [|split; assumption].
        apply batch_frame; [apply lookup_insert_eq|].
        right. intros Hds. apply Hs. apply list_elem_of_In. exact Hds.
      * right. split; [right; exact Hsrc|]. split; [exact Hd|]. exists img. auto.
    + destruct (IH _ _ Hnd _ _ Hin) as [Hout|(Hsrc & Hd & img & Hf & Hw & Hh)].
      * apply in_app_or in Hout. destruct Hout as [Hout|[E|[]]]; [left; exact Hout|].
        discriminate.
      * right. split; [right; exact Hsrc|]. split; [exact Hd|]. exists img. auto.
Qed.

(** X9: every file reported as processed is in the output when the run ends:
    its destination, the place of the source under the output directory,
    holds a [size] by [size] image. *)
Theorem processed_files_are_written (a : args) (fs : gmap path node)
    (src dest : path) :
  In (Processed src dest) (stdout (main float_of_str resize gaussian_blur a fs)) ->
  dest = dest_path_of a src /\
  output a `prefix_of` dest /\
  exists img,
    final_fs (main float_of_str resize gaussian_blur a fs) !! dest
      = Some (File (Some img)) /\
    width img = size a /\ height img = size a.
Proof.
  unfold main.
  destruct (negb (isdir fs (input a))); [intros [E|[]]; discriminate|].
  destruct (makedirs fs (output a)) as [fs1|e]; [|intros []].
  destruct (gather_pngs a fs1) as [|s pngs] eqn:Hg; [intros [E|[]]; discriminate|].
  intros Hin.
  destruct (batch_processed a (s :: pngs) fs1 [] ltac:(rewrite <- Hg; apply NoDup_destinations) _ _ Hin)
    as [[]|(_ & Hd & img & Hf & Hw & Hh)].
  split; [exact Hd|]. split; [rewrite Hd; apply dest_path_of_prefix|].
  exists img. auto.
Qed.

End Outputs.

(** ** A tolerance no threshold can be computed from *)

Section UnusableTolerance.

Variable float_of_str : string -> outcome float.
Variable resize : image pixel -> Z -> Z -> outcome (image pixel).
Variable gaussian_blur : float -> image Z -> image Z.

Lemma process_image_without_threshold (fs : gmap path node)
    (in_path out_path : path) (size : Z) (tolerance smoothing : pyobj) (e : exn) :
  tolerance_threshold float_of_str tolerance = Raise e ->
  exists e', process_image float_of_str resize gaussian_blur fs in_path out_path size
               tolerance smoothing = (fs, Raise e').
Proof.
  intros H. unfold process_image.
  destruct (image_open fs in_path) as [src|e0]; cbn [obind]; [|eauto].
  destruct (process_pixels_needs_threshold float_of_str resize gaussian_blur
              src size tolerance smoothing e H) as [e' ->].
  eauto.
Qed.

Lemma batch_without_threshold (a : args) (e : exn) (pngs : list path)
    (fs : gmap path node) (out : list line) :
  tolerance_threshold float_of_str (PyFloat_ (tolerance a)) = Raise e ->
  Forall not_processed out ->
  Forall not_processed (stdout (batch float_of_str resize gaussian_blur a pngs fs out)) /\
  forall q, final_fs (batch float_of_str resize gaussian_blur a pngs fs out) !! q = fs !! q \/
            (fs !! q = None /\
             final_fs (batch float_of_str resize gaussian_blur a pngs fs out) !! q
             = Some Dir).
Proof.
  intros Hth. revert fs out. induction pngs as [|s pngs IH]; intros fs out Hout.
  - cbn. split; [exact Hout | auto].
  - cbn [batch].
    destruct (if negb (isdir fs (dirname (dest_path_of a s)))
              then makedirs fs (dirname (dest_path_of a s)) else Ok fs)
      as [fs1|e1] eqn:Hmk; [|cbn; split; [exact Hout | auto]].
    destruct (process_image_without_threshold fs1 s (dest_path_of a s) (size a)
                (PyFloat_ (tolerance a)) (PyFloat_ (smoothing a)) e Hth) as [e2 ->].
    + destruct (IH fs1 (out ++ [Failed s e2])) as [H1 H2].
      { apply Forall_app. split; [exact Hout|]. constructor; [exact I | constructor]. }
      split; [exact H1|]. intros q.
      destruct (batch_step_dir a fs fs1 s q Hmk) as [E|[E1 E2]];
        destruct (H2 q) as [F|[F1 F2]].
      * left. congruence.
      * right. split; congruence.
      * right. split; congruence.
      * congruence.
Qed.

(** X10: when the tolerance gives no threshold (NaN raises [ValueError], a value
    whose product with 255 overflows raises [OverflowError]) no file is
    reported as processed and no file is written or changed: all the run may
    add to the file system is directories. *)
Theorem no_threshold_no_output (a : args) (fs : gmap path node) (e : exn) :
  tolerance_threshold float_of_str (PyFloat_ (tolerance a)) = Raise e ->
  Forall not_processed (stdout (main float_of_str resize gaussian_blur a fs)) /\
  forall q,
    final_fs (main float_of_str resize gaussian_blur a fs) !! q = fs !! q \/
    (fs !! q = None /\
     final_fs (main float_of_str resize gaussian_blur a fs) !! q = Some Dir).
Proof.
  intros Hth. unfold main.
  destruct (negb (isdir fs (input a))).
  { cbn. split; [repeat constructor | auto]. }
  destruct (makedirs fs (output a)) as [fs1|e1] eqn:Hmk.
  2: { cbn. split; [constructor | auto]. }
  assert (Hfs1 : forall q, fs1 !! q = fs !! q \/ (fs !! q = None /\ fs1 !! q = Some Dir)).
  { intros q. apply (makedirs_from_adds_dirs _ _ _ _ q Hmk). }
  destruct (gather_pngs a fs1) as [|s pngs].
  { cbn. split; [repeat constructor | exact Hfs1]. }
  destruct (batch_without_threshold a e (s :: pngs) fs1 [] Hth ltac:(constructor))
    as [H1 H2].
  split; [exact H1|]. intros q.
  destruct (Hfs1 q) as [E|[E1 E2]]; destruct (H2 q) as [F|[F1 F2]].
  - left. congruence.
  - right. split; congruence.
  - right. split; congruence.
  - congruence.
Qed.

(** X11: once the output directory has been created it is there when the run
    ends, with all its ancestors, also when no PNG is found, every file
    fails or an exception escapes the loop. *)
Theorem output_directory_exists (a : args) (fs fs1 : gmap path node) :
  isdir fs (input a) = true ->
  makedirs fs (output a) = Ok fs1 ->
  dirs_on_path (final_fs (main float_of_str resize gaussian_blur a fs)) (output a) /\
  isdir (final_fs (main float_of_str resize gaussian_blur a fs)) (input a) = true.
Proof.
  intros Hin Hmk.
  assert (Hkeep : forall q, fs1 !! q = Some Dir ->
            final_fs (main float_of_str resize gaussian_blur a fs) !! q = Some Dir).
  { intros q Hq. unfold main. rewrite Hin, Hmk. cbn [negb].
    destruct (gather_pngs a fs1) as [|s pngs]; [exact Hq|].
    apply batch_frame; [exact Hq | left; reflexivity]. }
  split.
  - intros k Hk. apply Hkeep. apply (makedirs_dirs_on_path _ _ _ Hmk k Hk).
  - unfold isdir in *. rewrite (Hkeep (input a)); [reflexivity|].
    destruct (fs !! input a) as [[|c]|] eqn:E; try discriminate.
    apply (makedirs_keeps _ _ _ _ _ Hmk E).
Qed.

End UnusableTolerance.

(** ** File names *)

Local Open Scope string_scope.

Lemma length_lower (s : string) : String.length (lower s) = String.length s.
Proof. induction s as [|c s IH]; cbn; [reflexivity | rewrite IH; reflexivity]. Qed.

Lemma lower_append_inv (f x y : string) :
  lower f = x ++ y -> exists a b, f = a ++ b /\ lower a = x /\ lower b = y.
Proof.
  revert f. induction x as [|c x IH]; intros f H.
  - exists "", f. auto.
  - destruct f as [|d f]; [discriminate|]. cbn in H. injection H as Hc H.
    destruct (IH f H) as (a & b & -> & Ha & Hb).
    exists (String d a), b. cbn. rewrite Ha, Hc. auto.
Qed.

Lemma lower_append (a b : string) : lower (a ++ b) = lower a ++ lower b.
Proof.
  induction a as [|c a IH]; [reflexivity|].
  change (String (lower_ascii c) (lower (a ++ b))
          = String (lower_ascii c) (lower a ++ lower b)).
  rewrite IH. reflexivity.
Qed.

Lemma substring_all (s : string) : substring 0 (String.length s) s = s.
Proof. induction s as [|c s IH]; cbn; [reflexivity | rewrite IH; reflexivity]. Qed.

Lemma substring_suffix (stem suf : string) :
  substring (String.length stem) (String.length suf) (stem ++ suf) = suf.
Proof. induction stem as [|c stem IH]; [apply substring_all | exact IH]. Qed.

Lemma substring_split (s : string) (i : nat) :
  (i <= String.length s)%nat ->
  s = substring 0 i s ++ substring i (String.length s - i) s.
Proof.
  revert i. induction s as [|c s IH]; intros i Hi.
  - destruct i; reflexivity.
  - destruct i as [|i].
    + change (String c s = substring 0 (String.length (String c s)) (String c s)).
      rewrite substring_all. reflexivity.
    + cbn in Hi.
      change (String c s = String c (substring 0 i s
                                     ++ substring i (String.length s - i) s)).
      f_equal. apply IH. lia.
Qed.

Lemma length_append (a b : string) :
  String.length (a ++ b) = (String.length a + String.length b)%nat.
Proof.
  induction a as [|c a IH]; [reflexivity|].
  change (S (String.length (a ++ b)) = S (String.length a + String.length b)).
  rewrite IH. reflexivity.
Qed.

Lemma endswith_spec (s suf : string) :
  endswith s suf = true <-> exists stem, s = stem ++ suf.
Proof.
  unfold endswith. rewrite andb_true_iff, Nat.leb_le, String.eqb_eq. split.
  - intros [Hk Hs]. exists (substring 0 (String.length s - String.length suf) s).
    pose proof (substring_split s (String.length s - String.length suf) ltac:(lia))
      as H.
    replace (String.length s - (String.length s - String.length suf))%nat
      with (String.length suf) in H by lia.
    rewrite Hs in H. exact H.
  - intros [stem ->]. rewrite length_append. split; [lia|].
    replace (String.length stem + String.length suf - String.length suf)%nat
      with (String.length stem) by lia.
    apply substring_suffix.
Qed.

Lemma lower_ascii_dot (c : ascii) : lower_ascii c = "."%char <-> c = "."%char.
Proof.
  split; [|intros ->; reflexivity].
  destruct c as [[] [] [] [] [] [] [] []]; vm_compute; intros H;
    first [reflexivity | discriminate H].
Qed.

Lemma lower_ascii_p (c : ascii) :
  lower_ascii c = "p"%char <-> c = "p"%char \/ c = "P"%char.
Proof.
  split; [|intros [->| ->]; reflexivity].
  destruct c as [[] [] [] [] [] [] [] []]; vm_compute; intros H;
    first [left; reflexivity | right; reflexivity | discriminate H].
Qed.

Lemma lower_ascii_n (c : ascii) :
  lower_ascii c = "n"%char <-> c = "n"%char \/ c = "N"%char.
Proof.
  split; [|intros [->| ->]; reflexivity].
  destruct c as [[] [] [] [] [] [] [] []]; vm_compute; intros H;
    first [left; reflexivity | right; reflexivity | discriminate H].
Qed.

Lemma lower_ascii_g (c : ascii) :
  lower_ascii c = "g"%char <-> c = "g"%char \/ c = "G"%char.
Proof.
  split; [|intros [->| ->]; reflexivity].
  destruct c as [[] [] [] [] [] [] [] []]; vm_compute; intros H;
    first [left; reflexivity | right; reflexivity | discriminate H].
Qed.

(** X12: a name counts as a PNG exactly when it ends with a dot followed by the
    letters p, n, g, each in either case; the stem may be empty, so a file
    named [.png] is one. *)
Theorem is_png_spec (f : string) :
  is_png f = true <->
  exists stem c1 c2 c3,
    f = stem ++ String "." (String c1 (String c2 (String c3 ""))) /\
    (c1 = "p" \/ c1 = "P")%char /\ (c2 = "n" \/ c2 = "N")%char /\
    (c3 = "g" \/ c3 = "G")%char.
Proof.
  unfold is_png. rewrite endswith_spec. split.
  - intros [stem H]. apply lower_append_inv in H.
    destruct H as (a & b & -> & _ & Hb).
    destruct b as [|c0 [|c1 [|c2 [|c3 [|c4 b]]]]]; try discriminate.
    cbn in Hb. injection Hb as H0 H1 H2 H3.
    apply (proj1 (lower_ascii_dot _)) in H0. apply (proj1 (lower_ascii_p _)) in H1.
    apply (proj1 (lower_ascii_n _)) in H2. apply (proj1 (lower_ascii_g _)) in H3.
    subst c0.
    exists a, c1, c2, c3. auto.
  - intros (stem & c1 & c2 & c3 & -> & H1 & H2 & H3).
    exists (lower stem). rewrite lower_append. f_equal.
    apply (proj2 (lower_ascii_p _)) in H1. apply (proj2 (lower_ascii_n _)) in H2.
    apply (proj2 (lower_ascii_g _)) in H3.
    cbn [lower]. rewrite H1, H2, H3. reflexivity.
Qed.

Local Close Scope string_scope.

(** ** Images that already have the requested size *)

(** When the smaller side of the source is [size] the scale is exactly 1.0
    and both sides stay as they are. *)
Lemma scaled_size_fixed (w h size : Z) :
  1 <= w < dim_max -> 1 <= h < dim_max -> Z.min w h = size ->
  scaled_size w h size = Ok (w, h).
Proof.
  intros Hw Hh Hmin. pose proof scale_pow_pos as HP.
  assert (Hs : 1 <= size < dim_max) by lia.
  assert (H3153 : dim_max < 2 ^ 53) by reflexivity.
  rewrite (scaled_size_ok w h size Hw Hh Hs). cbv zeta. rewrite Hmin.
  assert (HQ : round_fmt (size * 2 ^ scale_exp) size = 2 ^ scale_exp).
  { replace (size * 2 ^ scale_exp) with (1 * 2 ^ scale_exp * size) by ring.
    rewrite round_fmt_exact; [ring | lia | split; [lia | reflexivity] |
                               unfold fmt_lo, scale_exp; lia]. }
  rewrite HQ.
  assert (Hside : forall x, 1 <= x < dim_max ->
            Z.max 1 (round_int (round_fmt (x * 2 ^ scale_exp) 1)) = x).
  { intros x Hx.
    replace (x * 2 ^ scale_exp) with (x * 2 ^ scale_exp * 1) by ring.
    rewrite round_fmt_exact by (unfold fmt_lo, scale_exp; lia).
    rewrite round_int_exact. lia. }
  rewrite (Hside w Hw), (Hside h Hh). reflexivity.
Qed.

Section FixedSize.

Variable float_of_str : string -> outcome float.
Variable resize : image pixel -> Z -> Z -> outcome (image pixel).
Variable gaussian_blur : float -> image Z -> image Z.

(** X13: a source whose smaller side already is [size] is not resampled: it is
    only cropped, whatever the resampling filter would do. *)
Theorem no_resampling_at_size (src : image pixel) (size : Z) :
  1 <= width src < dim_max -> 1 <= height src < dim_max ->
  Z.min (width src) (height src) = size ->
  scaled_size (width src) (height src) size = Ok (width src, height src) /\
  resample resize src size = Ok src /\
  resize_and_crop resize src size =
    crop src (Z.max 0 ((width src - size) / 2)) (Z.max 0 ((height src - size) / 2))
             (Z.max 0 ((width src - size) / 2) + size)
             (Z.max 0 ((height src - size) / 2) + size).
Proof.
  intros Hw Hh Hmin.
  pose proof (scaled_size_fixed _ _ _ Hw Hh Hmin) as Hss.
  assert (Hres : resample resize src size = Ok src).
  { unfold resample. rewrite Hss. cbn [obind].
    rewrite bool_decide_eq_true_2 by reflexivity. reflexivity. }
  split; [exact Hss|]. split; [exact Hres|].
  unfold resize_and_crop. rewrite Hres. reflexivity.
Qed.

End FixedSize.

(** ** The blur radius *)

Lemma scaled_5 : valid (lit 5) = true /\ finite_ok (lit 5) /\
                 scaled (lit 5) = 5 * 2 ^ scale_exp.
Proof.
  rewrite lit_5. split; [reflexivity|]. split; [cbn; lia|].
  vm_compute. reflexivity.
Qed.

Section BlurRadius.

Variable float_of_str : string -> outcome float.

(** X14: whatever float is passed as smoothing, NaN and the infinities included,
    the clamped value lies in [0.0, 1.0] and the blur radius in [0.0, 5.0].
    NaN is not rejected: [min(1.0, nan)] keeps 1.0, so it gives the largest
    radius. *)
Theorem blur_radius_range (s : float) :
  valid s = true ->
  let c := normalize_smoothing float_of_str (PyFloat_ s) in
  leb zero c = true /\ leb c one = true /\
  leb zero (blur_radius c) = true /\ leb (blur_radius c) (lit 5) = true /\
  (s = S754_nan -> c = one /\ blur_radius c = lit 5).
Proof.
  intros Hv c. pose proof scale_pow_pos as HP.
  change c with (py_max zero (py_min one s)).
  destruct (clamp_range s) as [Hc0 Hc1].
  destruct (clamp_any s Hv) as (Hvc & Hfc & Hsc). cbv zeta in Hvc, Hfc, Hsc.
  pose proof (clamp_value_range s) as Hr.
  destruct (blur_radius_scaled _ Hvc Hfc ltac:(rewrite Hsc; exact Hr))
    as (Hvr & Hfr & Hsr).
  destruct valid_zero as [Hv0 Hf0]. destruct scaled_5 as (Hv5 & Hf5 & Hs5).
  split; [exact Hc0|]. split; [exact Hc1|].
  assert (Hbot : round_fmt_signed 0 1 = 0).
  { unfold round_fmt_signed. simpl (0 <? 0). apply round_fmt_0. lia. }
  assert (Htop : round_fmt_signed (5 * 2 ^ scale_exp * 1) 1 = 5 * 2 ^ scale_exp).
  { apply (round_fmt_signed_exact _ 1 5 scale_exp);
      [lia | lia | split; [lia | reflexivity] | unfold fmt_lo; lia]. }
  rewrite Z.mul_1_r in Htop.
  split; [|split].
  - rewrite (leb_scaled _ _ Hv0 Hvr Hf0 Hfr), Hsr. cbn [scaled zero].
    apply Z.leb_le. rewrite <- Hbot. apply round_fmt_signed_mono; lia.
  - rewrite (leb_scaled _ _ Hvr Hv5 Hfr Hf5), Hsr, Hs5.
    apply Z.leb_le. rewrite <- Htop. apply round_fmt_signed_mono; lia.
  - intros ->. split; vm_compute; reflexivity.
Qed.

End BlurRadius.

(** ** Files that are processed *)


Section Completeness.

Variable float_of_str : string -> outcome float.
Variable resize : image pixel -> Z -> Z -> outcome (image pixel).
Variable gaussian_blur : float -> image Z -> image Z.





End Completeness.

(** ** Where a run writes *)

Section Writes.

Variable float_of_str : string -> outcome float.
Variable resize : image pixel -> Z -> Z -> outcome (image pixel).
Variable gaussian_blur : float -> image Z -> image Z.

Lemma batch_writes_under_output (a : args) (pngs : list path) (fs : gmap path node)
    (out : list line) (q : path) :
  1 <= size a ->
  let fs' := final_fs (batch float_of_str resize gaussian_blur a pngs fs out) in
  fs' !! q = fs !! q \/
  (fs !! q = None /\ fs' !! q = Some Dir) \/
  (output a `prefix_of` q /\ exists img, fs' !! q = Some (File (Some img))).
Proof.
  intros Hsize. revert fs out. induction pngs as [|s pngs IH]; intros fs out; cbv zeta.
  - left. reflexivity.
  - cbn [batch].
    destruct (if negb (isdir fs (dirname (dest_path_of a s)))
              then makedirs fs (dirname (dest_path_of a s)) else Ok fs)
      as [fs1|e] eqn:Hmk; [|left; reflexivity].
    pose proof (batch_step_dir a fs fs1 s q Hmk) as Hstep.
    destruct (process_image float_of_str resize gaussian_blur fs1 s
                (dest_path_of a s) (size a) (PyFloat_ (tolerance a))
                (PyFloat_ (smoothing a))) as [fs2 [[]|e]] eqn:Hpi.
    + apply process_image_ok in Hpi.
      destruct Hpi as (s0 & img & _ & _ & Hnd & _ & _ & ->).
      destruct (IH (<[dest_path_of a s := File (Some img)]> fs1)
                  (out ++ [Processed s (dest_path_of a s)]))
        as [E|[[E1 E2]|E]]; [| |right; right; exact E].
      * destruct (decide (dest_path_of a s = q)) as [<-|Hne].
        -- right. right. split; [apply dest_path_of_prefix|].
           exists img. rewrite E. apply lookup_insert_eq.
        -- rewrite lookup_insert_ne in E by exact Hne.
           destruct Hstep as [F|[F1 F2]]; [left | right; left; split]; congruence.
      * destruct (decide (dest_path_of a s = q)) as [<-|Hne].
        -- rewrite lookup_insert_eq in E1. discriminate.
        -- rewrite lookup_insert_ne in E1 by exact Hne.
           destruct Hstep as [F|[F1 F2]]; [right; left; split|]; congruence.
    + apply process_image_raise in Hpi. destruct Hpi as [->|(Hsz & _)]; [|lia].
      destruct (IH fs1 (out ++ [Failed s e])) as [E|[[E1 E2]|E]];
        [| |right; right; exact E].
      * destruct Hstep as [F|[F1 F2]]; [left | right; left; split]; congruence.
      * destruct Hstep as [F|[F1 F2]]; [right; left; split|]; congruence.
Qed.

(** X16: with a size of at least 1, all a run writes is images below the
    output directory; anywhere else the only change it can make is to add a
    directory where nothing was. *)
Theorem writes_only_under_output (a : args) (fs : gmap path node) (q : path) :
  1 <= size a ->
  let fs' := final_fs (main float_of_str resize gaussian_blur a fs) in
  fs' !! q = fs !! q \/
  (fs !! q = None /\ fs' !! q = Some Dir) \/
  (output a `prefix_of` q /\ exists img, fs' !! q = Some (File (Some img))).
Proof.
  intros Hsize. cbv zeta. unfold main.
  destruct (negb (isdir fs (input a))); [left; reflexivity|].
  destruct (makedirs fs (output a)) as [fs1|e] eqn:Hmk; [|left; reflexivity].
  pose proof (makedirs_from_adds_dirs _ _ _ _ q Hmk) as Hstep.
  destruct (gather_pngs a fs1) as [|s pngs].
  { destruct Hstep as [F|F]; [left | right; left]; exact F. }
  destruct (batch_writes_under_output a (s :: pngs) fs1 [] q Hsize) as [E|[[E1 E2]|E]];
    [| |right; right; exact E].
  - destruct Hstep as [F|[F1 F2]]; [left | right; left; split]; congruence.
  - destruct Hstep as [F|[F1 F2]]; [right; left; split|]; congruence.
Qed.


End Writes.

(** ** The alpha channel of the output *)

Lemma map_alpha_zip (datas : list pixel) (m : list Z) :
  length m = length datas -> map alpha (zip_with recombine datas m) = m.
Proof.
  revert m. induction datas as [|p l IH]; intros [|v m] H; try discriminate;
    [reflexivity|].
  cbn. rewrite alpha_recombine, IH by (cbn in H; lia). reflexivity.
Qed.

Section AlphaChannel.

Variable float_of_str : string -> outcome float.
Variable resize : image pixel -> Z -> Z -> outcome (image pixel).
Variable gaussian_blur : float -> image Z -> image Z.

(** X18: with a blur that keeps the number of mask entries, the alpha channel
    of the output is the mask, blurred when smoothing is positive, entry by
    entry: the alpha of the source plays no part in it. *)
Theorem alpha_channel_is_mask (src out : image pixel) (size : Z)
    (tolerance smoothing : pyobj) :
  (forall r m, length (getdata (gaussian_blur r m)) = length (getdata m)) ->
  process_pixels float_of_str resize gaussian_blur src size tolerance smoothing = Ok out ->
  exists img threshold,
    resize_and_crop resize src size = Ok img /\
    tolerance_threshold float_of_str tolerance = Ok threshold /\
    let mask := Image size size (map (mask_value threshold) (getdata img)) in
    map alpha (getdata out)
    = getdata (smooth gaussian_blur (normalize_smoothing float_of_str smoothing) mask).
Proof.
  intros Hblur H.
  destruct (process_pixels_data float_of_str resize gaussian_blur _ _ _ _ _ H)
    as (img & mask & Hrc & Hmask & ->).
  destruct (resize_and_crop_ok resize src img size Hrc) as (_ & Hw & Hh & Hok).
  destruct (build_mask_ok float_of_str img tolerance mask Hok Hmask)
    as (th & Hth & Hmw & Hmh & Hmd).
  exists img, th. split; [exact Hrc|]. split; [exact Hth|]. cbv zeta.
  assert (Em : mask = Image size size (map (mask_value th) (getdata img))).
  { destruct mask as [mw mh md]. cbn [width height getdata] in *. congruence. }
  rewrite <- Em. cbn [getdata].
  set (m := getdata (smooth gaussian_blur (normalize_smoothing float_of_str smoothing)
                       mask)).
  assert (Hlen : length m = length (getdata img)).
  { unfold m, smooth. destruct (ltb zero _); [rewrite Hblur|];
      rewrite Hmd, length_map; reflexivity. }
  rewrite length_zip_with, Hlen, Nat.min_id, drop_all, app_nil_r.
  apply map_alpha_zip. exact Hlen.
Qed.

End AlphaChannel.

(** ** Closed examples for the properties above *)

Lemma resize_nearest_dims (i : image pixel) (w h : Z) (r : image pixel) :
  0 <= w -> 0 <= h -> resize_nearest i w h = Ok r ->
  width r = w /\ height r = h /\ image_ok r.
Proof.
  intros Hw Hh [= <-]. split; [reflexivity|]. split; [reflexivity|].
  unfold image_ok, nearest. cbn [width height getdata].
  split; [exact Hw|]. split; [exact Hh|].
  rewrite (length_flat_map_const _ _ (Z.to_nat w)).
  - rewrite length_seqZ. lia.
  - intros y. rewrite length_map, length_seqZ. reflexivity.
Qed.

Lemma colours_preserved_witness :
  exists img, resize_and_crop resize_nearest wide_img 2 = Ok img /\
              same_rgb_image img wide_out.
Proof.
  apply (colours_preserved float_of_str_none resize_nearest blur_box wide_img wide_out 2
           (PyFloat_ one) (PyFloat_ zero)).
  vm_compute. reflexivity.
Defined.

Lemma crop_box_centred_inside_witness :
  exists x0 y0,
    crop_box 4 2 2 = (x0, y0, x0 + 2, y0 + 2) /\
    0 <= x0 /\ x0 + 2 <= 4 /\ 0 <= y0 /\ y0 + 2 <= 2 /\
    0 <= (4 - (x0 + 2)) - x0 <= 1 /\ 0 <= (2 - (y0 + 2)) - y0 <= 1 /\
    (x0 = 0 /\ 4 = 2 \/ y0 = 0 /\ 2 = 2) /\
    Forall (fun p => In p [white; white; red; red; white; white; red; red])
           [white; red; white; red].
Proof.
  apply (crop_box_centred_inside resize_nearest resize_nearest_dims wide_img
           (nearest wide_img 4 2) (Image 2 2 [white; red; white; red]) 2).
  - unfold image_ok. cbn. lia.
  - vm_compute. split; [discriminate | reflexivity].
  - vm_compute. split; [discriminate | reflexivity].
  - vm_compute. split; [discriminate | reflexivity].
  - vm_compute. reflexivity.
  - vm_compute. reflexivity.
Defined.

Lemma process_pixels_idempotent_witness :
  process_pixels float_of_str_none resize_nearest blur_box wide_out 2
    (PyFloat_ one) (PyFloat_ zero) = Ok wide_out.
Proof.
  apply (process_pixels_idempotent float_of_str_none resize_nearest blur_box wide_img
           wide_out 2 (PyFloat_ one) (PyFloat_ zero)).
  - vm_compute. split; [discriminate | reflexivity].
  - vm_compute. reflexivity.
Defined.

Lemma threshold_is_byte_witness :
  exists th, tolerance_threshold float_of_str_none (PyFloat_ half) = Ok th /\
             0 <= th <= 255 /\ (leb (lit 255) half = true -> th = 255).
Proof.
  apply (threshold_is_byte float_of_str_none half); vm_compute; reflexivity.
Defined.

Lemma legacy_tolerance_is_threshold_witness :
  tolerance_threshold float_of_str_none (PyInt 200) = Ok 200 /\
  tolerance_threshold float_of_str_none (PyFloat_ (lit 200)) = Ok 200.
Proof. apply (legacy_tolerance_is_threshold float_of_str_none 200). lia. Defined.

Lemma main_keeps_existing_entries_witness :
  final_fs (main float_of_str_none resize_nearest blur_box batch_args batch_fs)
    !! ["in"; "a.png"] = Some (File (Some wide_img)).
Proof.
  apply (main_keeps_existing_entries float_of_str_none resize_nearest blur_box
           batch_args batch_fs).
  - reflexivity.
  - right. intros [k E]. discriminate E.
Defined.

Lemma processed_files_are_written_witness :
  let r := main float_of_str_none resize_nearest blur_box batch_args batch_fs in
  In (Processed ["in"; "a.png"] ["out"; "a.png"]) (stdout r) /\
  ["out"; "a.png"] = dest_path_of batch_args ["in"; "a.png"] /\
  output batch_args `prefix_of` ["out"; "a.png"] /\
  exists img, final_fs r !! ["out"; "a.png"] = Some (File (Some img)) /\
              width img = size batch_args /\ height img = size batch_args.
Proof.
  intros r.
  assert (H : In (Processed ["in"; "a.png"] ["out"; "a.png"]) (stdout r))
    by (vm_compute; tauto).
  split; [exact H|].
  exact (processed_files_are_written float_of_str_none resize_nearest blur_box
           batch_args batch_fs _ _ H).
Defined.

Lemma no_threshold_no_output_witness :
  Forall not_processed
    (stdout (main float_of_str_none resize_nearest blur_box nan_args batch_fs)) /\
  forall q,
    final_fs (main float_of_str_none resize_nearest blur_box nan_args batch_fs) !! q
      = batch_fs !! q \/
    (batch_fs !! q = None /\
     final_fs (main float_of_str_none resize_nearest blur_box nan_args batch_fs) !! q
       = Some Dir).
Proof.
  apply (no_threshold_no_output float_of_str_none resize_nearest blur_box nan_args
           batch_fs ValueError).
  reflexivity.
Defined.

Lemma output_directory_exists_witness :
  dirs_on_path
    (final_fs (main float_of_str_none resize_nearest blur_box batch_args batch_fs))
    (output batch_args) /\
  isdir (final_fs (main float_of_str_none resize_nearest blur_box batch_args batch_fs))
    (input batch_args) = true.
Proof.
  apply (output_directory_exists float_of_str_none resize_nearest blur_box
           batch_args batch_fs (with_out batch_fs)); reflexivity.
Defined.

Lemma no_resampling_at_size_witness :
  scaled_size 2 1 1 = Ok (2, 1) /\
  resample resize_nearest wide_img 1 = Ok wide_img /\
  resize_and_crop resize_nearest wide_img 1 = crop wide_img 0 0 1 1.
Proof.
  apply (no_resampling_at_size resize_nearest wide_img 1).
  - vm_compute. split; [discriminate | reflexivity].
  - vm_compute. split; [discriminate | reflexivity].
  - reflexivity.
Defined.

Lemma blur_radius_range_witness :
  let c := normalize_smoothing float_of_str_none (PyFloat_ S754_nan) in
  leb zero c = true /\ leb c one = true /\
  leb zero (blur_radius c) = true /\ leb (blur_radius c) (lit 5) = true /\
  (S754_nan = S754_nan -> c = one /\ blur_radius c = lit 5).
Proof. apply (blur_radius_range float_of_str_none S754_nan). reflexivity. Defined.


Lemma writes_only_under_output_witness :
  let fs' := final_fs (main float_of_str_none resize_nearest blur_box batch_args
                         batch_fs) in
  fs' !! ["out"; "a.png"] = batch_fs !! ["out"; "a.png"] \/
  (batch_fs !! ["out"; "a.png"] = None /\ fs' !! ["out"; "a.png"] = Some Dir) \/
  (output batch_args `prefix_of` ["out"; "a.png"] /\
   exists img, fs' !! ["out"; "a.png"] = Some (File (Some img))).
Proof.
  apply (writes_only_under_output float_of_str_none resize_nearest blur_box
           batch_args batch_fs ["out"; "a.png"]).
  cbn. lia.
Defined.


Lemma alpha_channel_is_mask_witness :
  exists img threshold,
    resize_and_crop resize_nearest wide_img 2 = Ok img /\
    tolerance_threshold float_of_str_none (PyFloat_ one) = Ok threshold /\
    map alpha (getdata wide_out)
    = getdata (smooth (fun _ m => m) (normalize_smoothing float_of_str_none (PyFloat_ half))
                 (Image 2 2 (map (mask_value threshold) (getdata img)))).
Proof.
  apply (alpha_channel_is_mask float_of_str_none resize_nearest (fun _ m => m)
           wide_img wide_out 2 (PyFloat_ one) (PyFloat_ half)).
  - reflexivity.
  - vm_compute. reflexivity.
Defined.

Lemma gather_pngs_spec_witness :
  In ["in"; "b.PNG"] (gather_pngs batch_args batch_fs) <->
  exists f, last ["in"; "b.PNG"] = Some f /\ is_png f = true /\
    if recursive batch_args
    then input batch_args `prefix_of` ["in"; "b.PNG"] /\
         exists c, batch_fs !! ["in"; "b.PNG"] = Some (File c)
    else dirname ["in"; "b.PNG"] = input batch_args /\
         is_Some (batch_fs !! ["in"; "b.PNG"]).
Proof. apply (gather_pngs_spec batch_args batch_fs). reflexivity. Defined.

(** ** Files that cannot be opened *)


Section Failures.

Variable float_of_str : string -> outcome float.
Variable resize : image pixel -> Z -> Z -> outcome (image pixel).
Variable gaussian_blur : float -> image Z -> image Z.



End Failures.

